(** * torch_tvm/compiler.cpp: translation of a JIT subgraph to Relay,
      the specialization cache and the [run] entry point.

    A shallow embedding of [src/torch_tvm/compiler.cpp].  Pointers are
    natural numbers, C++ exceptions are values of [exn], machine integers
    are [Z] with the wrap-around written out, IEEE doubles and floats are
    [spec_float], and the two [std::unordered_map]s of the file
    ([value_map], [cache_]) are [gmap]s. *)

From Stdlib Require Import ZArith Lia.
From Stdlib Require Import Floats.SpecFloat.
From stdpp Require Import gmap strings list fin_maps pretty.

Set Warnings "-register-all".

Local Open Scope Z_scope.

(** ** Element types *)

(** [at::ScalarType] (c10/core/ScalarType.h), every enumerator. *)
Inductive ScalarType : Set :=
  | Byte | Char | Short | Int | Long | Half | Float | Double
  | ComplexHalf | ComplexFloat | ComplexDouble | Bool
  | QInt8 | QUInt8 | QInt32 | BFloat16 | Undefined.

(** DLPack type codes and [tvm::relay::DataType] (lanes are always 1 here). *)
Inductive TypeCode : Set := kDLInt | kDLUInt | kDLFloat.

Record DataType : Set := mkDataType { dt_code : TypeCode; dt_bits : Z }.

Module tvm.
Definition Float (bits : Z) : DataType := mkDataType kDLFloat bits.
Definition Int (bits : Z) : DataType := mkDataType kDLInt bits.
Definition UInt (bits : Z) : DataType := mkDataType kDLUInt bits.
(** [tvm::Bool()] is [UInt(1)]. *)
Definition Bool : DataType := UInt 1.
End tvm.

#[global] Instance ScalarType_eq_dec : EqDecision ScalarType.
Proof. solve_decision. Defined.

Definition ScalarType_to_nat (t : ScalarType) : nat :=
  match t with
  | Byte => 0 | Char => 1 | Short => 2 | Int => 3 | Long => 4 | Half => 5
  | Float => 6 | Double => 7 | ComplexHalf => 8 | ComplexFloat => 9
  | ComplexDouble => 10 | Bool => 11 | QInt8 => 12 | QUInt8 => 13
  | QInt32 => 14 | BFloat16 => 15 | Undefined => 16
  end%nat.

Definition ScalarType_of_nat (n : nat) : ScalarType :=
  match n with
  | 0 => Byte | 1 => Char | 2 => Short | 3 => Int | 4 => Long | 5 => Half
  | 6 => Float | 7 => Double | 8 => ComplexHalf | 9 => ComplexFloat
  | 10 => ComplexDouble | 11 => Bool | 12 => QInt8 | 13 => QUInt8
  | 14 => QInt32 | 15 => BFloat16 | _ => Undefined
  end%nat.

#[global] Instance ScalarType_countable : Countable ScalarType.
Proof.
  apply (inj_countable' ScalarType_to_nat ScalarType_of_nat).
  intros []; reflexivity.
Defined.

(** ** Exceptions *)

(** [Value*]: a graph value is identified by its address. *)
Definition Value := nat.

(** Every [throw] site of the file.  [TORCH_CHECK], [TORCH_INTERNAL_ASSERT]
    and [AT_ERROR] all raise [c10::Error]; the constructors record which
    site raised it and the operands the message is built from. *)
Inductive exn : Type :=
  | CouldNotHandleType (t : ScalarType)          (* TORCH_CHECK, line 29 *)
  | ValueNotCompleteTensor (v : Value)           (* TORCH_INTERNAL_ASSERT(0), line 54 *)
  | DoubleAboveFloatMax                          (* TORCH_CHECK, line 65 *)
  | DoubleBelowFloatLowest                       (* TORCH_CHECK, line 66 *)
  | IntAboveInt32Max (l : Z)                     (* TORCH_CHECK, lines 77 and 104 *)
  | IntBelowInt32Lowest (l : Z)                  (* TORCH_CHECK, lines 78 and 105 *)
  | CannotConvertValue                           (* TORCH_CHECK(0, ...), line 112 *)
  | InputNotCompleteTensor (v : Value)           (* TORCH_INTERNAL_ASSERT, line 124 *)
  | OutputNotInValueMap (v : Value)              (* TORCH_INTERNAL_ASSERT, line 196 *)
  | FreeVarsExceedInputs (nfree ninputs : nat)   (* TORCH_CHECK, line 203 *)
  | OperatorError (kind : string)                (* raised inside getOperator *)
  | NotATensor                                   (* IValue::toTensor on a non-tensor *)
  | FailToConvertToRelay (cause : exn)           (* AT_ERROR, line 263; carries e.what() *)
  | BuildError (msg : string)                    (* raised inside the build module *)
  | RegistryMissing (name : string)              (* TORCH_INTERNAL_ASSERT, lines 235 and 281 *)
  | MismatchingNumOutputs (declared reported : Z)(* TORCH_CHECK, line 290 *)
  | ConstantHasNoValue (v : Value)               (* TORCH_INTERNAL_ASSERT, line 299 *)
  | BadFunctionCall                              (* call of an empty PackedFunc *)
  | RuntimeError (msg : string)                  (* raised inside a function of the runtime *)
  | InvalidSlice                                 (* ArrayRef::slice out of bounds *)
  | InterpreterError (msg : string).             (* raised inside InterpreterState::run *)

Inductive result (A : Type) : Type :=
  | Ok (a : A)
  | Throw (e : exn).
Arguments Ok {A} a.
Arguments Throw {A} e.

(** ** scalarTypeToTVMType (lines 15-33) *)

Definition type_mapping : gmap ScalarType DataType :=
  list_to_map
    [ (Float, tvm.Float 32);
      (Double, tvm.Float 64);
      (Int, tvm.Int 32);
      (Long, tvm.Int 64);
      (Bool, tvm.Bool);
      (Char, tvm.Int 8);
      (Byte, tvm.UInt 8);
      (QInt8, tvm.Int 8);
      (QUInt8, tvm.UInt 8);
      (QInt32, tvm.Int 32) ].

Definition scalarTypeToTVMType (pt_type : ScalarType) : result DataType :=
  match type_mapping !! pt_type with
  | Some t => Ok t
  | None => Throw (CouldNotHandleType pt_type)
  end.

(** ** Machine numbers *)

(** Conversion of a 64-bit integer to [int32_t] (two's complement wrap). *)
Definition wrap_int32 (z : Z) : Z := (z + 2 ^ 31) mod 2 ^ 32 - 2 ^ 31.

(** Conversion to [uint64_t]. *)
Definition wrap_uint64 (z : Z) : Z := z mod 2 ^ 64.

(** [std::numeric_limits<int32_t>::max()] and [::lowest()]. *)
Definition int32_max : Z := 2 ^ 31 - 1.
Definition int32_lowest : Z := - 2 ^ 31.

(** IEEE 754 binary64 ([double]) and binary32 ([float]) values are
    [spec_float]s; the formats are given by precision and maximal exponent. *)
Module fp.
Definition double_prec : Z := 53.
Definition double_emax : Z := 1024.
Definition float_prec : Z := 24.
Definition float_emax : Z := 128.

(** [std::numeric_limits<float>::max()] and [::lowest()]. *)
Definition float_max : spec_float := SFmax_float float_prec float_emax.
Definition float_lowest : spec_float := SFopp float_max.

(** The usual arithmetic conversion of a [float] operand to [double]
    (exact: every binary32 value is a binary64 value). *)
Definition float_to_double (f : spec_float) : spec_float :=
  match f with
  | S754_finite s m e => binary_round double_prec double_emax s m e
  | _ => f
  end.

(** [static_cast<float>(d)]: round to nearest, ties to even. *)
Definition double_to_float (d : spec_float) : spec_float :=
  match d with
  | S754_finite s m e => binary_round float_prec float_emax s m e
  | _ => d
  end.

(** [a <= b] and [a >= b] on doubles (false when either is NaN). *)
Definition le (a b : spec_float) : bool := SFleb a b.
Definition ge (a b : spec_float) : bool := SFleb b a.

(** A well-formed [double]. *)
Definition is_double (d : spec_float) : Prop :=
  valid_binary double_prec double_emax d = true.

(** "Within 32-bit float range", on the real number a double stands
    for: a finite double is [m * 2^e] up to sign, the largest float is
    [(2^24 - 1) * 2^104], and the two are compared after scaling both by
    the smaller of the two exponents.  Infinities and NaN are outside. *)
Definition in_float_range (d : spec_float) : Prop :=
  match d with
  | S754_zero _ => True
  | S754_finite _ m e =>
      Z.pos m * 2 ^ (e - Z.min e 104) <= (2 ^ 24 - 1) * 2 ^ (104 - Z.min e 104)
  | _ => False
  end.
End fp.

(** ** Run-time values of the host engine *)

(** [at::Tensor]: element type, sizes and the address of the first element
    (what [data_ptr()] and DLPack's [data] field give).  The elements
    themselves play no part in this file. *)
Record Tensor : Set := mkTensor {
  scalar_type : ScalarType;
  sizes : list Z;
  data_ptr : Z
}.

(** [c10::IValue], by its tag. *)
Inductive IValue : Set :=
  | IDouble (d : spec_float)
  | IInt (l : Z)
  | IBool (b : bool)
  | INone
  | IIntList (l : list Z)
  | ITensor (t : Tensor)
  | IDoubleList (l : list spec_float)
  | IBoolList (l : list bool)
  | IString (s : string)
  | ITensorList (l : list Tensor).

(** [IValue::toTensor()] asserts the tag. *)
Definition toTensor (v : IValue) : result Tensor :=
  match v with
  | ITensor t => Ok t
  | _ => Throw NotATensor
  end.

Definition isTensor (v : IValue) : bool :=
  match v with ITensor _ => true | _ => false end.

(** ** Relay expressions *)

Inductive DLDeviceType : Set := kDLCPU | kDLGPU.

(** [TVMContext]. *)
Record DLContext : Set := mkContext { device_type : DLDeviceType; device_id : Z }.

(** The one element a zero-dimensional [NDArray] holds, by the type of the
    cell it was written through. *)
Inductive Element : Set :=
  | ElFloat32 (f : spec_float)
  | ElInt32 (z : Z)
  | ElBool (b : bool)
  | ElUInt64 (z : Z).

Record NDArray : Set := mkNDArray {
  nd_shape : list Z;
  nd_dtype : DataType;
  nd_ctx : DLContext;
  nd_data : Element
}.

(** [tvm::runtime::String2TVMType] on the four names the file passes. *)
Definition String2TVMType (s : string) : DataType :=
  if decide (s = "float32") then tvm.Float 32
  else if decide (s = "int32") then tvm.Int 32
  else if decide (s = "bool") then tvm.UInt 1
  else if decide (s = "uint64") then tvm.UInt 64
  else tvm.Float 32.

(** [TensorTypeNode]: shape (as [int32_t] index expressions) and dtype. *)
Record TensorType : Set := mkTensorType { tt_shape : list Z; tt_dtype : DataType }.

(** [VarNode]: [var_id] is the address of the node (Relay compares
    variables by address), [name_hint] the name it was made with. *)
Record Var : Set := mkVar {
  var_id : nat;
  name_hint : string;
  type_annotation : TensorType
}.

Inductive Expr : Set :=
  | EVar (v : Var)
  | EConstant (data : NDArray)
  | ETuple (fields : list Expr)
  | ETupleGetItem (tuple : Expr) (index : Z)
  | ECall (op : string) (args : list Expr).

(** [FunctionNode::make(params, body, Type(), {})]. *)
Record Function : Set := mkFunction { params : list Var; body : Expr }.

(** [tvm::relay::FreeVars]: the distinct variables of an expression that
    no binder captures, in the order a post-order walk meets them.  The
    expressions above have no binders. *)
Definition add_var (acc : list Var) (v : Var) : list Var :=
  if existsb (fun w => Nat.eqb (var_id w) (var_id v)) acc then acc else acc ++ [v].

Fixpoint free_vars_acc (e : Expr) (acc : list Var) {struct e} : list Var :=
  match e with
  | EVar v => add_var acc v
  | EConstant _ => acc
  | ETuple fields =>
      (fix go (es : list Expr) (acc : list Var) : list Var :=
         match es with
         | [] => acc
         | e' :: es' => go es' (free_vars_acc e' acc)
         end) fields acc
  | ETupleGetItem t _ => free_vars_acc t acc
  | ECall _ args =>
      (fix go (es : list Expr) (acc : list Var) : list Var :=
         match es with
         | [] => acc
         | e' :: es' => go es' (free_vars_acc e' acc)
         end) args acc
  end.

Definition FreeVars (e : Expr) : list Var := free_vars_acc e [].

(** ** convertToRelay(const IValue&, TVMContext) (lines 57-114) *)

(** One int32 scalar constant (lines 74-81, and 102-108 for list elements). *)
Definition int32_constant (l : Z) (ctx : DLContext) : result Expr :=
  if negb (l <=? int32_max) then Throw (IntAboveInt32Max l)
  else if negb (l >=? int32_lowest) then Throw (IntBelowInt32Lowest l)
  else Ok (EConstant (mkNDArray [] (String2TVMType "int32") ctx (ElInt32 (wrap_int32 l)))).

(** The loop of lines 101-109: stops at the first element that throws. *)
Fixpoint int32_constants (elems : list Z) (ctx : DLContext) : result (list Expr) :=
  match elems with
  | [] => Ok []
  | elem :: rest =>
      match int32_constant elem ctx with
      | Throw e => Throw e
      | Ok v =>
          match int32_constants rest ctx with
          | Throw e => Throw e
          | Ok vs => Ok (v :: vs)
          end
      end
  end.

Section Constants.
(** [getNoneSentinel()] is declared in operators.h. *)
Variable getNoneSentinel : Z.

Definition convertToRelay_IValue (val : IValue) (ctx : DLContext) : result Expr :=
  match val with
  | IDouble d =>
      if negb (fp.le d (fp.float_to_double fp.float_max)) then Throw DoubleAboveFloatMax
      else if negb (fp.ge d (fp.float_to_double fp.float_lowest)) then Throw DoubleBelowFloatLowest
      else Ok (EConstant (mkNDArray [] (String2TVMType "float32") ctx
                            (ElFloat32 (fp.double_to_float d))))
  | IInt l => int32_constant l ctx
  | IBool b =>
      Ok (EConstant (mkNDArray [] (String2TVMType "bool") ctx (ElBool b)))
  | INone =>
      Ok (EConstant (mkNDArray [] (String2TVMType "uint64") ctx
                       (ElUInt64 (wrap_uint64 getNoneSentinel))))
  | IIntList l =>
      match int32_constants l ctx with
      | Throw e => Throw e
      | Ok tuple_elems => Ok (ETuple tuple_elems)
      end
  | _ => Throw CannotConvertValue
  end.
End Constants.

(** ** The subgraph *)

(** [torch::jit::Node]: its address, its kind and its ordered inputs and
    outputs. *)
Record Node : Set := mkNode {
  node_addr : nat;
  kind : string;
  n_inputs : list Value;
  n_outputs : list Value
}.

(** [torch::jit::Graph], as far as this file looks at it. *)
Record Graph : Type := mkGraph {
  g_inputs : list Value;             (* subgraph->inputs() *)
  g_outputs : list Value;            (* subgraph->outputs() *)
  uses : Value -> list Node;         (* value->uses(): the user of each use, in order *)
  toIValue : Value -> option IValue; (* torch::jit::toIValue(value) *)
  debugName : Value -> string        (* value->debugName() *)
}.

(** [CompleteTensorType]: what [inferTypeFrom] records and
    [isCompleteTensor] tests for. *)
Record CompleteTensorType : Set := mkCompleteTensorType {
  ct_scalarType : ScalarType;
  ct_sizes : list Z
}.

(** ** A state monad with exceptions *)

(** A computation either returns or throws; the state it leaves behind is
    kept in both cases (a C++ exception does not undo earlier writes). *)
Definition M (S A : Type) : Type := S -> result A * S.

Definition ret {S A} (a : A) : M S A := fun s => (Ok a, s).
Definition throw {S A} (e : exn) : M S A := fun s => (Throw e, s).
Definition bind {S A B} (m : M S A) (k : A -> M S B) : M S B :=
  fun s => match m s with
           | (Ok a, s') => k a s'
           | (Throw e, s') => (Throw e, s')
           end.
Definition get {S} : M S S := fun s => (Ok s, s).
Definition modify {S} (f : S -> S) : M S unit := fun s => (Ok tt, f s).
Definition lift {S A} (r : result A) : M S A := fun s => (r, s).

Declare Scope M_scope.
Delimit Scope M_scope with M.
Notation "'let*' x ':=' m 'in' k" := (bind m (fun x => k))
  (at level 10, x pattern, m at level 100, k at level 200) : M_scope.
Notation "m ';;' k" := (bind m (fun _ => k))
  (at level 100, k at level 200, right associativity) : M_scope.
Local Open Scope M_scope.

(** ** The state of one translation pass *)

Record TState : Type := mkTState {
  value_map : gmap Value Expr;        (* line 120 *)
  input_vars : list Var;              (* line 121 *)
  input_values : option (list Value); (* the out-parameter; None is nullptr *)
  types : gmap Value CompleteTensorType; (* the type each Value carries, when complete *)
  next_var : nat                      (* address the next VarNode is made at *)
}.

Definition set_value_map (f : gmap Value Expr -> gmap Value Expr) (s : TState) : TState :=
  mkTState (f (value_map s)) (input_vars s) (input_values s) (types s) (next_var s).
Definition push_input_var (v : Var) (s : TState) : TState :=
  mkTState (value_map s) (input_vars s ++ [v]) (input_values s) (types s) (next_var s).
(** [if (input_values) input_values->emplace_back(v)]. *)
Definition push_input_value (v : Value) (s : TState) : TState :=
  mkTState (value_map s) (input_vars s)
           (match input_values s with Some l => Some (l ++ [v]) | None => None end)
           (types s) (next_var s).
(** [val->inferTypeFrom(tensor)]. *)
Definition inferTypeFrom (val : Value) (t : Tensor) (ty : gmap Value CompleteTensorType)
  : gmap Value CompleteTensorType :=
  <[val := mkCompleteTensorType (scalar_type t) (sizes t)]> ty.
Definition set_types (f : gmap Value CompleteTensorType -> gmap Value CompleteTensorType)
  (s : TState) : TState :=
  mkTState (value_map s) (input_vars s) (input_values s) (f (types s)) (next_var s).
(** [VarNode::make(name, type)] allocates a new node. *)
Definition VarNode_make (name : string) (t : TensorType) : M TState Var :=
  fun s => (Ok (mkVar (next_var s) name t),
            mkTState (value_map s) (input_vars s) (input_values s) (types s) (S (next_var s))).

(** ** convertToRelay(Value*, TVMContext) (lines 35-55) *)

Definition convertToRelay_Value (g : Graph) (val : Value) (ctx : DLContext) : M TState Var :=
  (match toIValue g val with
   | Some iv =>
       let* t := lift (toTensor iv) in
       modify (set_types (inferTypeFrom val t))
   | None => ret tt
   end) ;;
  let* s := get in
  match types s !! val with
  | Some pt_t =>
      let sizes := map wrap_int32 (ct_sizes pt_t) in
      let* dt := lift (scalarTypeToTVMType (ct_scalarType pt_t)) in
      VarNode_make (debugName g val +:+ pretty val) (mkTensorType sizes dt)
  | None => throw (ValueNotCompleteTensor val)
  end.

(** ** convertToRelay on a whole subgraph, with the [input_values]
       out-parameter (lines 116-213) *)

Section GraphTranslation.
(** [getOperator] and [getNoneSentinel] are declared in operators.h. *)
Variable getOperator : Node -> list Expr -> result Expr.
Variable getNoneSentinel : Z.
Variable g : Graph.
Variable ctx : DLContext.

(** Lines 123-131. *)
Fixpoint seed_inputs (inputs : list Value) : M TState unit :=
  match inputs with
  | [] => ret tt
  | input :: rest =>
      let* s := get in
      (if decide (is_Some (types s !! input)) then ret tt
       else throw (InputNotCompleteTensor input)) ;;
      let* v := convertToRelay_Value g input ctx in
      modify (push_input_var v) ;;
      modify (push_input_value input) ;;
      modify (set_value_map (insert input (EVar v))) ;;
      seed_inputs rest
  end.

(** Lines 142-163, for one user: [None] is [skip_user = true; break]. *)
Fixpoint resolve_inputs (inputs : list Value) (relay_inputs : list Expr)
  : M TState (option (list Expr)) :=
  match inputs with
  | [] => ret (Some relay_inputs)
  | input :: rest =>
      let* s := get in
      match value_map s !! input with
      | Some e => resolve_inputs rest (relay_inputs ++ [e])
      | None =>
          (* We may be dealing with a constant, handle that here *)
          match toIValue g input with
          | None => ret None
          | Some iv =>
              if isTensor iv then
                modify (push_input_value input) ;;
                let* input_var := convertToRelay_Value g input ctx in
                modify (push_input_var input_var) ;;
                modify (set_value_map (insert input (EVar input_var))) ;;
                resolve_inputs rest (relay_inputs ++ [EVar input_var])
              else
                let* e := lift (convertToRelay_IValue getNoneSentinel iv ctx) in
                modify (set_value_map (insert input e)) ;;
                resolve_inputs rest (relay_inputs ++ [e])
          end
      end
  end.

(** Lines 178-185. *)
Fixpoint bind_outputs (tuple : Expr) (outputs : list Value) (index : Z)
  (new_frontier : list Value) : M TState (list Value) :=
  match outputs with
  | [] => ret new_frontier
  | output :: rest =>
      modify (set_value_map (insert output (ETupleGetItem tuple index))) ;;
      bind_outputs tuple rest (index + 1) (new_frontier ++ [output])
  end.

(** The body of the loop over [uses] (lines 140-186). *)
Definition visit_user (user : Node) (new_frontier : list Value) : M TState (list Value) :=
  let* r := resolve_inputs (n_inputs user) [] in
  match r with
  | None => ret new_frontier
  | Some relay_inputs =>
      match n_outputs user with
      | [] => ret new_frontier      (* Things like prim::Return *)
      | [output] =>
          let* e := lift (getOperator user relay_inputs) in
          modify (set_value_map (insert output e)) ;;
          ret (new_frontier ++ [output])
      | outputs =>
          (* if there are 2+ outputs, getOperator returns a tuple *)
          let* tuple := lift (getOperator user relay_inputs) in
          bind_outputs tuple outputs 0 new_frontier
      end
  end.

Fixpoint visit_uses (users : list Node) (new_frontier : list Value) : M TState (list Value) :=
  match users with
  | [] => ret new_frontier
  | user :: rest =>
      let* nf := visit_user user new_frontier in
      visit_uses rest nf
  end.

(** The loop over [frontier] (lines 137-188). *)
Fixpoint visit_frontier (frontier : list Value) (new_frontier : list Value)
  : M TState (list Value) :=
  match frontier with
  | [] => ret new_frontier
  | value :: rest =>
      let* nf := visit_uses (uses g value) new_frontier in
      visit_frontier rest nf
  end.

(** [while (frontier.size())] (lines 135-190).  [fuel] bounds the number
    of rounds; [None] means the bound was reached with a frontier left. *)
Fixpoint propagate (fuel : nat) (frontier : list Value) (s : TState)
  : option (result unit * TState) :=
  match frontier with
  | [] => Some (Ok tt, s)
  | _ :: _ =>
      match fuel with
      | O => None
      | S fuel' =>
          match visit_frontier frontier [] s with
          | (Ok new_frontier, s') => propagate fuel' new_frontier s'
          | (Throw e, s') => Some (Throw e, s')
          end
      end
  end.

(** Lines 195-198. *)
Fixpoint collect_outputs (outputs : list Value) (fields : list Expr)
  : M TState (list Expr) :=
  match outputs with
  | [] => ret fields
  | sg_output :: rest =>
      let* s := get in
      match value_map s !! sg_output with
      | Some e => collect_outputs rest (fields ++ [e])
      | None => throw (OutputNotInValueMap sg_output)
      end
  end.

(** Lines 192-212. *)
Definition assemble : M TState Function :=
  let* fields := collect_outputs (g_outputs g) [] in
  let output := ETuple fields in
  let free_vars := FreeVars output in
  let* s := get in
  if negb (length free_vars <=? length (input_vars s))%nat
  then throw (FreeVarsExceedInputs (length free_vars) (length (input_vars s)))
  else ret (mkFunction (input_vars s) output).

(** The state a pass starts in: fresh [value_map] and [input_vars]
    (lines 120-121); the caller supplies the rest. *)
Definition start_state (input_values : option (list Value))
  (types : gmap Value CompleteTensorType) (next_var : nat) : TState :=
  mkTState ∅ [] input_values types next_var.

Definition convertToRelay_Graph (fuel : nat) (input_values : option (list Value))
  (types : gmap Value CompleteTensorType) (next_var : nat)
  : option (result Function * TState) :=
  match seed_inputs (g_inputs g) (start_state input_values types next_var) with
  | (Throw e, s1) => Some (Throw e, s1)
  | (Ok _, s1) =>
      match propagate fuel (g_inputs g) s1 with
      | None => None
      | Some (Throw e, s2) => Some (Throw e, s2)
      | Some (Ok _, s2) => Some (assemble s2)
      end
  end.
End GraphTranslation.

(** ** The compiled unit: TVMCompiler *)

(** The caller's stack: the top is the end of the list. *)
Definition Stack : Set := list IValue.

(** Modelled from the spec: [CompleteArgumentSpec] (PyTorch's
    argument_spec.h, not part of this repository), the key of [cache_].
    Following the spec's Signature, it records for every input whether it
    is a tensor and, for a tensor, its element type and its sizes. *)
Abbreviation Signature := (list (option (ScalarType * list Z))).

Definition CompleteArgumentSpec (inputs : list IValue) : Signature :=
  map (fun iv => match iv with
                 | ITensor t => Some (scalar_type t, sizes t)
                 | _ => None
                 end) inputs.

(** What [relay.build_module] hands back ([get_graph_json], [get_module]). *)
Record CompiledLib : Set := mkCompiledLib { lib_json : string; lib_func : Function }.

(** The graph runtime made by [tvm.graph_runtime.create]. *)
Record RuntimeModule : Set := mkRuntimeModule {
  rm_addr : nat;
  rm_num_outputs : Z        (* what [get_num_outputs] reports *)
}.

(** [TVMObject] (compiler.h): one cache entry.  A [PackedFunc] is the
    runtime it is bound to; [None] is the empty [PackedFunc] a
    default-constructed entry holds. *)
Module TVMObject.
Record t : Set := mk {
  kernel : option RuntimeModule;
  set_input : option RuntimeModule;
  set_input_zero_copy : option RuntimeModule;
  get_output : option RuntimeModule;
  input_values : list Value
}.
Definition default : t := mk None None None None [].
Definition with_input_values (l : list Value) (o : t) : t :=
  mk (kernel o) (set_input o) (set_input_zero_copy o) (get_output o) l.
Definition with_set_input (f : option RuntimeModule) (o : t) : t :=
  mk (kernel o) f (set_input_zero_copy o) (get_output o) (input_values o).
Definition with_set_input_zero_copy (f : option RuntimeModule) (o : t) : t :=
  mk (kernel o) (set_input o) f (get_output o) (input_values o).
Definition with_kernel (f : option RuntimeModule) (o : t) : t :=
  mk f (set_input o) (set_input_zero_copy o) (get_output o) (input_values o).
Definition with_get_output (f : option RuntimeModule) (o : t) : t :=
  mk (kernel o) (set_input o) (set_input_zero_copy o) f (input_values o).
End TVMObject.

(** The members of [TVMCompiler]. *)
Record TVMCompiler : Type := mkTVMCompiler {
  opt_level_ : Z;
  strict_ : bool;
  device_type_ : string;
  device_ : string;
  host_ : string;
  ctx_ : DLContext;
  subgraph_ : Graph;
  cache_ : gmap Signature TVMObject.t
}.

Definition with_cache (f : gmap Signature TVMObject.t -> gmap Signature TVMObject.t)
  (c : TVMCompiler) : TVMCompiler :=
  mkTVMCompiler (opt_level_ c) (strict_ c) (device_type_ c) (device_ c) (host_ c)
                (ctx_ c) (subgraph_ c) (f (cache_ c)).

(** Calls that leave the translation unit, in the order they are made.
    [EvConvertToRelay] marks the start of a translation pass. *)
Inductive Event : Set :=
  | EvConvertToRelay (spec : Signature)
  | EvBuild (f : Function)
  | EvInterpreter
  | EvSetInput (rm : RuntimeModule) (i : nat) (t : Tensor)
  | EvSetInputZeroCopy (rm : RuntimeModule) (i : nat) (t : Tensor)
  | EvKernel (rm : RuntimeModule)
  | EvGetOutput (rm : RuntimeModule) (i : nat).

(** What the file calls but does not define. *)
Record External : Type := mkExternal {
  (* operators.h *)
  getOperator : Node -> list Expr -> result Expr;
  getNoneSentinel : Z;
  (* tvm::runtime::Registry::Get(name) != nullptr *)
  registry : string -> bool;
  (* build_f, json_f and mod_f of the build module *)
  build : Function -> DLDeviceType -> string -> string -> result CompiledLib;
  (* tvm.graph_runtime.create *)
  graph_runtime_create : CompiledLib -> DLContext -> result RuntimeModule;
  (* how a call of set_input, set_input_zero_copy, run or get_output ends
     after the calls made so far: it returns, or it throws *)
  packed_func : list Event -> Event -> result unit;
  (* the tensor get_output(i) yields after the calls made so far *)
  get_output_tensor : RuntimeModule -> list Event -> nat -> Tensor;
  (* InterpreterState(Code(subgraph)).run(stack) *)
  interpreter : Graph -> Stack -> result Stack;
  (* the address of the buffer a converted copy of a tensor is put in *)
  alloc : Tensor -> Z
}.

(** The constructor (lines 215-237); [subgraph] is [node->g(attr::Subgraph)]. *)
Definition TVMCompiler_new (E : External) (subgraph : Graph) (opt_level : Z)
  (strict : bool) (device_type device host : string) : result TVMCompiler :=
  let ctx :=
    mkContext (if decide (device_type = "gpu") then kDLGPU else kDLCPU) 0 in
  if registry E "relay.build_module._BuildModule"
  then Ok (mkTVMCompiler opt_level strict device_type device host ctx subgraph ∅)
  else Throw (RegistryMissing "relay.build_module._BuildModule").

(** [kAlignment] (line 12). *)
Definition kAlignment : Z := 64.

(** [tensor.to(at::kFloat)]: the tensor itself when it already holds
    floats, otherwise a converted copy in a new buffer. *)
Definition to_kFloat (E : External) (t : Tensor) : Tensor :=
  if decide (scalar_type t = Float) then t
  else mkTensor Float (sizes t) (alloc E t).

(** What [run] reads and writes: the object, the caller's stack, the
    types the graph's values carry, the next free node address and the
    calls made so far. *)
Record State : Type := mkState {
  self : TVMCompiler;
  stack : Stack;
  value_types : gmap Value CompleteTensorType;
  var_addr : nat;
  trace : list Event
}.

Definition set_self (f : TVMCompiler -> TVMCompiler) (st : State) : State :=
  mkState (f (self st)) (stack st) (value_types st) (var_addr st) (trace st).
Definition set_stack (f : Stack -> Stack) (st : State) : State :=
  mkState (self st) (f (stack st)) (value_types st) (var_addr st) (trace st).
Definition set_value_types
  (f : gmap Value CompleteTensorType -> gmap Value CompleteTensorType) (st : State) : State :=
  mkState (self st) (stack st) (f (value_types st)) (var_addr st) (trace st).
Definition set_var_addr (n : nat) (st : State) : State :=
  mkState (self st) (stack st) (value_types st) n (trace st).
Definition emit (ev : Event) (st : State) : State :=
  mkState (self st) (stack st) (value_types st) (var_addr st) (trace st ++ [ev]).

(** [cache_[spec]]: [operator[]] inserts a default entry when there is none. *)
Definition cache_at (spec : Signature) : M State TVMObject.t :=
  fun st =>
    match cache_ (self st) !! spec with
    | Some o => (Ok o, st)
    | None => (Ok TVMObject.default,
               set_self (with_cache (insert spec TVMObject.default)) st)
    end.

(** [cache_[spec].field = ...]. *)
Definition cache_update (spec : Signature) (f : TVMObject.t -> TVMObject.t) : M State unit :=
  let* o := cache_at spec in
  modify (set_self (with_cache (insert spec (f o)))).

(** Calling a [PackedFunc]: an empty one throws [std::bad_function_call];
    a stored one is entered, which is the call [ev rm] of the runtime [rm]
    it is bound to, and then returns or throws as the runtime decides. *)
Definition call (E : External) (f : option RuntimeModule) (ev : RuntimeModule -> Event)
  : M State RuntimeModule :=
  match f with
  | Some rm =>
      let* st := get in
      modify (emit (ev rm)) ;;
      lift (packed_func E (trace st) (ev rm)) ;;
      ret rm
  | None => throw BadFunctionCall
  end.

(** [last(stack, n)]: [ArrayRef::slice] checks its bounds. *)
Definition last (stack : Stack) (n : nat) : result (list IValue) :=
  if (n <=? length stack)%nat then Ok (drop (length stack - n) stack)
  else Throw InvalidSlice.

Section Run.
Variable E : External.

(** Lines 244-247. *)
Fixpoint bind_graph_inputs (values : list Value) (inputs : list IValue)
  (value_to_ivalue : gmap Value IValue) : gmap Value IValue :=
  match values, inputs with
  | value_input :: values', iv :: inputs' =>
      bind_graph_inputs values' inputs' (<[value_input := iv]> value_to_ivalue)
  | _, _ => value_to_ivalue
  end.

(** Lines 252-254. *)
Fixpoint infer_types (kvs : list (Value * IValue)) : M State unit :=
  match kvs with
  | [] => ret tt
  | (value, iv) :: rest =>
      let* t := lift (toTensor iv) in
      modify (set_value_types (inferTypeFrom value t)) ;;
      infer_types rest
  end.

(** Lines 272-292. *)
Definition build_and_store (spec : Signature) (tvm_func : Function) : M State unit :=
  let* st := get in
  let c := self st in
  modify (emit (EvBuild tvm_func)) ;;
  let* lib := lift (build E tvm_func (device_type (ctx_ c)) (device_ c) (host_ c)) in
  (if registry E "tvm.graph_runtime.create" then ret tt
   else throw (RegistryMissing "tvm.graph_runtime.create")) ;;
  let* run_mod := lift (graph_runtime_create E lib (ctx_ c)) in
  cache_update spec (TVMObject.with_set_input (Some run_mod)) ;;
  cache_update spec (TVMObject.with_set_input_zero_copy (Some run_mod)) ;;
  cache_update spec (TVMObject.with_kernel (Some run_mod)) ;;
  cache_update spec (TVMObject.with_get_output (Some run_mod)) ;;
  let n := rm_num_outputs run_mod in
  if decide (Z.of_nat (length (g_outputs (subgraph_ c))) = n) then ret tt
  else throw (MismatchingNumOutputs (Z.of_nat (length (g_outputs (subgraph_ c)))) n).

(** The call of line 260, on the vector of the entry [entry]. *)
Definition translate (fuel : nat) (entry : TVMObject.t) (st : State)
  : option (result Function * TState) :=
  convertToRelay_Graph (getOperator E) (getNoneSentinel E)
    (subgraph_ (self st)) (ctx_ (self st)) fuel
    (Some (TVMObject.input_values entry)) (value_types st) (var_addr st).

(** How the cache-miss branch (lines 251-293) ends. *)
Inductive Miss : Set :=
  | Compiled      (* fell through to line 295 *)
  | FellBack.     (* [return] at line 270 *)

(** Lines 251-293.  [None]: the translation did not finish within [fuel]. *)
Definition compile (fuel : nat) (spec : Signature)
  (value_to_ivalue : gmap Value IValue) (st : State) : option (result Miss * State) :=
  match infer_types (map_to_list value_to_ivalue) st with
  | (Throw e, st1) => Some (Throw e, st1)
  | (Ok _, st1) =>
      (* the argument [&cache_[spec].input_values] is evaluated first *)
      match cache_at spec st1 with
      | (Throw e, st2) => Some (Throw e, st2)
      | (Ok entry, st2) =>
          let st3 := emit (EvConvertToRelay spec) st2 in
          let c := self st3 in
          match translate fuel entry st3 with
          | None => None
          | Some (r, ts) =>
              (* the writes of the pass, whether or not it threw *)
              let written := default [] (input_values ts) in
              let st4 :=
                set_self (with_cache (insert spec (TVMObject.with_input_values written entry)))
                  (set_var_addr (next_var ts)
                     (set_value_types (fun _ => types ts) st3)) in
              match r with
              | Throw e =>
                  if strict_ c then Some (Throw (FailToConvertToRelay e), st4)
                  else
                    let st5 := emit EvInterpreter st4 in
                    match interpreter E (subgraph_ c) (stack st5) with
                    | Ok stack' => Some (Ok FellBack, set_stack (fun _ => stack') st5)
                    | Throw e' => Some (Throw e', st5)
                    end
              | Ok tvm_func =>
                  match build_and_store spec tvm_func st4 with
                  | (Ok _, st5) => Some (Ok Compiled, st5)
                  | (Throw e, st5) => Some (Throw e, st5)
                  end
              end
          end
      end
  end.

(** One round of the loop of lines 295-311. *)
Definition bind_input (spec : Signature) (i : nat) (value : Value)
  (value_to_ivalue : gmap Value IValue) : M State (gmap Value IValue) :=
  let* st := get in
  let* value_to_ivalue :=
    match value_to_ivalue !! value with
    | Some _ => ret value_to_ivalue
    | None =>
        match toIValue (subgraph_ (self st)) value with
        | Some iv => ret (<[value := iv]> value_to_ivalue)
        | None => throw (ConstantHasNoValue value)
        end
    end in
  let* ivalue :=
    match value_to_ivalue !! value with
    | Some iv => ret iv
    | None => throw (ConstantHasNoValue value)
    end in
  (* TODO: support more data types *)
  let* t := lift (toTensor ivalue) in
  let tensor := to_kFloat E t in
  let* entry := cache_at spec in
  (if decide (data_ptr tensor mod kAlignment = 0) then
     call E (TVMObject.set_input_zero_copy entry) (fun rm => EvSetInputZeroCopy rm i tensor)
   else
     call E (TVMObject.set_input entry) (fun rm => EvSetInput rm i tensor)) ;;
  ret value_to_ivalue.

Fixpoint bind_inputs (spec : Signature) (i : nat) (values : list Value)
  (value_to_ivalue : gmap Value IValue) : M State unit :=
  match values with
  | [] => ret tt
  | value :: rest =>
      let* value_to_ivalue := bind_input spec i value value_to_ivalue in
      bind_inputs spec (S i) rest value_to_ivalue
  end.

(** Lines 318-325. *)
Fixpoint push_outputs (spec : Signature) (i : nat) (outputs : list Value) : M State unit :=
  match outputs with
  | [] => ret tt
  | _ :: rest =>
      let* entry := cache_at spec in
      let* st := get in
      let* rm := call E (TVMObject.get_output entry) (fun rm => EvGetOutput rm i) in
      let tensor := get_output_tensor E rm (trace st) i in
      modify (set_stack (fun s => s ++ [ITensor tensor])) ;;
      push_outputs spec (S i) rest
  end.

(** Lines 295-325. *)
Definition execute (spec : Signature) (value_to_ivalue : gmap Value IValue) : M State unit :=
  let* st := get in
  let num_inputs := length (g_inputs (subgraph_ (self st))) in
  let* entry := cache_at spec in
  bind_inputs spec 0 (TVMObject.input_values entry) value_to_ivalue ;;
  let* entry := cache_at spec in
  call E (TVMObject.kernel entry) EvKernel ;;
  (* clean the stack and add outputs to the stack *)
  modify (set_stack (fun s => take (length s - num_inputs) s)) ;;
  push_outputs spec 0 (g_outputs (subgraph_ (self st))).

(** [TVMCompiler::run] (lines 239-326). *)
Definition run (fuel : nat) (st : State) : option (result unit * State) :=
  let c := self st in
  let num_inputs := length (g_inputs (subgraph_ c)) in
  match last (stack st) num_inputs with
  | Throw e => Some (Throw e, st)
  | Ok inputs =>
      let value_to_ivalue := bind_graph_inputs (g_inputs (subgraph_ c)) inputs ∅ in
      let spec := CompleteArgumentSpec inputs in
      match cache_ c !! spec with
      | Some _ => Some (execute spec value_to_ivalue st)
      | None =>
          match compile fuel spec value_to_ivalue st with
          | None => None
          | Some (Throw e, st') => Some (Throw e, st')
          | Some (Ok FellBack, st') => Some (Ok tt, st')
          | Some (Ok Compiled, st') => Some (execute spec value_to_ivalue st')
          end
      end
  end.
End Run.

(** ** Concrete instances *)

Module Demo.
Definition cpu : DLContext := mkContext kDLCPU 0.

(** An operator table with three element-wise operators. *)
Definition getOperator (n : Node) (args : list Expr) : result Expr :=
  if decide (kind n = "aten::relu") then Ok (ECall "nn.relu" args)
  else if decide (kind n = "aten::add") then Ok (ECall "add" args)
  else if decide (kind n = "aten::mul") then Ok (ECall "multiply" args)
  else Throw (OperatorError (kind n)).

(** A runtime that reports as many outputs as the compiled tuple has
    fields. *)
Definition num_fields (f : Function) : Z :=
  match body f with
  | ETuple fs => Z.of_nat (length fs)
  | _ => 1
  end.

Definition ext_with (op : Node -> list Expr -> result Expr) : External :=
  mkExternal
    op
    0xe4fa3adecabcf036
    (fun _ => true)
    (fun f _ _ _ => Ok (mkCompiledLib "{}" f))
    (fun lib _ => Ok (mkRuntimeModule 7 (num_fields (lib_func lib))))
    (fun _ _ => Ok tt)
    (fun _ _ _ => mkTensor Float [2; 2] 8192)
    (fun g stack =>
       Ok (take (length stack - length (g_inputs g)) stack
             ++ map (fun _ => ITensor (mkTensor Float [2; 2] 12288)) (g_outputs g)))
    (fun t => data_ptr t + 20).

Definition ext : External := ext_with getOperator.

(** x(1) -> node -> y(2) -> prim::Return, with the kind of the node left
    open. *)
Definition the_node (k : string) : Node := mkNode 100 k [1%nat] [2%nat].
Definition return_node : Node := mkNode 101 "prim::Return" [2%nat] [].

Definition unary_graph (k : string) : Graph :=
  mkGraph [1%nat] [2%nat]
    (fun v => if decide (v = 1%nat) then [the_node k]
              else if decide (v = 2%nat) then [return_node] else [])
    (fun _ => None)
    (fun v => if decide (v = 1%nat) then "x" else "y").

Definition relu_graph : Graph := unary_graph "aten::relu".
Definition unknown_graph : Graph := unary_graph "aten::frobnicate".

Definition compiler (strict : bool) (g : Graph) : TVMCompiler :=
  mkTVMCompiler 2 strict "cpu" "llvm" "llvm" cpu g ∅.

Definition initial (strict : bool) (g : Graph) (stack : Stack) : State :=
  mkState (compiler strict g) stack ∅ 0 [].

Definition t22 : Tensor := mkTensor Float [2; 2] 4096.
Definition t23 : Tensor := mkTensor Float [2; 3] 4160.
Definition i22 : Tensor := mkTensor Int [2; 2] 4100.

(** An operator table with one operator that makes a variable of its
    own (a weight it expects to be bound later). *)
Definition weight : Var := mkVar 1000 "weight" (mkTensorType [2; 2] (tvm.Float 32)).
Definition getOperator_weight (n : Node) (args : list Expr) : result Expr :=
  if decide (kind n = "aten::weight") then Ok (EVar weight)
  else getOperator n args.
Definition weight_graph : Graph := unary_graph "aten::weight".
Definition weight_types : gmap Value CompleteTensorType :=
  {[ 1%nat := mkCompleteTensorType Float [2; 2] ]}.

(** The doubles and floats of the numeric examples. *)
Definition d_1e308 : spec_float := S754_finite false 0x11ccf385ebc8a0 971.
Definition d_1_5 : spec_float := S754_finite false 0x18000000000000 (-52).
Definition f_1_5 : spec_float := S754_finite false 0xc00000 (-23).
End Demo.

Module DemoRuns.
Import Demo.
(** The state an invocation ends in ([st] itself if it does not end). *)
Definition after (fuel : nat) (st : State) : State :=
  match run ext fuel st with
  | Some (_, st') => st'
  | None => st
  end.
Definition on_stack (stack : Stack) (st : State) : State := set_stack (fun _ => stack) st.

Definition relu_start : State := initial false relu_graph [IInt 3; ITensor t22].
Definition relu_once : State := after 5 relu_start.
Definition relu_twice : State := after 5 (on_stack [ITensor t22] relu_once).
Definition relu_thrice : State := after 5 (on_stack [ITensor t23] relu_twice).
Definition int_start : State := initial false relu_graph [ITensor i22].
Definition int_once : State := after 5 int_start.
Definition unknown_start (strict : bool) : State :=
  initial strict unknown_graph [IInt 3; ITensor t22].
Definition unknown_once : State := after 5 (unknown_start false).
Definition sig22 : Signature := [Some (Float, [2; 2])].
End DemoRuns.

Module DemoWeight.
Import Demo.
Definition x1 : Var := mkVar 0 "x1" (mkTensorType [2; 2] (tvm.Float 32)).
Definition weight_function : Function := mkFunction [x1] (ETuple [EVar weight]).
Definition weight_seeded : TState :=
  snd (seed_inputs weight_graph cpu (g_inputs weight_graph) (start_state None weight_types 0)).
Definition weight_walked : TState :=
  match propagate getOperator_weight 0 weight_graph cpu 5 (g_inputs weight_graph)
          weight_seeded with
  | Some (_, s) => s
  | None => weight_seeded
  end.
End DemoWeight.

(** * Vocabulary of the properties *)

(** The mapping as the specification words it: the seven element types
    and the three quantized kinds, each with its target type. *)
Definition spec_scalar_type_to_target (t : ScalarType) : option DataType :=
  match t with
  | Float => Some (tvm.Float 32)
  | Double => Some (tvm.Float 64)
  | Int => Some (tvm.Int 32)
  | Long => Some (tvm.Int 64)
  | Bool => Some tvm.Bool
  | Char => Some (tvm.Int 8)
  | Byte => Some (tvm.UInt 8)
  | QInt8 => Some (tvm.Int 8)
  | QUInt8 => Some (tvm.UInt 8)
  | QInt32 => Some (tvm.Int 32)
  | _ => None
  end.

(** The int32 scalar constant holding [l]. *)
Definition int32_scalar (ctx : DLContext) (l : Z) : Expr :=
  EConstant (mkNDArray [] (tvm.Int 32) ctx (ElInt32 l)).

(** The errors of the range checks. *)
Definition is_range_error (e : exn) : Prop :=
  match e with
  | DoubleAboveFloatMax | DoubleBelowFloatLowest
  | IntAboveInt32Max _ | IntBelowInt32Lowest _ => True
  | _ => False
  end.

Definition float32_scalar (ctx : DLContext) (f : spec_float) : Expr :=
  EConstant (mkNDArray [] (tvm.Float 32) ctx (ElFloat32 f)).

(** [quiet spec P st st']: from [st] to [st'] only calls satisfying [P]
    were made, and the object was left alone if [spec] had an entry. *)
Definition quiet (spec : Signature) (P : Event -> Prop) (st st' : State) : Prop :=
  (exists new, trace st' = trace st ++ new /\ Forall P new) /\
  (is_Some (cache_ (self st) !! spec) -> self st' = self st).

Definition keeps (spec : Signature) (P : Event -> Prop) {A} (m : M State A) : Prop :=
  forall st r st', m st = (r, st') -> quiet spec P st st'.

(** The events of lines 295-325. *)
Definition execute_event (ev : Event) : Prop :=
  match ev with
  | EvSetInputZeroCopy _ _ t => data_ptr t mod kAlignment = 0 /\ scalar_type t = Float
  | EvSetInput _ _ t => data_ptr t mod kAlignment <> 0 /\ scalar_type t = Float
  | EvKernel _ | EvGetOutput _ _ => True
  | _ => False
  end.

(** The events of a whole invocation. *)
Definition run_event (ev : Event) : Prop :=
  match ev with
  | EvConvertToRelay _ | EvBuild _ | EvInterpreter => True
  | _ => execute_event ev
  end.



Section Invocation.
Variable E : External.

(** The translation an invocation in state [st] makes on a cache miss:
    the inputs are the top of the stack, the types of the graph inputs
    are inferred from them, and line 260 returns or throws [r]. *)
Definition translation (fuel : nat) (st : State) (inputs : list IValue)
  (r : result Function) : Prop :=
  last (stack st) (length (g_inputs (subgraph_ (self st)))) = Ok inputs /\
  exists st1 ts,
    infer_types (map_to_list (bind_graph_inputs (g_inputs (subgraph_ (self st))) inputs ∅)) st
      = (Ok tt, st1) /\
    convertToRelay_Graph (getOperator E) (getNoneSentinel E)
      (subgraph_ (self st)) (ctx_ (self st)) fuel (Some [])
      (value_types st1) (var_addr st) = Some (r, ts).

(** The same, as a function of the state. *)
Definition translation_result (fuel : nat) (st : State)
  : option (list IValue * result Function) :=
  match last (stack st) (length (g_inputs (subgraph_ (self st)))) with
  | Throw _ => None
  | Ok inputs =>
      match infer_types
              (map_to_list (bind_graph_inputs (g_inputs (subgraph_ (self st))) inputs ∅)) st with
      | (Throw _, _) => None
      | (Ok _, st1) =>
          match convertToRelay_Graph (getOperator E) (getNoneSentinel E)
                  (subgraph_ (self st)) (ctx_ (self st)) fuel (Some [])
                  (value_types st1) (var_addr st) with
          | None => None
          | Some (r, _) => Some (inputs, r)
          end
      end
  end.
End Invocation.


(** [wrote_only spec st st']: between [st] and [st'] the stack is kept,
    [spec] has an entry at the end and no other entry was touched. *)
Definition wrote_only (spec : Signature) (st st' : State) : Prop :=
  stack st' = stack st /\
  is_Some (cache_ (self st') !! spec) /\
  (forall spec', spec' <> spec -> cache_ (self st') !! spec' = cache_ (self st) !! spec').

(** Computations that make no external call and write at most the entry
    of [spec]. *)
Definition writes (spec : Signature) {A} (m : M State A) : Prop :=
  forall st r st', is_Some (cache_ (self st) !! spec) -> m st = (r, st') ->
    trace st' = trace st /\ wrote_only spec st st'.

(** ** Vocabulary of the further properties *)

(** The addresses of all variables an expression mentions. *)
Fixpoint var_ids (e : Expr) : list nat :=
  match e with
  | EVar v => [var_id v]
  | EConstant _ => []
  | ETuple fields =>
      (fix go (es : list Expr) : list nat :=
         match es with
         | [] => []
         | e' :: es' => var_ids e' ++ go es'
         end) fields
  | ETupleGetItem t _ => var_ids t
  | ECall _ args =>
      (fix go (es : list Expr) : list nat :=
         match es with
         | [] => []
         | e' :: es' => var_ids e' ++ go es'
         end) args
  end.

(** The fold of [FreeVars] over a list of expressions, by name. *)
Fixpoint free_vars_list (es : list Expr) (acc : list Var) : list Var :=
  match es with
  | [] => acc
  | e :: es' => free_vars_list es' (free_vars_acc e acc)
  end.

(** An operator table is closed when the expression it returns mentions
    no variable beyond those of its arguments. *)
Definition closed_operators (getOperator : Node -> list Expr -> result Expr) : Prop :=
  forall n args e, getOperator n args = Ok e ->
    forall x, In x (var_ids e) -> exists a, In a args /\ In x (var_ids a).

(** The addresses of the input variables collected so far. *)
Definition ids (s : TState) : list nat := map var_id (input_vars s).

Definition covered (s : TState) (e : Expr) : Prop :=
  forall x, In x (var_ids e) -> In x (ids s).

(** [named_after g var val]: [var] carries the name line 49 makes for [val]. *)
Definition named_after (g : Graph) (var : Var) (val : Value) : Prop :=
  name_hint var = debugName g val +:+ pretty val.

(** Where a runtime input comes from: it is a declared input of the
    graph or a constant tensor of the graph. *)
Definition origin (g : Graph) (val : Value) : Prop :=
  In val (g_inputs g) \/ exists t, toIValue g val = Some (ITensor t).

(** What a translation pass keeps true between its steps. *)
Definition walk_inv (getOperator : Node -> list Expr -> result Expr) (g : Graph)
  (s : TState) : Prop :=
  (closed_operators getOperator ->
     forall v e, value_map s !! v = Some e -> covered s e) /\
  (forall x, In x (ids s) -> (x < next_var s)%nat) /\
  NoDup (ids s) /\
  (forall l, input_values s = Some l -> Forall2 (named_after g) (input_vars s) l) /\
  (forall l, input_values s = Some l -> Forall (origin g) l).

(** [s'] has the input variables of [s] and possibly more, and still has
    the out-parameter if [s] had it. *)
Definition extends (s s' : TState) : Prop :=
  (exists more, input_vars s' = input_vars s ++ more) /\
  (is_Some (input_values s) -> is_Some (input_values s')).

(** A rank on the values of a graph: every output of a user ranks above
    the value it uses, and no rank exceeds [bound].  An acyclic graph has
    one (the length of the longest path from an input). *)
Definition ranked (g : Graph) (rank : Value -> nat) (bound : nat) : Prop :=
  (forall v user o, In user (uses g v) -> In o (n_outputs user) -> (rank v < rank o)%nat) /\
  (forall v, (rank v <= bound)%nat).

(** Computations that leave the stack, the types of the graph's values
    and the address counter alone. *)
Definition stable {A} (m : M State A) : Prop :=
  forall st r st', m st = (r, st') ->
    stack st' = stack st /\ value_types st' = value_types st /\ var_addr st' = var_addr st.

(** The five kinds of constant the translator takes. *)
Definition is_translatable_constant (v : IValue) : Prop :=
  match v with
  | IDouble _ | IInt _ | IBool _ | INone | IIntList _ => True
  | _ => False
  end.

(** A well-formed binary32 number that is finite or zero. *)
Definition is_finite_float (f : spec_float) : Prop :=
  valid_binary fp.float_prec fp.float_emax f = true /\
  match f with
  | S754_zero _ | S754_finite _ _ _ => True
  | _ => False
  end.

(** How lines 272-283 fail with [e]: in the build module, at the registry
    lookup of line 280, or in the creation of the runtime. *)
Definition build_failure (E : External) (c : TVMCompiler) (f : Function) (e : exn) : Prop :=
  match build E f (device_type (ctx_ c)) (device_ c) (host_ c) with
  | Throw e' => e = e'
  | Ok lib =>
      if registry E "tvm.graph_runtime.create"
      then graph_runtime_create E lib (ctx_ c) = Throw e
      else e = RegistryMissing "tvm.graph_runtime.create"
  end.


(** What a translation pass started by an invocation can throw: the
    errors of the type mapper, of the constant translator, of lines 196
    and 203, and whatever the operator table throws. *)
Definition translation_error (getOperator : Node -> list Expr -> result Expr) (e : exn)
  : Prop :=
  match e with
  | CouldNotHandleType _
  | DoubleAboveFloatMax | DoubleBelowFloatLowest
  | IntAboveInt32Max _ | IntBelowInt32Lowest _
  | CannotConvertValue
  | OutputNotInValueMap _
  | FreeVarsExceedInputs _ _ => True
  | _ => exists n args, getOperator n args = Throw e
  end.

Module DemoMore.
Import Demo.
Definition x1 : Var := mkVar 0 "x1" (mkTensorType [2; 2] (tvm.Float 32)).
Definition relu_function : Function :=
  mkFunction [x1] (ETuple [ECall "nn.relu" [EVar x1]]).
Definition relu_translated : TState :=
  match convertToRelay_Graph getOperator 0 relu_graph cpu 5 (Some []) weight_types 0 with
  | Some (_, s) => s
  | None => start_state (Some []) weight_types 0
  end.
(** The length of the longest path to a value of [relu_graph]. *)
Definition rank2 (v : Value) : nat := Nat.min v 2.
(** x(1) -> node -> (2, 3): a node with two outputs. *)
Definition split_node : Node := mkNode 102 "aten::add" [1%nat] [2%nat; 3%nat].
Definition split_graph : Graph :=
  mkGraph [1%nat] [2%nat; 3%nat]
    (fun v => if decide (v = 1%nat) then [split_node] else [])
    (fun _ => None) (fun _ => "x").
Definition split_seeded : TState :=
  snd (seed_inputs split_graph cpu (g_inputs split_graph) (start_state None weight_types 0)).
(** x(1), and a value 9 nobody produces, -> node -> y(2). *)
Definition dangling_node : Node := mkNode 103 "aten::add" [1%nat; 9%nat] [2%nat].
Definition dangling_graph : Graph :=
  mkGraph [1%nat] [2%nat]
    (fun v => if decide (v = 1%nat) then [dangling_node] else [])
    (fun _ => None) (fun _ => "x").
Definition dangling_seeded : TState :=
  snd (seed_inputs dangling_graph cpu (g_inputs dangling_graph)
         (start_state None weight_types 0)).
(** A runtime that reports one output too many. *)
Definition ext_miscount : External :=
  mkExternal getOperator 0xe4fa3adecabcf036 (fun _ => true)
    (fun f _ _ _ => Ok (mkCompiledLib "{}" f))
    (fun lib _ => Ok (mkRuntimeModule 7 (num_fields (lib_func lib) + 1)))
    (fun _ _ => Ok tt)
    (fun _ _ _ => mkTensor Float [2; 2] 8192)
    (fun g stack => Ok stack)
    (fun t => data_ptr t + 20).
Definition miscount_start : State :=
  mkState (compiler false relu_graph) [ITensor t22] ∅ 0 [].
Definition rm7 (n : Z) : RuntimeModule := mkRuntimeModule 7 n.
Definition entry7 : TVMObject.t :=
  TVMObject.mk (Some (rm7 1)) (Some (rm7 1)) (Some (rm7 1)) (Some (rm7 1)) [1%nat].
(** A tensor type with a dimension beyond the int32 range. *)
Definition huge_types : gmap Value CompleteTensorType :=
  {[ 1%nat := mkCompleteTensorType Float [2; 2 ^ 32 + 5] ]}.
(** The double just below the largest float: it rounds up to it. *)
Definition d_near_max : spec_float := S754_finite false 9007198717870079 75.
(** A build module that rejects every function. *)
Definition ext_nobuild : External :=
  mkExternal getOperator 0xe4fa3adecabcf036 (fun _ => true)
    (fun _ _ _ _ => Throw (BuildError "no such target"))
    (fun lib _ => Ok (mkRuntimeModule 7 (num_fields (lib_func lib))))
    (fun _ _ => Ok tt)
    (fun _ _ _ => mkTensor Float [2; 2] 8192)
    (fun g stack => Ok stack)
    (fun t => data_ptr t + 20).
Definition nobuild_start (strict : bool) : State :=
  mkState (compiler strict relu_graph) [ITensor t22] ∅ 0 [].
End DemoMore.

(** * Properties *)

(** ** The type mapper *)

(** C6: [scalarTypeToTVMType] returns the target type on float32, float64,
    int32, int64, bool, int8, uint8 and on the quantized kinds (qint8 as
    int8, quint8 as uint8, qint32 as int32), and on every other element
    type throws the error that names the offending type. *)
Theorem scalarTypeToTVMType_total (t : ScalarType) :
  scalarTypeToTVMType t =
    match spec_scalar_type_to_target t with
    | Some d => Ok d
    | None => Throw (CouldNotHandleType t)
    end.
Proof. destruct t; vm_compute; reflexivity. Qed.

(** ** The constructor *)

(** C10: the constructor never fails because of the device-kind string:
    when it returns, the device index is 0, "gpu" selected the GPU and any
    other string the CPU; when it throws, it throws the same for every
    device-kind string. *)
Theorem TVMCompiler_new_device_kind (E : External) (subgraph : Graph) (opt_level : Z)
    (strict : bool) (kind_string device host : string) :
  (forall c, TVMCompiler_new E subgraph opt_level strict kind_string device host = Ok c ->
     device_id (ctx_ c) = 0 /\
     (kind_string = "gpu" -> device_type (ctx_ c) = kDLGPU) /\
     (kind_string <> "gpu" -> device_type (ctx_ c) = kDLCPU)) /\
  (forall e, TVMCompiler_new E subgraph opt_level strict kind_string device host = Throw e ->
     forall other, TVMCompiler_new E subgraph opt_level strict other device host = Throw e).
Proof.
  unfold TVMCompiler_new. split.
  - intros c Hc. destruct (registry E _); [|discriminate].
    injection Hc as <-. simpl. repeat split.
    + intros ->. reflexivity.
    + intros Hne. destruct (decide (kind_string = "gpu")); [contradiction|reflexivity].
  - intros e He other. destruct (registry E _); [discriminate|exact He].
Qed.

Lemma TVMCompiler_new_device_kind_witness :
  exists c, TVMCompiler_new Demo.ext Demo.relu_graph 2 false "opencl" "llvm" "llvm" = Ok c /\
            device_id (ctx_ c) = 0 /\ device_type (ctx_ c) = kDLCPU.
Proof.
  eexists. split; [reflexivity|].
  destruct (TVMCompiler_new_device_kind Demo.ext Demo.relu_graph 2 false
              "opencl" "llvm" "llvm") as [H _].
  destruct (H _ eq_refl) as (H0 & _ & Hcpu).
  split; [exact H0|]. apply Hcpu. discriminate.
Defined.

(** ** The constant translator *)

Lemma wrap_int32_id (l : Z) :
  int32_lowest <= l <= int32_max -> wrap_int32 l = l.
Proof.
  unfold int32_lowest, int32_max, wrap_int32. intros H.
  rewrite Z.mod_small; lia.
Qed.

Lemma int32_constant_in_range (l : Z) (ctx : DLContext) :
  int32_lowest <= l <= int32_max -> int32_constant l ctx = Ok (int32_scalar ctx l).
Proof.
  intros H. unfold int32_constant.
  destruct (Z.leb_spec l int32_max); [|lia]. simpl.
  destruct (Z.geb_spec l int32_lowest); [|lia]. simpl.
  rewrite wrap_int32_id by exact H. reflexivity.
Qed.

Lemma int32_constant_out_of_range (l : Z) (ctx : DLContext) :
  ~ (int32_lowest <= l <= int32_max) ->
  exists e, int32_constant l ctx = Throw e /\ is_range_error e.
Proof.
  intros H. unfold int32_constant.
  destruct (Z.leb_spec l int32_max); simpl.
  - destruct (Z.geb_spec l int32_lowest); [lia|]. simpl.
    eexists; split; [reflexivity|exact I].
  - eexists; split; [reflexivity|exact I].
Qed.

Lemma int32_constants_in_range (ls : list Z) (ctx : DLContext) :
  Forall (fun l => int32_lowest <= l <= int32_max) ls ->
  int32_constants ls ctx = Ok (map (int32_scalar ctx) ls).
Proof.
  induction 1 as [|l ls Hl _ IH]; simpl; [reflexivity|].
  rewrite int32_constant_in_range by exact Hl. rewrite IH. reflexivity.
Qed.

Lemma int32_constants_out_of_range (ls : list Z) (ctx : DLContext) :
  Exists (fun l => ~ (int32_lowest <= l <= int32_max)) ls ->
  exists e, int32_constants ls ctx = Throw e /\ is_range_error e.
Proof.
  induction ls as [|l ls IH]; intros H; [inversion H|]. simpl.
  destruct (decide (int32_lowest <= l <= int32_max)) as [Hin|Hout].
  - rewrite int32_constant_in_range by exact Hin.
    inversion H as [? ? Hbad|? ? Hrest]; subst; [contradiction|].
    destruct (IH Hrest) as (e & -> & He). eauto.
  - destruct (int32_constant_out_of_range l ctx Hout) as (e & -> & He). eauto.
Qed.

(** A tensor-free value that is not none never translates to a constant
    of 64-bit unsigned type. *)
Lemma only_none_is_uint64 (sentinel : Z) (ctx : DLContext) (v : IValue) (c : NDArray) :
  v <> INone ->
  convertToRelay_IValue sentinel v ctx = Ok (EConstant c) ->
  nd_dtype c <> tvm.UInt 64.
Proof.
  intros Hv H. destruct v; simpl in H; try discriminate; try contradiction.
  - destruct (negb _); [discriminate|]. destruct (negb _); [discriminate|].
    injection H as <-. discriminate.
  - unfold int32_constant in H.
    destruct (negb _); [discriminate|]. destruct (negb _); [discriminate|].
    injection H as <-. discriminate.
  - injection H as <-. discriminate.
  - destruct (int32_constants _ _); discriminate.
Qed.

(** C8: a none-valued constant becomes the zero-dimensional constant of
    element type uint64 that holds the none sentinel, and no other value
    the translator accepts becomes a constant of that element type. *)
Theorem none_is_the_uint64_sentinel (sentinel : Z) (ctx : DLContext) :
  0 <= sentinel < 2 ^ 64 ->
  convertToRelay_IValue sentinel INone ctx
    = Ok (EConstant (mkNDArray [] (tvm.UInt 64) ctx (ElUInt64 sentinel))) /\
  (forall v e, v <> INone -> convertToRelay_IValue sentinel v ctx = Ok e ->
     (forall c, e = EConstant c -> nd_dtype c <> tvm.UInt 64) /\
     e <> EConstant (mkNDArray [] (tvm.UInt 64) ctx (ElUInt64 sentinel))).
Proof.
  intros Hs. split.
  - simpl. unfold wrap_uint64. rewrite Z.mod_small by exact Hs. reflexivity.
  - intros v e Hv He.
    assert (Hc : forall c, e = EConstant c -> nd_dtype c <> tvm.UInt 64).
    { intros c ->. eapply only_none_is_uint64; eassumption. }
    split; [exact Hc|]. intros ->. eapply Hc; reflexivity.
Qed.

Lemma none_is_the_uint64_sentinel_witness :
  convertToRelay_IValue (getNoneSentinel Demo.ext) INone Demo.cpu
    = Ok (EConstant (mkNDArray [] (tvm.UInt 64) Demo.cpu
                       (ElUInt64 (getNoneSentinel Demo.ext)))) /\
  convertToRelay_IValue (getNoneSentinel Demo.ext) (IInt 0) Demo.cpu
    <> Ok (EConstant (mkNDArray [] (tvm.UInt 64) Demo.cpu
                       (ElUInt64 (getNoneSentinel Demo.ext)))).
Proof.
  assert (Hs : 0 <= getNoneSentinel Demo.ext < 2 ^ 64) by (vm_compute; split; congruence).
  destruct (none_is_the_uint64_sentinel (getNoneSentinel Demo.ext) Demo.cpu Hs) as [H1 H2].
  split; [exact H1|].
  intros H. destruct (H2 (IInt 0) _ ltac:(discriminate) H) as [_ Hne].
  apply Hne. reflexivity.
Defined.

(** ** Doubles against the float range *)

Lemma digits2_pos_bounds (m : positive) :
  2 ^ (Z.pos (digits2_pos m) - 1) <= Z.pos m < 2 ^ Z.pos (digits2_pos m).
Proof.
  induction m as [p IH|p IH|]; cbn [digits2_pos].
  - rewrite Pos2Z.inj_succ, Z.pow_succ_r by lia.
    replace (Z.succ (Z.pos (digits2_pos p)) - 1) with (Z.succ (Z.pos (digits2_pos p) - 1)) by lia.
    rewrite Z.pow_succ_r by lia. lia.
  - rewrite Pos2Z.inj_succ, Z.pow_succ_r by lia.
    replace (Z.succ (Z.pos (digits2_pos p)) - 1) with (Z.succ (Z.pos (digits2_pos p) - 1)) by lia.
    rewrite Z.pow_succ_r by lia. lia.
  - vm_compute. split; congruence.
Qed.

Lemma float_max_as_double :
  fp.float_to_double fp.float_max = S754_finite false 9007198717870080 75.
Proof. vm_compute. reflexivity. Qed.

Lemma float_lowest_as_double :
  fp.float_to_double fp.float_lowest = S754_finite true 9007198717870080 75.
Proof. vm_compute. reflexivity. Qed.

Lemma pow2_le (a b : Z) : 0 <= a <= b -> 2 ^ a <= 2 ^ b.
Proof. intros H. apply Z.pow_le_mono_r; lia. Qed.

Lemma double_mantissa_bounds (m : positive) (e : Z) :
  bounded fp.double_prec fp.double_emax m e = true ->
  Z.pos m < 9007199254740992 /\ (-1074 < e -> 4503599627370496 <= Z.pos m).
Proof.
  unfold bounded, canonical_mantissa, fexp, emin, fp.double_prec, fp.double_emax.
  intros H. apply andb_prop in H as [Hc _]. apply Z.eqb_eq in Hc.
  pose proof (digits2_pos_bounds m) as [Hlo Hhi].
  assert (Hd : Z.pos (digits2_pos m) <= 53) by lia.
  split.
  - change 9007199254740992 with (2 ^ 53).
    eapply Z.lt_le_trans; [exact Hhi|]. apply pow2_le; lia.
  - intros He. assert (Hd' : Z.pos (digits2_pos m) = 53) by lia.
    rewrite Hd' in Hlo. exact Hlo.
Qed.

Lemma pow2_0 (a : Z) : a = 0 -> 2 ^ a = 1.
Proof. intros ->. reflexivity. Qed.

(** Comparing a finite double with [+-M * 2^75], as [SFcompare] does it. *)
Lemma SFleb_window (M m : positive) (s : bool) (e : Z) :
  SFleb (S754_finite s m e) (S754_finite false M 75)
    && SFleb (S754_finite true M 75) (S754_finite s m e) = true
  <-> e < 75 \/ (e = 75 /\ Z.pos m <= Z.pos M).
Proof.
  unfold SFleb. cbv beta iota delta [SFcompare].
  change (Pos.compare_cont Eq m M) with (Pos.compare m M).
  change (Pos.compare_cont Eq M m) with (Pos.compare M m).
  rewrite (Pos.compare_antisym m M).
  destruct (Z.compare_spec e 75) as [->|Hlt|Hgt].
  - rewrite Z.compare_refl.
    destruct (Pos.compare_spec m M) as [->|Hc|Hc];
      destruct s; cbn [andb CompOpp]; split; intros H;
      try reflexivity; try discriminate; lia.
  - assert (Hgt' : (75 ?= e) = Gt) by (apply Z.compare_gt_iff; lia).
    rewrite ?Hgt'. destruct s; cbn [andb CompOpp]; (split; [intros _; lia|reflexivity]).
  - assert (Hlt' : (75 ?= e) = Lt) by (apply Z.compare_lt_iff; lia).
    rewrite ?Hlt'. destruct s; cbn [andb CompOpp]; (split; [discriminate|lia]).
Qed.

(** The same window on the real values: [m * 2^e <= 16777215 * 2^104],
    for a mantissa of at most 53 bits that has all 53 unless the exponent
    is the least one. *)
Lemma magnitude_window (M m : positive) (e : Z) :
  Z.pos M = 9007198717870080 ->
  Z.pos m < 9007199254740992 ->
  (-1074 < e -> 4503599627370496 <= Z.pos m) ->
  (e < 75 \/ (e = 75 /\ Z.pos m <= Z.pos M))
  <-> Z.pos m * 2 ^ (e - Z.min e 104) <= 16777215 * 2 ^ (104 - Z.min e 104).
Proof.
  intros HM Hhi Hlo.
  destruct (Z.lt_trichotomy e 75) as [Hlt|[->|Hgt]].
  - rewrite Z.min_l by lia. rewrite (pow2_0 (e - e)) by lia. rewrite Z.mul_1_r.
    assert (H30 : 2 ^ 30 <= 2 ^ (104 - e)) by (apply pow2_le; lia).
    change (2 ^ 30) with 1073741824 in H30. split; [intros _; nia|intros _; lia].
  - rewrite (pow2_0 (75 - Z.min 75 104)) by reflexivity.
    replace (2 ^ (104 - Z.min 75 104)) with 536870912 by reflexivity.
    lia.
  - specialize (Hlo ltac:(lia)).
    destruct (Z.le_gt_cases e 104).
    + rewrite Z.min_l by lia. rewrite (pow2_0 (e - e)) by lia. rewrite Z.mul_1_r.
      assert (H28 : 2 ^ (104 - e) <= 2 ^ 28) by (apply pow2_le; lia).
      change (2 ^ 28) with 268435456 in H28. split; [lia|nia].
    + rewrite Z.min_r by lia. rewrite (pow2_0 (104 - 104)) by lia. rewrite Z.mul_1_r.
      assert (H0 : 2 ^ 0 <= 2 ^ (e - 104)) by (apply pow2_le; lia).
      change (2 ^ 0) with 1 in H0. split; [lia|nia].
Qed.

Lemma double_range_check (d : spec_float) :
  fp.is_double d ->
  (fp.le d (fp.float_to_double fp.float_max)
     && fp.ge d (fp.float_to_double fp.float_lowest) = true)
  <-> fp.in_float_range d.
Proof.
  intros Hd. rewrite float_max_as_double, float_lowest_as_double.
  unfold fp.le, fp.ge.
  destruct d as [s|s| |s m e].
  - destruct s; split; intros _; first [reflexivity|exact I].
  - destruct s; split; intros H; first [discriminate H|destruct H].
  - split; intros H; first [discriminate H|destruct H].
  - apply double_mantissa_bounds in Hd as [Hhi Hlo].
    rewrite SFleb_window. unfold fp.in_float_range.
    replace (2 ^ 24 - 1) with 16777215 by reflexivity.
    apply magnitude_window; [reflexivity|exact Hhi|exact Hlo].
Qed.

Lemma double_in_range (sentinel : Z) (ctx : DLContext) (d : spec_float) :
  fp.is_double d -> fp.in_float_range d ->
  convertToRelay_IValue sentinel (IDouble d) ctx
    = Ok (float32_scalar ctx (fp.double_to_float d)).
Proof.
  intros Hd Hin. apply (double_range_check d Hd) in Hin.
  apply andb_prop in Hin as [Hle Hge].
  cbn [convertToRelay_IValue]. rewrite Hle, Hge. reflexivity.
Qed.

Lemma double_out_of_range (sentinel : Z) (ctx : DLContext) (d : spec_float) :
  fp.is_double d -> ~ fp.in_float_range d ->
  exists e, convertToRelay_IValue sentinel (IDouble d) ctx = Throw e /\ is_range_error e.
Proof.
  intros Hd Hout. cbn [convertToRelay_IValue].
  destruct (fp.le d _) eqn:Hle; cbn [negb].
  - destruct (fp.ge d _) eqn:Hge; cbn [negb].
    + exfalso. apply Hout. apply (double_range_check d Hd). rewrite Hle, Hge. reflexivity.
    + eexists; split; [reflexivity|exact I].
  - eexists; split; [reflexivity|exact I].
Qed.

(** C4: the constant translator narrows an integer, and every element of
    an integer list, to an int32 scalar constant holding the same number
    (a list becomes the tuple of these constants) and a double to the
    float32 constant holding the double rounded to float; it throws one of
    the range errors exactly when the integer, some list element, or the
    double lies outside the range of the target type.  The double nearest
    to 1e308 and the integer 2^40 are rejected; the double 1.5 becomes the
    float 1.5 and the integer 42 the int32 42. *)
Theorem constant_narrowing (sentinel : Z) (ctx : DLContext) :
  (forall l,
     (int32_lowest <= l <= int32_max ->
        convertToRelay_IValue sentinel (IInt l) ctx = Ok (int32_scalar ctx l)) /\
     (~ (int32_lowest <= l <= int32_max) ->
        exists e, convertToRelay_IValue sentinel (IInt l) ctx = Throw e /\ is_range_error e)) /\
  (forall ls,
     (Forall (fun l => int32_lowest <= l <= int32_max) ls ->
        convertToRelay_IValue sentinel (IIntList ls) ctx
          = Ok (ETuple (map (int32_scalar ctx) ls))) /\
     (Exists (fun l => ~ (int32_lowest <= l <= int32_max)) ls ->
        exists e, convertToRelay_IValue sentinel (IIntList ls) ctx = Throw e
                  /\ is_range_error e)) /\
  (forall d, fp.is_double d ->
     (fp.in_float_range d ->
        convertToRelay_IValue sentinel (IDouble d) ctx
          = Ok (float32_scalar ctx (fp.double_to_float d))) /\
     (~ fp.in_float_range d ->
        exists e, convertToRelay_IValue sentinel (IDouble d) ctx = Throw e
                  /\ is_range_error e)) /\
  (exists e, convertToRelay_IValue sentinel (IDouble Demo.d_1e308) ctx = Throw e
             /\ is_range_error e) /\
  convertToRelay_IValue sentinel (IDouble Demo.d_1_5) ctx
    = Ok (float32_scalar ctx Demo.f_1_5) /\
  (exists e, convertToRelay_IValue sentinel (IInt (2 ^ 40)) ctx = Throw e
             /\ is_range_error e) /\
  convertToRelay_IValue sentinel (IInt 42) ctx = Ok (int32_scalar ctx 42).
Proof.
  repeat apply conj.
  - intros l. split.
    + apply int32_constant_in_range.
    + apply int32_constant_out_of_range.
  - intros ls. split.
    + intros H. cbn [convertToRelay_IValue].
      rewrite int32_constants_in_range by exact H. reflexivity.
    + intros H. cbn [convertToRelay_IValue].
      destruct (int32_constants_out_of_range ls ctx H) as (e & -> & He). eauto.
  - intros d Hd. split.
    + apply double_in_range; exact Hd.
    + apply double_out_of_range; exact Hd.
  - exists DoubleAboveFloatMax. split; [|exact I].
    cbn [convertToRelay_IValue].
    replace (fp.le Demo.d_1e308 (fp.float_to_double fp.float_max)) with false
      by (vm_compute; reflexivity).
    reflexivity.
  - cbn [convertToRelay_IValue].
    replace (fp.le Demo.d_1_5 (fp.float_to_double fp.float_max)) with true
      by (vm_compute; reflexivity).
    replace (fp.ge Demo.d_1_5 (fp.float_to_double fp.float_lowest)) with true
      by (vm_compute; reflexivity).
    replace (fp.double_to_float Demo.d_1_5) with Demo.f_1_5 by (vm_compute; reflexivity).
    reflexivity.
  - apply int32_constant_out_of_range. vm_compute. intros [_ H]. apply H. reflexivity.
  - apply int32_constant_in_range. vm_compute. split; discriminate.
Qed.

Lemma constant_narrowing_witness :
  convertToRelay_IValue 0 (IDouble Demo.d_1_5) Demo.cpu
    = Ok (float32_scalar Demo.cpu (fp.double_to_float Demo.d_1_5)) /\
  convertToRelay_IValue 0 (IIntList [1; -2; 3]) Demo.cpu
    = Ok (ETuple (map (int32_scalar Demo.cpu) [1; -2; 3])) /\
  convertToRelay_IValue 0 (IInt (-7)) Demo.cpu = Ok (int32_scalar Demo.cpu (-7)).
Proof.
  destruct (constant_narrowing 0 Demo.cpu) as (Hint & Hlist & Hdouble & _).
  repeat apply conj.
  - apply (Hdouble Demo.d_1_5).
    + vm_compute. reflexivity.
    + vm_compute. discriminate.
  - apply (Hlist [1; -2; 3]).
    repeat constructor; vm_compute; discriminate.
  - apply (Hint (-7)). vm_compute. split; discriminate.
Defined.

(** ** Calls and cache writes of an invocation *)

Section Quiet.
Variable spec : Signature.
Variable P : Event -> Prop.

Lemma quiet_refl st : quiet spec P st st.
Proof.
  split; [|reflexivity]. exists []. rewrite app_nil_r. split; [reflexivity|constructor].
Qed.

Lemma quiet_trans st1 st2 st3 : quiet spec P st1 st2 -> quiet spec P st2 st3 -> quiet spec P st1 st3.
Proof.
  intros [(n1 & Ht1 & Hn1) Hs1] [(n2 & Ht2 & Hn2) Hs2]. split.
  - exists (n1 ++ n2). rewrite Ht2, Ht1, app_assoc. split; [reflexivity|].
    apply Forall_app; split; assumption.
  - intros Hin. specialize (Hs1 Hin). rewrite <- Hs1. apply Hs2. rewrite Hs1. exact Hin.
Qed.

Lemma keeps_ret {A} (a : A) : keeps spec P (ret a).
Proof. intros st r st' [= <- <-]. apply quiet_refl. Qed.

Lemma keeps_throw {A} (e : exn) : keeps spec P (@throw State A e).
Proof. intros st r st' [= <- <-]. apply quiet_refl. Qed.

Lemma keeps_lift {A} (x : result A) : keeps spec P (lift x).
Proof. intros st r st' [= <- <-]. apply quiet_refl. Qed.

Lemma keeps_get : keeps spec P (@get State).
Proof. intros st r st' [= <- <-]. apply quiet_refl. Qed.

Lemma keeps_bind {A B} (m : M State A) (k : A -> M State B) :
  keeps spec P m -> (forall a, keeps spec P (k a)) -> keeps spec P (bind m k).
Proof.
  intros Hm Hk st r st' H. unfold bind in H.
  destruct (m st) as [[a|e] s1] eqn:Hms.
  - eapply quiet_trans; [eapply Hm; exact Hms|eapply Hk; exact H].
  - injection H as <- <-. eapply Hm; exact Hms.
Qed.

Lemma keeps_emit (ev : Event) : P ev -> keeps spec P (modify (emit ev)).
Proof.
  intros Hev st r st' [= <- <-]. split; [|reflexivity].
  exists [ev]. split; [reflexivity|]. constructor; [exact Hev|constructor].
Qed.

Lemma keeps_set_stack (f : Stack -> Stack) : keeps spec P (modify (set_stack f)).
Proof.
  intros st r st' [= <- <-]. split; [|reflexivity].
  exists []. simpl. rewrite app_nil_r. split; [reflexivity|constructor].
Qed.

Lemma keeps_set_value_types f : keeps spec P (modify (set_value_types f)).
Proof.
  intros st r st' [= <- <-]. split; [|reflexivity].
  exists []. simpl. rewrite app_nil_r. split; [reflexivity|constructor].
Qed.

Lemma keeps_cache_at : keeps spec P (cache_at spec).
Proof.
  intros st r st' H. unfold cache_at in H.
  destruct (cache_ (self st) !! spec) eqn:Hl.
  - injection H as <- <-. apply quiet_refl.
  - injection H as <- <-. split.
    + exists []. simpl. rewrite app_nil_r. split; [reflexivity|constructor].
    + intros [o Ho]. congruence.
Qed.

Lemma keeps_call E (f : option RuntimeModule) (ev : RuntimeModule -> Event) :
  (forall rm, P (ev rm)) -> keeps spec P (call E f ev).
Proof.
  intros HP. destruct f as [rm|]; [|apply keeps_throw]. cbn [call].
  apply keeps_bind; [apply keeps_get|intros st0].
  apply keeps_bind; [apply keeps_emit, HP|intros].
  apply keeps_bind; [apply keeps_lift|intros]. apply keeps_ret.
Qed.
End Quiet.

Create HintDb keeps.
#[local] Hint Resolve keeps_ret keeps_throw keeps_lift keeps_get keeps_set_stack
  keeps_set_value_types keeps_cache_at : keeps.

Ltac keeps_step :=
  match goal with
  | |- keeps _ _ (bind _ _) => apply keeps_bind; [|intros]
  | |- keeps _ _ (match ?x with _ => _ end) => destruct x
  | |- keeps _ _ (if ?x then _ else _) => destruct x
  | |- keeps _ _ _ => solve [auto with keeps]
  end.

Lemma to_kFloat_scalar_type (E : External) (t : Tensor) : scalar_type (to_kFloat E t) = Float.
Proof. unfold to_kFloat. destruct (decide _); [assumption|reflexivity]. Qed.

Lemma bind_input_keeps E spec i value v2i :
  keeps spec execute_event (bind_input E spec i value v2i).
Proof.
  unfold bind_input. repeat keeps_step.
  all: apply keeps_call; intros rm; simpl; split; auto using to_kFloat_scalar_type.
Qed.

Lemma bind_inputs_keeps E spec values : forall i v2i,
  keeps spec execute_event (bind_inputs E spec i values v2i).
Proof.
  induction values as [|v vs IH]; intros i v2i; simpl.
  - apply keeps_ret.
  - apply keeps_bind; [apply bind_input_keeps|intros; apply IH].
Qed.

Lemma push_outputs_keeps E spec outputs : forall i,
  keeps spec execute_event (push_outputs E spec i outputs).
Proof.
  induction outputs as [|v vs IH]; intros i; simpl.
  - apply keeps_ret.
  - repeat keeps_step; try (apply keeps_call; intros; exact I); try apply IH.
Qed.

Lemma execute_keeps E spec v2i : keeps spec execute_event (execute E spec v2i).
Proof.
  unfold execute. repeat keeps_step;
    auto using bind_inputs_keeps, push_outputs_keeps.
  apply keeps_call; intros; exact I.
Qed.

Lemma translation_result_sound E fuel st inputs r :
  translation_result E fuel st = Some (inputs, r) -> translation E fuel st inputs r.
Proof.
  unfold translation_result, translation.
  destruct (last _ _) as [inputs'|]; [|discriminate].
  destruct (infer_types _ st) as [[[]|] st1] eqn:Hinfer; [|discriminate].
  destruct (convertToRelay_Graph _ _ _ _ _ _ _ _) as [[r' ts]|] eqn:Hconv; [|discriminate].
  intros [= <- <-]. split; [reflexivity|]. exists st1, ts. rewrite Hinfer. auto.
Qed.

Lemma infer_types_effect kvs : forall st r st',
  infer_types kvs st = (r, st') ->
  self st' = self st /\ stack st' = stack st /\ trace st' = trace st /\
  var_addr st' = var_addr st.
Proof.
  induction kvs as [|[v iv] kvs IH]; intros st r st' H; simpl in H.
  - injection H as <- <-. auto.
  - unfold bind, lift in H. destruct (toTensor iv) as [t|e].
    + simpl in H. apply IH in H. simpl in H. exact H.
    + injection H as <- <-. auto.
Qed.





Lemma wrote_only_refl spec st :
  is_Some (cache_ (self st) !! spec) -> wrote_only spec st st.
Proof. intros H. repeat split; auto. Qed.

Lemma wrote_only_trans spec st1 st2 st3 :
  wrote_only spec st1 st2 -> wrote_only spec st2 st3 -> wrote_only spec st1 st3.
Proof.
  intros (Hs1 & Hi1 & Ho1) (Hs2 & Hi2 & Ho2). repeat split.
  - congruence.
  - exact Hi2.
  - intros spec' Hne. rewrite Ho2, Ho1 by exact Hne. reflexivity.
Qed.

Lemma writes_pure spec {A} (m : M State A) :
  (forall st, snd (m st) = st) -> writes spec m.
Proof.
  intros Hm st r st' Hin H. specialize (Hm st). rewrite H in Hm. simpl in Hm. subst st'.
  split; [reflexivity|apply wrote_only_refl; exact Hin].
Qed.

Lemma writes_bind spec {A B} (m : M State A) (k : A -> M State B) :
  writes spec m -> (forall a, writes spec (k a)) -> writes spec (bind m k).
Proof.
  intros Hm Hk st r st' Hin H. unfold bind in H.
  destruct (m st) as [[a|e] s1] eqn:Hms.
  - destruct (Hm _ _ _ Hin Hms) as [Ht1 Hw1].
    destruct (Hk a _ _ _ (proj1 (proj2 Hw1)) H) as [Ht2 Hw2].
    split; [congruence|eapply wrote_only_trans; eassumption].
  - injection H as <- <-. eapply Hm; eassumption.
Qed.

Lemma writes_cache_update spec f : writes spec (cache_update spec f).
Proof.
  intros st r st' Hin H. unfold cache_update, bind, cache_at, modify in H.
  destruct (cache_ (self st) !! spec) eqn:Hl; injection H as <- <-; simpl.
  all: split; [reflexivity|]; split; [reflexivity|]; split; simpl.
  all: try (rewrite lookup_insert_eq; eauto; fail).
  all: intros spec' Hne; rewrite !lookup_insert_ne by congruence; reflexivity.
Qed.

(** [build_and_store] makes one build call and writes only the entry of [spec]. *)
Lemma build_and_store_effect E spec f st r st' :
  is_Some (cache_ (self st) !! spec) ->
  build_and_store E spec f st = (r, st') ->
  trace st' = trace st ++ [EvBuild f] /\ wrote_only spec st st'.
Proof.
  intros Hin H. unfold build_and_store in H.
  unfold bind at 1 in H. cbn [get] in H.
  unfold bind at 1 in H. cbn [modify] in H.
  match type of H with
  | ?m (emit _ st) = _ =>
      assert (Hw : writes spec m)
  end.
  { repeat first
      [ apply writes_cache_update
      | apply writes_bind; [|intros]
      | apply writes_pure; intros; reflexivity
      | match goal with
        | |- writes _ (if ?c then _ else _) => destruct c
        end ]. }
  destruct (Hw _ _ _ (Hin : is_Some (cache_ (self (emit (EvBuild f) st)) !! spec)) H)
    as [Ht (Hs & Hi & Ho)].
  split; [exact Ht|]. repeat split; assumption.
Qed.

Lemma execute_event_run_event ev : execute_event ev -> run_event ev.
Proof. destruct ev; simpl; tauto. Qed.

Lemma execute_effect E spec v2i st r st' :
  execute E spec v2i st = (r, st') ->
  (exists new, trace st' = trace st ++ new /\ Forall execute_event new) /\
  (is_Some (cache_ (self st) !! spec) -> self st' = self st).
Proof. intros H. exact (execute_keeps E spec v2i st r st' H). Qed.




Lemma cache_at_effect spec st r st' :
  cache_at spec st = (r, st') ->
  (exists o, r = Ok o) /\ trace st' = trace st /\ stack st' = stack st.
Proof.
  unfold cache_at. destruct (cache_ (self st) !! spec); intros [= <- <-]; eauto.
Qed.

(** Every call an invocation makes is one of [run_event]. *)
Lemma compile_events E fuel spec v2i st r st' :
  compile E fuel spec v2i st = Some (r, st') ->
  exists new, trace st' = trace st ++ new /\ Forall run_event new.
Proof.
  unfold compile.
  destruct (infer_types _ st) as [[[]|e0] st1] eqn:Hinfer;
    destruct (infer_types_effect _ _ _ _ Hinfer) as (_ & _ & Htrace & _).
  2: { intros [= <- <-]. exists []. rewrite app_nil_r, Htrace. auto. }
  destruct (cache_at spec st1) as [[entry|e0] st2] eqn:Hc;
    destruct (cache_at_effect _ _ _ _ Hc) as ((o & Ho) & Htrace2 & _); [|discriminate].
  destruct (translate E fuel entry _) as [[rt ts]|]; [|discriminate].
  destruct rt as [f|e].
  - match goal with
    | |- context [build_and_store E spec f ?s] =>
        destruct (build_and_store E spec f s) as [[[]|eb] st5] eqn:Hb;
        apply build_and_store_effect in Hb as [Hbt _];
        [| simpl; rewrite lookup_insert_eq; eauto
         | | simpl; rewrite lookup_insert_eq; eauto]
    end.
    all: intros [= <- <-]; exists [EvConvertToRelay spec; EvBuild f];
      rewrite Hbt; simpl; rewrite Htrace2, Htrace, <- app_assoc;
      split; [reflexivity|repeat constructor].
  - destruct (strict_ _).
    + intros [= <- <-]. exists [EvConvertToRelay spec]. simpl.
      rewrite Htrace2, Htrace. split; [reflexivity|repeat constructor].
    + destruct (interpreter E _ _); intros [= <- <-];
        exists [EvConvertToRelay spec; EvInterpreter]; simpl;
        rewrite Htrace2, Htrace, <- app_assoc; split; try reflexivity; repeat constructor.
Qed.

Lemma run_events E fuel st r st' :
  run E fuel st = Some (r, st') ->
  exists new, trace st' = trace st ++ new /\ Forall run_event new.
Proof.
  unfold run. destruct (last _ _) as [inputs|e].
  2: { intros [= <- <-]. exists []. rewrite app_nil_r. auto. }
  destruct (cache_ (self st) !! _) eqn:Hl.
  - intros [= H]. apply execute_effect in H as [(new & Hnew & Hall) _].
    exists new. split; [exact Hnew|].
    eapply Forall_impl; [exact Hall|apply execute_event_run_event].
  - destruct (compile E fuel _ _ st) as [[[[]|e] stc]|] eqn:Hc; [| | |discriminate].
    + intros [= H]. apply compile_events in Hc as (n1 & Hn1 & Ha1).
      apply execute_effect in H as [(n2 & Hn2 & Ha2) _].
      exists (n1 ++ n2). rewrite Hn2, Hn1, app_assoc. split; [reflexivity|].
      apply Forall_app. split; [exact Ha1|].
      eapply Forall_impl; [exact Ha2|apply execute_event_run_event].
    + intros [= <- <-]. eapply compile_events; exact Hc.
    + intros [= <- <-]. eapply compile_events; exact Hc.
Qed.

Lemma bind_eq {S A B} (m : M S A) (k : A -> M S B) s a s1 :
  m s = (Ok a, s1) -> bind m k s = k a s1.
Proof. intros H. unfold bind. rewrite H. reflexivity. Qed.


Lemma cache_update_hit spec f st o :
  cache_ (self st) !! spec = Some o ->
  cache_update spec f st = (Ok tt, set_self (with_cache (insert spec (f o))) st).
Proof.
  intros Ho. unfold cache_update, bind, cache_at. rewrite Ho. reflexivity.
Qed.

(** The two ways a call of a [PackedFunc] ends. *)
Lemma call_effect E f ev st r st' :
  call E f ev st = (r, st') ->
  (f = None /\ r = Throw BadFunctionCall /\ st' = st) \/
  (exists rm, f = Some rm /\ st' = emit (ev rm) st /\
     r = match packed_func E (trace st) (ev rm) with
         | Ok _ => Ok rm
         | Throw e => Throw e
         end).
Proof.
  destruct f as [rm|]; cbn [call].
  - unfold bind, get, modify, lift, ret. cbn [trace emit].
    destruct (packed_func E (trace st) (ev rm)) as [[]|e] eqn:Hp; intros [= <- <-];
      right; exists rm; rewrite Hp; repeat split; reflexivity.
  - intros [= <- <-]. left. auto.
Qed.

Lemma call_ok E f ev st rm st' :
  call E f ev st = (Ok rm, st') ->
  f = Some rm /\ st' = emit (ev rm) st /\ packed_func E (trace st) (ev rm) = Ok tt.
Proof.
  intros H. apply call_effect in H as [(_ & [=] & _)|(rm' & -> & -> & H)].
  destruct (packed_func E (trace st) (ev rm')) as [[]|e] eqn:Hp; [|discriminate H].
  injection H as <-. auto.
Qed.



(** What one completed round of the binding loop does. *)
Lemma bind_input_ok E spec i value v2i st v2i' st' :
  bind_input E spec i value v2i st = (Ok v2i', st') ->
  exists t rm,
    v2i' !! value = Some (ITensor t) /\
    (v2i !! value = None -> toIValue (subgraph_ (self st)) value = Some (ITensor t)) /\
    trace st' = trace st ++
      [if decide (data_ptr (to_kFloat E t) mod kAlignment = 0)
       then EvSetInputZeroCopy rm i (to_kFloat E t)
       else EvSetInput rm i (to_kFloat E t)].
Proof.
  unfold bind_input. unfold bind at 1. cbn [get].
  unfold bind at 1.
  set (resolved := match v2i !! value with
                   | Some _ => ret v2i
                   | None => _
                   end).
  destruct (resolved st) as [[m|e] s1] eqn:Hres; [|discriminate].
  assert (Hs1 : s1 = st /\ (v2i !! value = None ->
                             toIValue (subgraph_ (self st)) value = m !! value
                             /\ is_Some (m !! value))
                /\ (is_Some (v2i !! value) -> m = v2i)).
  { subst resolved. destruct (v2i !! value) eqn:Hv.
    - injection Hres as <- <-. split; [reflexivity|]. split; [discriminate|reflexivity].
    - destruct (toIValue _ value) as [iv|] eqn:Hiv; [|discriminate].
      injection Hres as <- <-. split; [reflexivity|]. split.
      + intros _. rewrite lookup_insert_eq. eauto.
      + intros [? [=]]. }
  destruct Hs1 as (-> & Hnew & Hold). clear Hres resolved.
  unfold bind at 1.
  destruct (m !! value) as [iv|] eqn:Hm; [|discriminate]. cbn [ret].
  unfold bind at 1. unfold lift at 1.
  destruct iv as [| | | | |t| | | |]; try discriminate. cbn [toTensor].
  unfold bind at 1.
  destruct (cache_at spec st) as [[entry|e] s2] eqn:Hc;
    destruct (cache_at_effect _ _ _ _ Hc) as (_ & Htr2 & _); [|discriminate].
  unfold bind at 1.
  destruct (decide (data_ptr (to_kFloat E t) mod kAlignment = 0)) as [Hal|Hal].
  - destruct (call E _ _ s2) as [[rm|e] s3] eqn:Hcall; [|discriminate].
    apply call_ok in Hcall as (_ & -> & _). cbn [ret]. intros [= <- <-].
    exists t, rm. split; [exact Hm|]. split.
    + intros Hn. destruct (Hnew Hn) as [-> _]. reflexivity.
    + rewrite decide_True by exact Hal. cbn [trace emit]. rewrite Htr2. reflexivity.
  - destruct (call E _ _ s2) as [[rm|e] s3] eqn:Hcall; [|discriminate].
    apply call_ok in Hcall as (_ & -> & _). cbn [ret]. intros [= <- <-].
    exists t, rm. split; [exact Hm|]. split.
    + intros Hn. destruct (Hnew Hn) as [-> _]. reflexivity.
    + rewrite decide_False by exact Hal. cbn [trace emit]. rewrite Htr2. reflexivity.
Qed.

(** ** Failed translations *)

Lemma translation_unknown strict :
  translation Demo.ext 5 (DemoRuns.unknown_start strict) [ITensor Demo.t22]
    (Throw (OperatorError "aten::frobnicate")).
Proof. apply translation_result_sound. destruct strict; vm_compute; reflexivity. Qed.

(** C5: in strict mode an invocation on a cache miss whose translation
    throws [e] raises the single error of line 263 carrying [e]; the
    caller's stack is what it was, and beyond starting the translation no
    call was made: no interpreter, no binding, no kernel, no output. *)
Theorem strict_failure_raises_and_leaves_stack E fuel st inputs e :
  strict_ (self st) = true ->
  cache_ (self st) !! CompleteArgumentSpec inputs = None ->
  translation E fuel st inputs (Throw e) ->
  exists st',
    run E fuel st = Some (Throw (FailToConvertToRelay e), st') /\
    stack st' = stack st /\
    trace st' = trace st ++ [EvConvertToRelay (CompleteArgumentSpec inputs)].
Proof.
  intros Hstrict Hmiss (Hlast & st1 & ts & Hinfer & Htr).
  destruct (infer_types_effect _ _ _ _ Hinfer) as (Hself & Hstack & Htrace & Haddr).
  unfold run. rewrite Hlast, Hmiss. unfold compile. rewrite Hinfer.
  unfold cache_at. rewrite Hself, Hmiss. unfold translate. simpl.
  rewrite Hself, Haddr. simpl. rewrite Htr. rewrite Hstrict.
  eexists. split; [reflexivity|]. simpl. rewrite Hstack, Htrace. auto.
Qed.

Lemma strict_failure_raises_and_leaves_stack_witness :
  exists st',
    run Demo.ext 5 (DemoRuns.unknown_start true)
      = Some (Throw (FailToConvertToRelay (OperatorError "aten::frobnicate")), st') /\
    stack st' = [IInt 3; ITensor Demo.t22] /\
    trace st' = [EvConvertToRelay DemoRuns.sig22].
Proof.
  apply (strict_failure_raises_and_leaves_stack Demo.ext 5 (DemoRuns.unknown_start true)
           [ITensor Demo.t22] (OperatorError "aten::frobnicate")).
  - reflexivity.
  - reflexivity.
  - apply translation_unknown.
Defined.

(** With an entry whose [kernel] is empty, lines 295-325 never reach the
    end: they throw at the latest when calling the kernel. *)
Lemma execute_empty_kernel E spec v2i st o :
  cache_ (self st) !! spec = Some o ->
  TVMObject.kernel o = None ->
  exists e st', execute E spec v2i st = (Throw e, st').
Proof.
  intros Ho Hk. unfold execute.
  unfold bind at 1. cbn [get].
  unfold bind at 1. unfold cache_at at 1. rewrite Ho.
  unfold bind at 1.
  destruct (bind_inputs E spec 0 (TVMObject.input_values o) v2i st) as [[[]|e] st1] eqn:Hb.
  - apply bind_inputs_keeps in Hb as [_ Hself].
    specialize (Hself ltac:(rewrite Ho; eauto)).
    unfold bind at 1. unfold cache_at at 1. rewrite Hself, Ho.
    unfold bind at 1. rewrite Hk. cbn [call throw]. eauto.
  - eauto.
Qed.

(** C1 (where the code departs from the claim): in non-strict mode an
    invocation on a cache miss whose translation throws runs the
    interpreter on the original stack and returns normally, as claimed; but
    the cache then does hold an entry for the signature, with an empty
    kernel (the entry [cache_[spec]] makes when the argument of line 260 is
    evaluated).  Every later invocation with that signature takes the
    cache-hit path: it translates nothing, does not fall back, and throws. *)
Theorem fallback_leaves_an_entry E fuel st inputs e stack' :
  strict_ (self st) = false ->
  cache_ (self st) !! CompleteArgumentSpec inputs = None ->
  translation E fuel st inputs (Throw e) ->
  interpreter E (subgraph_ (self st)) (stack st) = Ok stack' ->
  exists st',
    run E fuel st = Some (Ok tt, st') /\
    stack st' = stack' /\
    trace st' = trace st ++ [EvConvertToRelay (CompleteArgumentSpec inputs); EvInterpreter] /\
    (exists o, cache_ (self st') !! CompleteArgumentSpec inputs = Some o /\
               TVMObject.kernel o = None) /\
    (forall stack2 inputs2,
       last stack2 (length (g_inputs (subgraph_ (self st')))) = Ok inputs2 ->
       CompleteArgumentSpec inputs2 = CompleteArgumentSpec inputs ->
       exists e2 st2 new,
         run E fuel (set_stack (fun _ => stack2) st') = Some (Throw e2, st2) /\
         trace st2 = trace st' ++ new /\ Forall execute_event new).
Proof.
  intros Hstrict Hmiss (Hlast & st1 & ts & Hinfer & Htr) Hinterp.
  destruct (infer_types_effect _ _ _ _ Hinfer) as (Hself & Hstack & Htrace & Haddr).
  unfold run. rewrite Hlast, Hmiss. unfold compile. rewrite Hinfer.
  unfold cache_at. rewrite Hself, Hmiss. unfold translate. simpl.
  rewrite Hself, Haddr. simpl. rewrite Htr. rewrite Hstrict.
  rewrite Hstack, Hinterp.
  eexists. split; [reflexivity|]. simpl.
  split; [reflexivity|]. split; [rewrite Htrace, <- app_assoc; reflexivity|].
  assert (Hentry : forall (c : gmap Signature TVMObject.t) l,
            <[CompleteArgumentSpec inputs := TVMObject.with_input_values l TVMObject.default]> c
              !! CompleteArgumentSpec inputs
            = Some (TVMObject.with_input_values l TVMObject.default)).
  { intros c l. apply lookup_insert_eq. }
  split.
  - eexists. split; [apply Hentry|reflexivity].
  - intros stack2 inputs2 Hlast2 Hsig.
    unfold run. cbn [self stack set_stack set_self with_cache subgraph_ cache_ emit].
    cbn [self set_self with_cache subgraph_] in Hlast2.
    rewrite Hlast2, Hsig, Hentry.
    match goal with
    | |- context [execute E ?sp ?m ?s] =>
        destruct (execute_empty_kernel E sp m s _ (Hentry _ _) eq_refl) as (e2 & st2 & Hex);
        pose proof (execute_effect E sp m s _ _ Hex) as [(new & Hnew & Hall) _]
    end.
    exists e2, st2, new. rewrite Hex. repeat split; assumption.
Qed.

Lemma fallback_leaves_an_entry_witness :
  exists st',
    run Demo.ext 5 (DemoRuns.unknown_start false) = Some (Ok tt, st') /\
    is_Some (cache_ (self st') !! DemoRuns.sig22) /\
    exists st2,
      run Demo.ext 5 (set_stack (fun _ => [ITensor Demo.t22]) st')
        = Some (Throw BadFunctionCall, st2) /\
      trace st2 = [EvConvertToRelay DemoRuns.sig22; EvInterpreter].
Proof.
  destruct (fallback_leaves_an_entry Demo.ext 5 (DemoRuns.unknown_start false)
              [ITensor Demo.t22] (OperatorError "aten::frobnicate")
              [IInt 3; ITensor (mkTensor Float [2; 2] 12288)])
    as (st' & Hrun & _ & _ & (o & Ho & _) & _).
  - reflexivity.
  - reflexivity.
  - apply translation_unknown.
  - reflexivity.
  - exists st'. split; [exact Hrun|]. split; [exists o; exact Ho|].
    assert (Hst' : st' = DemoRuns.unknown_once).
    { unfold DemoRuns.unknown_once, DemoRuns.after. rewrite Hrun. reflexivity. }
    rewrite Hst'. eexists. split; vm_compute; reflexivity.
Defined.

(** ** Binding the inputs *)



(** C9: the tensor a round of the binding loop binds is the float32
    conversion of the tensor resolved for the runtime input, whatever its
    element type was; and in the calls of any invocation every bound
    tensor, through either path, has element type float32. *)
Theorem bound_inputs_are_float (E : External) :
  (forall spec i value v2i st v2i' st',
     bind_input E spec i value v2i st = (Ok v2i', st') ->
     exists t rm,
       v2i' !! value = Some (ITensor t) /\
       scalar_type (to_kFloat E t) = Float /\
       (trace st' = trace st ++ [EvSetInputZeroCopy rm i (to_kFloat E t)] \/
        trace st' = trace st ++ [EvSetInput rm i (to_kFloat E t)])) /\
  (forall fuel st r st',
     run E fuel st = Some (r, st') ->
     exists new, trace st' = trace st ++ new /\
       forall rm i t,
         In (EvSetInputZeroCopy rm i t) new \/ In (EvSetInput rm i t) new ->
         scalar_type t = Float).
Proof.
  split.
  - intros spec i value v2i st v2i' st' H.
    destruct (bind_input_ok _ _ _ _ _ _ _ _ H) as (t & rm & Hv & _ & Htr).
    exists t, rm. split; [exact Hv|]. split; [apply to_kFloat_scalar_type|].
    destruct (decide _); [left|right]; exact Htr.
  - intros fuel st r st' H.
    destruct (run_events _ _ _ _ _ H) as (new & Hnew & Hall).
    exists new. split; [exact Hnew|].
    rewrite Forall_forall in Hall.
    intros rm i t [Hin|Hin]; apply list_elem_of_In, Hall in Hin;
      destruct Hin as [_ Hin]; exact Hin.
Qed.

Lemma bound_inputs_are_float_witness :
  exists new,
    trace DemoRuns.int_once = trace DemoRuns.int_start ++ new /\
    (forall rm i t,
       In (EvSetInputZeroCopy rm i t) new \/ In (EvSetInput rm i t) new ->
       scalar_type t = Float) /\
    In (EvSetInput (mkRuntimeModule 7 1) 0 (mkTensor Float [2; 2] 4120)) new.
Proof.
  destruct (bound_inputs_are_float Demo.ext) as [_ H].
  destruct (H 5%nat DemoRuns.int_start (Ok tt) DemoRuns.int_once) as (new & Hnew & Hall).
  - vm_compute. reflexivity.
  - exists new. split; [exact Hnew|]. split; [exact Hall|].
    assert (Hn : new = skipn 0 (trace DemoRuns.int_once)).
    { change (skipn 0 (trace DemoRuns.int_once)) with ([] ++ trace DemoRuns.int_once).
      simpl. rewrite Hnew. reflexivity. }
    rewrite Hn. vm_compute. tauto.
Defined.

(** ** The specialization cache *)














(** ** The free-variable check *)

Lemma collect_outputs_resolved outputs : forall fields acc s,
  Forall2 (fun o e => value_map s !! o = Some e) outputs fields ->
  collect_outputs outputs acc s = (Ok (acc ++ fields), s).
Proof.
  induction outputs as [|o outputs IH]; intros fields acc s H.
  - apply Forall2_nil_inv_l in H as ->. rewrite app_nil_r. reflexivity.
  - apply Forall2_cons_inv_l in H as (e & fields' & He & Hrest & ->).
    cbn [collect_outputs]. unfold bind at 1. cbn [get]. rewrite He.
    rewrite (IH fields' (acc ++ [e]) s Hrest), <- app_assoc. reflexivity.
Qed.

(** C2 as stated fails: an operator table whose operator makes a variable
    of its own yields a function whose one free variable is not among its
    one parameter, and the translation returns it. *)
Lemma free_var_outside_inputs_is_accepted :
  option_map fst
    (convertToRelay_Graph Demo.getOperator_weight 0 Demo.weight_graph Demo.cpu 5
       None Demo.weight_types 0)
    = Some (Ok DemoWeight.weight_function) /\
  FreeVars (body DemoWeight.weight_function) = [Demo.weight] /\
  ~ (forall v, In v (FreeVars (body DemoWeight.weight_function)) ->
               In v (params DemoWeight.weight_function)).
Proof.
  split; [vm_compute; reflexivity|]. split; [reflexivity|].
  intros H. specialize (H Demo.weight (or_introl eq_refl)).
  destruct H as [H|[]]. discriminate H.
Qed.

(** C2, amended: once the walk over the graph has ended and every declared
    output has a translation, the outcome is decided by the two counts
    alone: the function over the collected input variables is returned
    when the number of distinct free variables of the output tuple is at
    most the number of collected input variables, and the count error of
    line 203 is thrown otherwise. *)
Theorem free_var_check_compares_counts getOperator sentinel g ctx fuel
    input_values types next_var s1 s2 fields :
  seed_inputs g ctx (g_inputs g) (start_state input_values types next_var) = (Ok tt, s1) ->
  propagate getOperator sentinel g ctx fuel (g_inputs g) s1 = Some (Ok tt, s2) ->
  Forall2 (fun o e => value_map s2 !! o = Some e) (g_outputs g) fields ->
  convertToRelay_Graph getOperator sentinel g ctx fuel input_values types next_var
    = Some (if (length (FreeVars (ETuple fields)) <=? length (input_vars s2))%nat
            then Ok (mkFunction (input_vars s2) (ETuple fields))
            else Throw (FreeVarsExceedInputs (length (FreeVars (ETuple fields)))
                                             (length (input_vars s2))),
            s2).
Proof.
  intros Hseed Hwalk Hout. unfold convertToRelay_Graph. rewrite Hseed, Hwalk.
  unfold assemble. unfold bind at 1.
  rewrite (collect_outputs_resolved (g_outputs g) fields [] s2 Hout).
  cbn [app]. unfold bind at 1. cbn [get].
  destruct (length (FreeVars (ETuple fields)) <=? length (input_vars s2))%nat; reflexivity.
Qed.

Lemma free_var_check_compares_counts_witness :
  convertToRelay_Graph Demo.getOperator_weight 0 Demo.weight_graph Demo.cpu 5
    None Demo.weight_types 0
  = Some (Ok DemoWeight.weight_function, DemoWeight.weight_walked).
Proof.
  apply (free_var_check_compares_counts Demo.getOperator_weight 0 Demo.weight_graph
           Demo.cpu 5 None Demo.weight_types 0
           DemoWeight.weight_seeded DemoWeight.weight_walked [EVar Demo.weight]).
  - vm_compute. reflexivity.
  - vm_compute. reflexivity.
  - repeat constructor.
Defined.

(** * Further properties *)

Lemma Expr_ind_nested (P : Expr -> Prop) :
  (forall v, P (EVar v)) ->
  (forall c, P (EConstant c)) ->
  (forall fields, Forall P fields -> P (ETuple fields)) ->
  (forall t i, P t -> P (ETupleGetItem t i)) ->
  (forall op args, Forall P args -> P (ECall op args)) ->
  forall e, P e.
Proof.
  intros HV HC HT HG HA.
  fix IH 1. intros [v|c|fields|t i|op args].
  - apply HV.
  - apply HC.
  - apply HT. induction fields as [|e es IHes]; constructor; [apply IH|exact IHes].
  - apply HG, IH.
  - apply HA. induction args as [|e es IHes]; constructor; [apply IH|exact IHes].
Qed.

Lemma free_vars_acc_tuple fields acc :
  free_vars_acc (ETuple fields) acc = free_vars_list fields acc.
Proof.
  cbn [free_vars_acc]. revert acc.
  induction fields as [|e es IH]; intros acc; [reflexivity|]. cbn. apply IH.
Qed.

Lemma free_vars_acc_call op args acc :
  free_vars_acc (ECall op args) acc = free_vars_list args acc.
Proof.
  cbn [free_vars_acc]. revert acc.
  induction args as [|e es IH]; intros acc; [reflexivity|]. cbn. apply IH.
Qed.

Lemma add_var_in acc v w :
  In w (add_var acc v) -> In w acc \/ w = v.
Proof.
  unfold add_var. destruct (existsb _ acc); [auto|].
  intros H. apply in_app_or in H as [H|[H|[]]]; auto.
Qed.

Lemma add_var_nodup acc v :
  NoDup (map var_id acc) -> NoDup (map var_id (add_var acc v)).
Proof.
  unfold add_var. destruct (existsb _ acc) eqn:Hex; [auto|].
  intros Hnd. rewrite map_app. cbn [map].
  apply NoDup_ListNoDup, List.NoDup_app.
  - apply NoDup_ListNoDup. exact Hnd.
  - repeat constructor. intros [].
  - intros x Hx [<-|[]].
    apply in_map_iff in Hx as (w & Hw & Hin).
    assert (Htrue : existsb (fun w0 => Nat.eqb (var_id w0) (var_id v)) acc = true).
    { apply existsb_exists. exists w. split; [exact Hin|]. apply Nat.eqb_eq. exact Hw. }
    congruence.
Qed.

Lemma var_ids_tuple fields x :
  In x (var_ids (ETuple fields)) <-> exists e, In e fields /\ In x (var_ids e).
Proof.
  cbn [var_ids]. induction fields as [|e es IH].
  - split; [intros []|intros (e & [] & _)].
  - rewrite in_app_iff, IH. split.
    + intros [H|(e' & He' & Hx)]; [exists e; cbn; auto|exists e'; cbn; auto].
    + intros (e' & [<-|He'] & Hx); [left; exact Hx|right; eauto].
Qed.

Lemma var_ids_call op args x :
  In x (var_ids (ECall op args)) <-> exists e, In e args /\ In x (var_ids e).
Proof. exact (var_ids_tuple args x). Qed.

(** Every variable [FreeVars] collects is mentioned by the expression. *)
Lemma free_vars_acc_in e : forall acc v,
  In v (free_vars_acc e acc) -> In v acc \/ In (var_id v) (var_ids e).
Proof.
  induction e as [w|c|fields IH|t i IH|op args IH] using Expr_ind_nested; intros acc v.
  - cbn [free_vars_acc var_ids]. intros H. apply add_var_in in H as [H| ->]; cbn; auto.
  - cbn. auto.
  - rewrite free_vars_acc_tuple. setoid_rewrite var_ids_tuple.
    revert acc. induction IH as [|e es He _ IHes]; intros acc; cbn [free_vars_list].
    + auto.
    + intros H. apply IHes in H as [H|(e' & He' & Hx)].
      * apply He in H as [H|H]; [auto|]. right. exists e. cbn. auto.
      * right. exists e'. cbn. auto.
  - cbn [free_vars_acc var_ids]. apply IH.
  - rewrite free_vars_acc_call. setoid_rewrite var_ids_call.
    revert acc. induction IH as [|e es He _ IHes]; intros acc; cbn [free_vars_list].
    + auto.
    + intros H. apply IHes in H as [H|(e' & He' & Hx)].
      * apply He in H as [H|H]; [auto|]. right. exists e. cbn. auto.
      * right. exists e'. cbn. auto.
Qed.

(** [FreeVars] lists no address twice. *)
Lemma free_vars_acc_nodup e : forall acc,
  NoDup (map var_id acc) -> NoDup (map var_id (free_vars_acc e acc)).
Proof.
  induction e as [w|c|fields IH|t i IH|op args IH] using Expr_ind_nested; intros acc Hnd.
  - apply add_var_nodup, Hnd.
  - exact Hnd.
  - rewrite free_vars_acc_tuple. revert acc Hnd.
    induction IH as [|e es He _ IHes]; intros acc Hnd; cbn [free_vars_list]; auto.
  - apply IH, Hnd.
  - rewrite free_vars_acc_call. revert acc Hnd.
    induction IH as [|e es He _ IHes]; intros acc Hnd; cbn [free_vars_list]; auto.
Qed.

Lemma FreeVars_in e v : In v (FreeVars e) -> In (var_id v) (var_ids e).
Proof. intros H. apply free_vars_acc_in in H as [[]|H]. exact H. Qed.

Lemma FreeVars_nodup e : NoDup (map var_id (FreeVars e)).
Proof. apply free_vars_acc_nodup. constructor. Qed.

(** Free variables all found among [vars] are no more than [vars]. *)
Lemma FreeVars_count e (vars : list Var) :
  (forall x, In x (var_ids e) -> In x (map var_id vars)) ->
  (length (FreeVars e) <= length vars)%nat.
Proof.
  intros Hsub.
  rewrite <- (length_map var_id (FreeVars e)), <- (length_map var_id vars).
  apply List.NoDup_incl_length.
  - apply NoDup_ListNoDup, FreeVars_nodup.
  - intros x Hx. apply in_map_iff in Hx as (v & <- & Hv). apply Hsub, FreeVars_in, Hv.
Qed.

Lemma bind_ok {S A B} (m : M S A) (k : A -> M S B) s b s' :
  bind m k s = (Ok b, s') -> exists a s1, m s = (Ok a, s1) /\ k a s1 = (Ok b, s').
Proof.
  unfold bind. destruct (m s) as [[a|e] s1]; [eauto|discriminate].
Qed.

Lemma extends_refl s : extends s s.
Proof. split; [exists []; rewrite app_nil_r; reflexivity|auto]. Qed.

Lemma extends_trans s1 s2 s3 : extends s1 s2 -> extends s2 s3 -> extends s1 s3.
Proof.
  intros [[m1 H1] Hi1] [[m2 H2] Hi2]. split; [|auto].
  exists (m1 ++ m2). rewrite H2, H1, app_assoc. reflexivity.
Qed.

Lemma covered_extends s s' e : extends s s' -> covered s e -> covered s' e.
Proof.
  intros [[more Hm] _] Hc x Hx. unfold ids. rewrite Hm, map_app, in_app_iff.
  left. apply Hc, Hx.
Qed.

Lemma convertToRelay_IValue_no_vars sentinel iv ctx e :
  convertToRelay_IValue sentinel iv ctx = Ok e -> var_ids e = [].
Proof.
  assert (Hint : forall l e', int32_constant l ctx = Ok e' -> var_ids e' = []).
  { intros l e'. unfold int32_constant.
    destruct (negb _); [discriminate|]. destruct (negb _); [discriminate|].
    intros [= <-]. reflexivity. }
  destruct iv; cbn [convertToRelay_IValue]; try discriminate.
  - destruct (negb _); [discriminate|]. destruct (negb _); [discriminate|].
    intros [= <-]. reflexivity.
  - apply Hint.
  - intros [= <-]. reflexivity.
  - intros [= <-]. reflexivity.
  - destruct (int32_constants l ctx) as [es|] eqn:Hes; [|discriminate].
    intros [= <-]. cbn [var_ids]. revert es Hes.
    induction l as [|z l IH]; intros es; cbn [int32_constants].
    + intros [= <-]. reflexivity.
    + destruct (int32_constant z ctx) as [c|] eqn:Hc; [|discriminate].
      destruct (int32_constants l ctx) as [cs|]; [|discriminate].
      intros [= <-]. rewrite (Hint _ _ Hc), (IH cs eq_refl). reflexivity.
Qed.

(** A placeholder translation that returns allocates one variable and
    touches neither the map nor the collected inputs. *)
Lemma convertToRelay_Value_ok g val ctx s v s' :
  convertToRelay_Value g val ctx s = (Ok v, s') ->
  value_map s' = value_map s /\ input_vars s' = input_vars s /\
  input_values s' = input_values s /\ next_var s' = S (next_var s) /\
  var_id v = next_var s /\ named_after g v val.
Proof.
  unfold convertToRelay_Value. intros H.
  apply bind_ok in H as ([] & s1 & H1 & H).
  assert (Hs1 : value_map s1 = value_map s /\ input_vars s1 = input_vars s /\
                input_values s1 = input_values s /\ next_var s1 = next_var s).
  { destruct (toIValue g val) as [iv|].
    - apply bind_ok in H1 as (t & s0 & Hl & Hm). unfold lift in Hl.
      injection Hl as _ <-. injection Hm as <-. auto.
    - injection H1 as <-. auto. }
  destruct Hs1 as (Hm1 & Hv1 & Hi1 & Hn1).
  apply bind_ok in H as (s1' & s1'' & Hg & H). injection Hg as <- <-.
  destruct (types s1 !! val) as [pt_t|]; [|discriminate].
  apply bind_ok in H as (dt & s2 & Hl & H). unfold lift in Hl. injection Hl as _ <-.
  unfold VarNode_make in H. injection H as <- <-. cbn.
  rewrite Hm1, Hv1, Hi1, Hn1. unfold named_after. cbn. auto 10.
Qed.

(** Same collected inputs and out-parameter: the one extends the other. *)
Lemma extends_same s s' s'' :
  extends s s' -> input_vars s'' = input_vars s' -> input_values s'' = input_values s' ->
  extends s s''.
Proof.
  intros [[more Hm] Hi] Hv Hiv. split; [exists more; congruence|]. rewrite Hiv. exact Hi.
Qed.

Section WalkInvariant.
Variable getOperator : Node -> list Expr -> result Expr.
Variable sentinel : Z.
Variable g : Graph.
Variable ctx : DLContext.

(** Registering a new input variable [v] for [val]. *)
Lemma walk_inv_register s s' v val :
  walk_inv getOperator g s ->
  value_map s' = <[val := EVar v]> (value_map s) ->
  input_vars s' = input_vars s ++ [v] ->
  input_values s' = (fun l => l ++ [val]) <$> input_values s ->
  next_var s' = S (next_var s) ->
  var_id v = next_var s ->
  named_after g v val ->
  origin g val ->
  walk_inv getOperator g s' /\ extends s s'.
Proof.
  intros (Hcov & Hfresh & Hnd & Hstep & Horig) Hm Hv Hi Hn Hid Hname Hval.
  assert (Hext : extends s s').
  { split; [exists [v]; exact Hv|]. rewrite Hi. intros [l ->]. cbn. eauto. }
  assert (Hids : ids s' = ids s ++ [next_var s]).
  { unfold ids. rewrite Hv, map_app. cbn. rewrite Hid. reflexivity. }
  split; [|exact Hext]. repeat split.
  - intros Hclosed w e. rewrite Hm. intros Hl.
    destruct (decide (val = w)) as [->|Hne].
    + rewrite lookup_insert_eq in Hl. injection Hl as <-.
      intros x [<-|[]]. rewrite Hids, Hid. apply in_or_app. right. left. reflexivity.
    + rewrite lookup_insert_ne in Hl by exact Hne.
      eapply covered_extends; [exact Hext|]. eapply Hcov; eassumption.
  - intros x. rewrite Hids, Hn, in_app_iff. intros [Hx|[<-|[]]]; [|lia].
    specialize (Hfresh x Hx). lia.
  - rewrite Hids. apply NoDup_app. split; [exact Hnd|]. split.
    + intros x Hx Hx'. apply list_elem_of_In in Hx. apply Hfresh in Hx.
      apply list_elem_of_In in Hx'. destruct Hx' as [<-|[]]. lia.
    + apply NoDup_singleton.
  - intros l' Hl'. rewrite Hi in Hl'.
    destruct (input_values s) as [l|]; [|discriminate].
    injection Hl' as <-. rewrite Hv. apply Forall2_app; [apply Hstep; reflexivity|].
    constructor; [exact Hname|constructor].
  - intros l' Hl'. rewrite Hi in Hl'.
    destruct (input_values s) as [l|]; [|discriminate].
    injection Hl' as <-. apply Forall_app. split; [apply Horig; reflexivity|].
    constructor; [exact Hval|constructor].
Qed.

(** Writing one covered expression into the map. *)
Lemma walk_inv_insert s s' k e :
  walk_inv getOperator g s ->
  (closed_operators getOperator -> covered s e) ->
  value_map s' = <[k := e]> (value_map s) ->
  input_vars s' = input_vars s ->
  input_values s' = input_values s ->
  next_var s' = next_var s ->
  walk_inv getOperator g s'.
Proof.
  intros (Hcov & Hfresh & Hnd & Hstep & Horig) He Hm Hv Hi Hn.
  assert (Hids : ids s' = ids s) by (unfold ids; rewrite Hv; reflexivity).
  repeat split.
  - intros Hclosed w e' Hl x Hx. rewrite Hids. rewrite Hm in Hl.
    destruct (decide (k = w)) as [->|Hne].
    + rewrite lookup_insert_eq in Hl. injection Hl as <-. apply He; assumption.
    + rewrite lookup_insert_ne in Hl by exact Hne. eapply Hcov; eassumption.
  - intros x. rewrite Hids, Hn. apply Hfresh.
  - rewrite Hids. exact Hnd.
  - intros l. rewrite Hi, Hv. apply Hstep.
  - intros l. rewrite Hi. apply Horig.
Qed.

Lemma seed_inputs_inv inputs : forall s s',
  (forall v, In v inputs -> In v (g_inputs g)) ->
  seed_inputs g ctx inputs s = (Ok tt, s') ->
  walk_inv getOperator g s ->
  walk_inv getOperator g s' /\ extends s s'.
Proof.
  induction inputs as [|input rest IH]; intros s s' Hsub H Hinv.
  - injection H as <-. split; [exact Hinv|apply extends_refl].
  - cbn [seed_inputs] in H.
    apply bind_ok in H as (s0 & s0' & Hg & H). injection Hg as <- <-.
    apply bind_ok in H as ([] & s1 & Hc & H).
    assert (s1 = s) as -> by (destruct (decide _); [injection Hc as <-; reflexivity|discriminate]).
    apply bind_ok in H as (v & s2 & Hconv & H).
    apply convertToRelay_Value_ok in Hconv as (Hm & Hv & Hi & Hn & Hid & Hname).
    apply bind_ok in H as ([] & s3 & [= <-] & H).
    apply bind_ok in H as ([] & s4 & [= <-] & H).
    apply bind_ok in H as ([] & s5 & [= <-] & H).
    match type of H with
    | seed_inputs _ _ _ ?s6 = _ =>
        assert (Hreg : walk_inv getOperator g s6 /\ extends s s6)
    end.
    { apply (walk_inv_register s _ v input Hinv); cbn;
        rewrite ?Hm, ?Hv, ?Hi, ?Hn; auto;
        try (destruct (input_values s); reflexivity).
      left. apply Hsub. left. reflexivity. }
    destruct Hreg as [Hinv' Hext].
    destruct (IH _ _ (fun w Hw => Hsub w (or_intror Hw)) H Hinv') as [Hfin Hext'].
    split; [exact Hfin|eapply extends_trans; eassumption].
Qed.

Lemma resolve_inputs_inv inputs : forall acc s r s',
  resolve_inputs sentinel g ctx inputs acc s = (Ok r, s') ->
  walk_inv getOperator g s ->
  (closed_operators getOperator -> Forall (covered s) acc) ->
  walk_inv getOperator g s' /\ extends s s' /\
  (forall l, r = Some l -> closed_operators getOperator -> Forall (covered s') l).
Proof.
  induction inputs as [|input rest IH]; intros acc s r s' H Hinv Hacc.
  - injection H as <- <-. split; [exact Hinv|]. split; [apply extends_refl|].
    intros l [= <-]. exact Hacc.
  - cbn [resolve_inputs] in H.
    apply bind_ok in H as (s0 & s0' & Hg & H). injection Hg as <- <-.
    destruct (value_map s !! input) as [e|] eqn:Hl.
    + (* already translated *)
      apply IH in H; [exact H|exact Hinv|].
      intros Hc. apply Forall_app. split; [apply Hacc, Hc|].
      constructor; [|constructor]. destruct Hinv as (Hcov & _). eapply Hcov; eassumption.
    + destruct (toIValue g input) as [iv|] eqn:Hiv.
      2: { injection H as <- <-. split; [exact Hinv|]. split; [apply extends_refl|].
           intros l [=]. }
      destruct (isTensor iv) eqn:Htensor.
      * (* a constant tensor becomes a runtime input *)
        apply bind_ok in H as ([] & s1 & [= <-] & H).
        apply bind_ok in H as (v & s2 & Hconv & H).
        apply convertToRelay_Value_ok in Hconv as (Hm & Hv & Hi & Hn & Hid & Hname).
        cbn in Hm, Hv, Hi, Hn, Hid.
        apply bind_ok in H as ([] & s3 & [= <-] & H).
        apply bind_ok in H as ([] & s4 & [= <-] & H).
        match type of H with
        | resolve_inputs _ _ _ _ _ ?s6 = _ =>
            assert (Hreg : walk_inv getOperator g s6 /\ extends s s6)
        end.
        { apply (walk_inv_register s _ v input Hinv); cbn;
            rewrite ?Hm, ?Hv, ?Hi, ?Hn; auto;
            try (destruct (input_values s); reflexivity).
          right. destruct iv; try discriminate Htensor. eauto. }
        destruct Hreg as [Hinv' Hext].
        apply IH in H; [|exact Hinv'|].
        { destruct H as (Hfin & Hext' & Hres).
          split; [exact Hfin|]. split; [eapply extends_trans; eassumption|exact Hres]. }
        intros Hc. apply Forall_app. split.
        { eapply Forall_impl; [apply Hacc, Hc|]. intros e. apply covered_extends, Hext. }
        constructor; [|constructor]. intros x [<-|[]].
        unfold ids. cbn. rewrite Hv, map_app. apply in_or_app. right. left. reflexivity.
      * (* any other constant is translated in place *)
        apply bind_ok in H as (e & s1 & Hl1 & H). unfold lift in Hl1.
        injection Hl1 as Hconv <-.
        apply bind_ok in H as ([] & s2 & [= <-] & H).
        pose proof (convertToRelay_IValue_no_vars _ _ _ _ Hconv) as Hnov.
        assert (Hcove : forall s0, covered s0 e).
        { intros s0 x. rewrite Hnov. intros []. }
        match type of H with
        | resolve_inputs _ _ _ _ _ ?s6 = _ =>
            assert (Hins : walk_inv getOperator g s6)
              by (apply (walk_inv_insert s s6 input e Hinv); auto)
        end.
        apply IH in H; [|exact Hins|].
        { destruct H as (Hfin & Hext' & Hres).
          split; [exact Hfin|]. split; [|exact Hres].
          eapply extends_trans; [|exact Hext']. apply (extends_same s s); auto using extends_refl. }
        intros Hc. apply Forall_app. split.
        { eapply Forall_impl; [apply Hacc, Hc|]. intros e' He' x Hx. apply He', Hx. }
        constructor; [apply Hcove|constructor].
Qed.

Lemma bind_outputs_inv tuple outputs : forall index nf s r s',
  bind_outputs tuple outputs index nf s = (Ok r, s') ->
  walk_inv getOperator g s ->
  (closed_operators getOperator -> covered s tuple) ->
  walk_inv getOperator g s' /\ input_vars s' = input_vars s /\
  input_values s' = input_values s.
Proof.
  induction outputs as [|output rest IH]; intros index nf s r s' H Hinv Ht.
  - injection H as <- <-. auto.
  - cbn [bind_outputs] in H.
    apply bind_ok in H as ([] & s1 & [= <-] & H).
    apply IH in H.
    + destruct H as (Hfin & Hv & Hiv). split; [exact Hfin|]. split; [exact Hv|exact Hiv].
    + apply (walk_inv_insert s _ output (ETupleGetItem tuple index) Hinv); auto.
    + exact Ht.
Qed.

Lemma visit_user_inv user nf s r s' :
  visit_user getOperator sentinel g ctx user nf s = (Ok r, s') ->
  walk_inv getOperator g s ->
  walk_inv getOperator g s' /\ extends s s'.
Proof.
  unfold visit_user. intros H Hinv.
  apply bind_ok in H as (res & s1 & Hres & H).
  apply resolve_inputs_inv in Hres as (Hinv1 & Hext1 & Hargs);
    [|exact Hinv|intros _; constructor].
  destruct res as [relay_inputs|].
  2: { injection H as _ <-. auto. }
  specialize (Hargs relay_inputs eq_refl).
  assert (Hop : forall e, getOperator user relay_inputs = Ok e ->
                          closed_operators getOperator -> covered s1 e).
  { intros e He Hc x Hx. destruct (Hc _ _ _ He x Hx) as (a & Ha & Hxa).
    specialize (Hargs Hc). rewrite Forall_forall in Hargs.
    apply (Hargs a); [apply list_elem_of_In, Ha|exact Hxa]. }
  destruct (n_outputs user) as [|output [|output2 rest]].
  - injection H as _ <-. auto.
  - apply bind_ok in H as (e & s2 & Hl & H). unfold lift in Hl. injection Hl as He <-.
    apply bind_ok in H as ([] & s3 & [= <-] & H). injection H as _ <-.
    split.
    + apply (walk_inv_insert s1 _ output e Hinv1); auto.
    + apply (extends_same s s1); auto.
  - apply bind_ok in H as (tuple & s2 & Hl & H). unfold lift in Hl. injection Hl as He <-.
    apply bind_outputs_inv in H as (Hfin & Hv & Hiv); [|exact Hinv1|auto].
    split; [exact Hfin|]. apply (extends_same s s1); auto.
Qed.

Lemma visit_uses_inv users : forall nf s r s',
  visit_uses getOperator sentinel g ctx users nf s = (Ok r, s') ->
  walk_inv getOperator g s ->
  walk_inv getOperator g s' /\ extends s s'.
Proof.
  induction users as [|user rest IH]; intros nf s r s' H Hinv.
  - injection H as _ <-. split; [exact Hinv|apply extends_refl].
  - cbn [visit_uses] in H. apply bind_ok in H as (nf1 & s1 & Hu & H).
    apply visit_user_inv in Hu as [Hinv1 Hext1]; [|exact Hinv].
    apply IH in H as [Hfin Hext]; [|exact Hinv1].
    split; [exact Hfin|eapply extends_trans; eassumption].
Qed.

Lemma visit_frontier_inv frontier : forall nf s r s',
  visit_frontier getOperator sentinel g ctx frontier nf s = (Ok r, s') ->
  walk_inv getOperator g s ->
  walk_inv getOperator g s' /\ extends s s'.
Proof.
  induction frontier as [|value rest IH]; intros nf s r s' H Hinv.
  - injection H as _ <-. split; [exact Hinv|apply extends_refl].
  - cbn [visit_frontier] in H. apply bind_ok in H as (nf1 & s1 & Hu & H).
    apply visit_uses_inv in Hu as [Hinv1 Hext1]; [|exact Hinv].
    apply IH in H as [Hfin Hext]; [|exact Hinv1].
    split; [exact Hfin|eapply extends_trans; eassumption].
Qed.

Lemma propagate_inv fuel : forall frontier s s',
  propagate getOperator sentinel g ctx fuel frontier s = Some (Ok tt, s') ->
  walk_inv getOperator g s ->
  walk_inv getOperator g s' /\ extends s s'.
Proof.
  induction fuel as [|fuel IH]; intros frontier s s' H Hinv.
  - destruct frontier; [|discriminate]. injection H as <-.
    split; [exact Hinv|apply extends_refl].
  - destruct frontier as [|v frontier].
    { injection H as <-. split; [exact Hinv|apply extends_refl]. }
    cbn [propagate] in H.
    destruct (visit_frontier _ _ _ _ (v :: frontier) [] s) as [[nf|e] s1] eqn:Hv;
      [|discriminate].
    apply visit_frontier_inv in Hv as [Hinv1 Hext1]; [|exact Hinv].
    destruct (IH _ _ _ H Hinv1) as [Hfin Hext].
    split; [exact Hfin|eapply extends_trans; eassumption].
Qed.

Lemma start_state_inv input_values types next_var :
  input_values = None \/ input_values = Some [] ->
  walk_inv getOperator g (start_state input_values types next_var).
Proof.
  intros Hiv. repeat split.
  - intros _ v e Hl. cbn in Hl. rewrite lookup_empty in Hl. discriminate.
  - intros x [].
  - constructor.
  - intros l Hl. cbn in Hl. destruct Hiv as [->| ->]; [discriminate|].
    injection Hl as <-. constructor.
  - intros l Hl. cbn in Hl. destruct Hiv as [->| ->]; [discriminate|].
    injection Hl as <-. constructor.
Qed.
End WalkInvariant.

Lemma collect_outputs_ok outputs : forall acc s fields s',
  collect_outputs outputs acc s = (Ok fields, s') ->
  s' = s /\ exists fs, fields = acc ++ fs /\
    Forall2 (fun o e => value_map s !! o = Some e) outputs fs.
Proof.
  induction outputs as [|o outputs IH]; intros acc s fields s' H.
  - injection H as <- <-. split; [reflexivity|]. exists []. rewrite app_nil_r.
    split; [reflexivity|constructor].
  - cbn [collect_outputs] in H. apply bind_ok in H as (s0 & s0' & Hg & H).
    injection Hg as <- <-.
    destruct (value_map s !! o) as [e|] eqn:Hl; [|discriminate].
    apply IH in H as (-> & fs & -> & Hfs). split; [reflexivity|].
    exists (e :: fs). rewrite <- app_assoc. split; [reflexivity|].
    constructor; assumption.
Qed.

(** How a translation that returns a function came about. *)
Lemma convertToRelay_Graph_ok getOperator sentinel g ctx fuel input_values types next_var f s' :
  convertToRelay_Graph getOperator sentinel g ctx fuel input_values types next_var
    = Some (Ok f, s') ->
  exists s1 fields,
    seed_inputs g ctx (g_inputs g) (start_state input_values types next_var) = (Ok tt, s1) /\
    propagate getOperator sentinel g ctx fuel (g_inputs g) s1 = Some (Ok tt, s') /\
    Forall2 (fun o e => value_map s' !! o = Some e) (g_outputs g) fields /\
    f = mkFunction (input_vars s') (ETuple fields).
Proof.
  unfold convertToRelay_Graph.
  destruct (seed_inputs _ _ _ _) as [[[]|e] s1] eqn:Hseed; [|discriminate].
  destruct (propagate _ _ _ _ _ _ s1) as [[[[]|e] s2]|] eqn:Hprop; [|discriminate|discriminate].
  intros [= H]. unfold assemble in H.
  apply bind_ok in H as (fields & s3 & Hc & H).
  apply collect_outputs_ok in Hc as (-> & fs & -> & Hfs).
  apply bind_ok in H as (s4 & s5 & [= <- <-] & H).
  destruct (negb _); [discriminate|]. injection H as <- <-.
  exists s1, fs. repeat split; auto.
Qed.

Lemma covered_fields getOperator g s fields (outputs : list Value) :
  closed_operators getOperator ->
  walk_inv getOperator g s ->
  Forall2 (fun o e => value_map s !! o = Some e) outputs fields ->
  covered s (ETuple fields).
Proof.
  intros Hc (Hcov & _) Hfs x Hx.
  apply var_ids_tuple in Hx as (e & He & Hxe).
  apply list_elem_of_In in He.
  destruct (proj1 (list_elem_of_lookup _ _) He) as [i Hi].
  destruct (Forall2_lookup_r _ _ _ _ _ Hfs Hi) as (o & _ & Ho).
  eapply Hcov; eassumption.
Qed.

(** X1: when no operator of the table introduces a variable of its own,
    every free variable of the body of a returned function is, by address,
    one of its parameters; and whenever the walk has ended with all
    outputs translated, the free variables are no more than the collected
    input variables, so the check of line 203 cannot fail. *)
Theorem closed_operators_keep_free_vars_among_inputs
    getOperator sentinel g ctx fuel input_values types next_var :
  closed_operators getOperator ->
  input_values = None \/ input_values = Some [] ->
  (forall f s',
     convertToRelay_Graph getOperator sentinel g ctx fuel input_values types next_var
       = Some (Ok f, s') ->
     forall v, In v (FreeVars (body f)) ->
       exists p, In p (params f) /\ var_id p = var_id v) /\
  (forall s1 s2 fields,
     seed_inputs g ctx (g_inputs g) (start_state input_values types next_var) = (Ok tt, s1) ->
     propagate getOperator sentinel g ctx fuel (g_inputs g) s1 = Some (Ok tt, s2) ->
     Forall2 (fun o e => value_map s2 !! o = Some e) (g_outputs g) fields ->
     (length (FreeVars (ETuple fields)) <= length (input_vars s2))%nat).
Proof.
  intros Hclosed Hiv.
  assert (Hwalk : forall s1 s2,
            seed_inputs g ctx (g_inputs g) (start_state input_values types next_var)
              = (Ok tt, s1) ->
            propagate getOperator sentinel g ctx fuel (g_inputs g) s1 = Some (Ok tt, s2) ->
            walk_inv getOperator g s2).
  { intros s1 s2 Hseed Hprop.
    eapply propagate_inv; [exact Hprop|].
    eapply seed_inputs_inv; [|exact Hseed|]; [auto|]. apply start_state_inv, Hiv. }
  assert (Hwalk' : forall s1 s2,
            seed_inputs g ctx (g_inputs g) (start_state input_values types next_var)
              = (Ok tt, s1) ->
            propagate getOperator sentinel g ctx fuel (g_inputs g) s1 = Some (Ok tt, s2) ->
            walk_inv getOperator g s2) by (intros; eapply Hwalk; eassumption).
  clear Hwalk. rename Hwalk' into Hwalk.
  split.
  - intros f s' H v Hv.
    apply convertToRelay_Graph_ok in H as (s1 & fields & Hseed & Hprop & Hfs & ->).
    cbn [body params] in *.
    pose proof (covered_fields _ _ _ _ _ Hclosed (Hwalk _ _ Hseed Hprop) Hfs) as Hcov.
    apply FreeVars_in, Hcov in Hv. unfold ids in Hv.
    apply in_map_iff in Hv as (p & Hp & Hin). eauto.
  - intros s1 s2 fields Hseed Hprop Hfs.
    apply FreeVars_count.
    exact (covered_fields _ _ _ _ _ Hclosed (Hwalk _ _ Hseed Hprop) Hfs).
Qed.

(** X2: a translation that returns a function, started on an empty
    [input_values] vector, leaves in it one value per parameter of the
    function, in the same order (the i-th parameter carries the name made
    for the i-th value); the parameters are distinct variables, and each
    recorded value is a declared input of the graph or one of its constant
    tensors. *)
Theorem params_follow_input_values
    getOperator sentinel g ctx fuel types next_var f s' :
  convertToRelay_Graph getOperator sentinel g ctx fuel (Some []) types next_var
    = Some (Ok f, s') ->
  exists values,
    input_values s' = Some values /\
    Forall2 (named_after g) (params f) values /\
    NoDup (map var_id (params f)) /\
    Forall (origin g) values.
Proof.
  intros H.
  apply convertToRelay_Graph_ok in H as (s1 & fields & Hseed & Hprop & Hfs & ->).
  destruct (seed_inputs_inv getOperator g ctx _ _ _ (fun v Hv => Hv) Hseed) as [Hinv1 Hext1].
  { apply start_state_inv. auto. }
  destruct (propagate_inv getOperator sentinel g ctx _ _ _ _ Hprop Hinv1)
    as [(_ & _ & Hnd & Hstep & Horig) Hext].
  destruct (extends_trans _ _ _ Hext1 Hext) as [_ Hsome].
  destruct Hsome as [values Hvalues]; [cbn; eauto|].
  exists values. split; [exact Hvalues|]. split; [apply Hstep, Hvalues|].
  split; [exact Hnd|apply Horig, Hvalues].
Qed.

Section Frontier.
Variable getOperator : Node -> list Expr -> result Expr.
Variable sentinel : Z.
Variable g : Graph.
Variable ctx : DLContext.

Lemma bind_outputs_frontier tuple outputs : forall index nf s r s',
  bind_outputs tuple outputs index nf s = (Ok r, s') -> r = nf ++ outputs.
Proof.
  induction outputs as [|o outputs IH]; intros index nf s r s' H.
  - injection H as <- _. rewrite app_nil_r. reflexivity.
  - cbn [bind_outputs] in H. apply bind_ok in H as ([] & s1 & _ & H).
    apply IH in H. rewrite H, <- app_assoc. reflexivity.
Qed.

Lemma visit_user_frontier user nf s r s' :
  visit_user getOperator sentinel g ctx user nf s = (Ok r, s') ->
  forall o, In o r -> In o nf \/ In o (n_outputs user).
Proof.
  unfold visit_user. intros H o Ho.
  apply bind_ok in H as (res & s1 & _ & H).
  destruct res as [relay_inputs|]; [|injection H as <- _; auto].
  destruct (n_outputs user) as [|o1 [|o2 rest]].
  - injection H as <- _. auto.
  - apply bind_ok in H as (e & s2 & _ & H).
    apply bind_ok in H as ([] & s3 & _ & H). injection H as <- _.
    apply in_app_or in Ho. exact Ho.
  - apply bind_ok in H as (tuple & s2 & _ & H).
    apply bind_outputs_frontier in H. subst r. apply in_app_or in Ho. exact Ho.
Qed.

Lemma visit_uses_frontier users : forall nf s r s',
  visit_uses getOperator sentinel g ctx users nf s = (Ok r, s') ->
  forall o, In o r -> In o nf \/ exists user, In user users /\ In o (n_outputs user).
Proof.
  induction users as [|user rest IH]; intros nf s r s' H o Ho.
  - injection H as <- _. auto.
  - cbn [visit_uses] in H. apply bind_ok in H as (nf1 & s1 & Hu & H).
    destruct (IH _ _ _ _ H o Ho) as [Hnf|(u & Hu' & Hou)].
    + destruct (visit_user_frontier _ _ _ _ _ Hu o Hnf) as [?|?]; [auto|].
      right. exists user. cbn. auto.
    + right. exists u. cbn. auto.
Qed.

Lemma visit_frontier_frontier frontier : forall nf s r s',
  visit_frontier getOperator sentinel g ctx frontier nf s = (Ok r, s') ->
  forall o, In o r ->
    In o nf \/ exists v user, In v frontier /\ In user (uses g v) /\ In o (n_outputs user).
Proof.
  induction frontier as [|v rest IH]; intros nf s r s' H o Ho.
  - injection H as <- _. auto.
  - cbn [visit_frontier] in H. apply bind_ok in H as (nf1 & s1 & Hu & H).
    destruct (IH _ _ _ _ H o Ho) as [Hnf|(w & u & Hw & Hu' & Hou)].
    + destruct (visit_uses_frontier _ _ _ _ _ Hu o Hnf) as [?|(u & Hu' & Hou)]; [auto|].
      right. exists v, u. cbn. auto.
    + right. exists w, u. cbn. auto.
Qed.

(** Round [k] of the loop only holds values of rank at least [k], so the
    loop is over after [bound + 1] rounds. *)
Lemma propagate_terminates rank bound :
  ranked g rank bound ->
  forall fuel k frontier s,
    (forall v, In v frontier -> (k <= rank v)%nat) ->
    (bound < fuel + k)%nat ->
    is_Some (propagate getOperator sentinel g ctx fuel frontier s).
Proof.
  intros [Hup Hbound]. induction fuel as [|fuel IH]; intros k frontier s Hk Hfuel.
  - destruct frontier as [|v frontier]; [cbn; eauto|].
    exfalso. specialize (Hk v (or_introl eq_refl)). specialize (Hbound v). lia.
  - destruct frontier as [|v frontier]; [cbn; eauto|].
    cbn [propagate].
    destruct (visit_frontier _ _ _ _ (v :: frontier) [] s) as [[nf|e] s1] eqn:Hv;
      [|eauto].
    apply (IH (S k)); [|lia].
    intros o Ho.
    destruct (visit_frontier_frontier _ _ _ _ _ Hv o Ho) as [[]|(w & u & Hw & Hu & Hou)].
    specialize (Hk w Hw). specialize (Hup w u o Hu Hou). lia.
Qed.

(** More fuel does not change a result. *)
Lemma propagate_more_fuel fuel : forall frontier s r,
  propagate getOperator sentinel g ctx fuel frontier s = Some r ->
  forall fuel', (fuel <= fuel')%nat ->
    propagate getOperator sentinel g ctx fuel' frontier s = Some r.
Proof.
  induction fuel as [|fuel IH]; intros frontier s r H fuel' Hle.
  - destruct frontier; [|discriminate]. destruct fuel'; exact H.
  - destruct fuel' as [|fuel']; [lia|].
    destruct frontier as [|v frontier]; [exact H|].
    cbn [propagate] in *.
    destruct (visit_frontier _ _ _ _ (v :: frontier) [] s) as [[nf|e] s1]; [|exact H].
    apply IH; [exact H|lia].
Qed.
End Frontier.

(** X3: on a graph whose values can be ranked so that every output of a
    node ranks above the values the node uses (an acyclic graph), the loop
    of lines 135-190 ends: with more rounds allowed than the highest rank
    the translation returns or throws, and allowing still more rounds
    gives the same result. *)
Theorem translation_of_a_ranked_graph_ends
    getOperator sentinel g ctx rank bound fuel input_values types next_var :
  ranked g rank bound ->
  (bound < fuel)%nat ->
  exists r,
    convertToRelay_Graph getOperator sentinel g ctx fuel input_values types next_var
      = Some r /\
    forall fuel', (fuel <= fuel')%nat ->
      convertToRelay_Graph getOperator sentinel g ctx fuel' input_values types next_var
        = Some r.
Proof.
  intros Hranked Hfuel. unfold convertToRelay_Graph.
  destruct (seed_inputs _ _ _ _) as [[[]|e] s1]; [|eauto].
  destruct (propagate_terminates getOperator sentinel g ctx rank bound Hranked
              fuel 0 (g_inputs g) s1) as [[r s2] Hp].
  { intros; lia. }
  { lia. }
  rewrite Hp.
  exists (match r with Ok _ => assemble g s2 | Throw e => (Throw e, s2) end).
  split; [destruct r as [[]|]; reflexivity|].
  intros fuel' Hle.
  rewrite (propagate_more_fuel _ _ _ _ _ _ _ _ Hp fuel' Hle).
  destruct r as [[]|]; reflexivity.
Qed.

Lemma stable_bind {A B} (m : M State A) (k : A -> M State B) :
  stable m -> (forall a, stable (k a)) -> stable (bind m k).
Proof.
  intros Hm Hk st r st' H. unfold bind in H.
  destruct (m st) as [[a|e] s1] eqn:Hms.
  - destruct (Hm _ _ _ Hms) as (H1 & H2 & H3).
    destruct (Hk a _ _ _ H) as (H4 & H5 & H6). repeat split; congruence.
  - injection H as <- <-. eapply Hm; exact Hms.
Qed.

Lemma stable_pure {A} (m : M State A) : (forall st, snd (m st) = st) -> stable m.
Proof.
  intros Hm st r st' H. specialize (Hm st). rewrite H in Hm. cbn in Hm. subst. auto.
Qed.

Lemma stable_emit ev : stable (modify (emit ev)).
Proof. intros st r st' [= <- <-]. auto. Qed.

Lemma stable_cache_at spec : stable (cache_at spec).
Proof.
  intros st r st' H. unfold cache_at in H.
  destruct (cache_ (self st) !! spec); injection H as <- <-; auto.
Qed.

Lemma stable_call E f ev : stable (call E f ev).
Proof.
  intros st r st' H.
  apply call_effect in H as [(_ & _ & ->)|(rm & _ & -> & _)]; auto.
Qed.

Ltac stable_step :=
  first
    [ apply stable_emit
    | apply stable_cache_at
    | apply stable_call
    | apply stable_pure; intros; reflexivity
    | apply stable_bind; [|intros]
    | match goal with
      | |- stable (match ?x with _ => _ end) => destruct x
      end ].

Lemma bind_input_stable E spec i value v2i : stable (bind_input E spec i value v2i).
Proof. unfold bind_input. repeat stable_step. Qed.

Lemma bind_inputs_stable E spec values : forall i v2i,
  stable (bind_inputs E spec i values v2i).
Proof.
  induction values as [|v vs IH]; intros i v2i; cbn [bind_inputs].
  - apply stable_pure. reflexivity.
  - apply stable_bind; [apply bind_input_stable|intros; apply IH].
Qed.

(** The loop of lines 318-325 pushes one tensor per declared output. *)
Lemma push_outputs_ok E spec outputs : forall i st st',
  push_outputs E spec i outputs st = (Ok tt, st') ->
  exists outs, length outs = length outputs /\
    stack st' = stack st ++ map ITensor outs /\
    value_types st' = value_types st /\ var_addr st' = var_addr st.
Proof.
  induction outputs as [|o outputs IH]; intros i st st' H.
  - injection H as <-. exists []. rewrite app_nil_r. auto.
  - cbn [push_outputs] in H.
    apply bind_ok in H as (entry & s1 & Hc & H).
    apply stable_cache_at in Hc as (Hs1 & Ht1 & Ha1).
    apply bind_ok in H as (s2 & s2' & [= <- <-] & H).
    apply bind_ok in H as (rm & s3 & Hcall & H).
    apply stable_call in Hcall as (Hs3 & Ht3 & Ha3).
    apply bind_ok in H as ([] & s4 & [= <-] & H).
    apply IH in H as (outs & Hlen & Hstack & Hty & Hadr).
    exists (get_output_tensor E rm (trace s1) i :: outs).
    cbn [length map]. split; [lia|].
    cbn in Hstack, Hty, Hadr.
    rewrite Hstack, Hty, Hadr, Hs3, Hs1, Ht3, Ht1, Ha3, Ha1, <- app_assoc. auto.
Qed.

Lemma execute_ok E spec v2i st st' :
  execute E spec v2i st = (Ok tt, st') ->
  exists outs, length outs = length (g_outputs (subgraph_ (self st))) /\
    stack st' = take (length (stack st) - length (g_inputs (subgraph_ (self st)))) (stack st)
                  ++ map ITensor outs /\
    value_types st' = value_types st /\ var_addr st' = var_addr st.
Proof.
  unfold execute. intros H.
  apply bind_ok in H as (s0 & s0' & [= <- <-] & H).
  apply bind_ok in H as (entry & s1 & Hc & H).
  apply stable_cache_at in Hc as (Hs1 & Ht1 & Ha1).
  apply bind_ok in H as ([] & s2 & Hb & H).
  apply bind_inputs_stable in Hb as (Hs2 & Ht2 & Ha2).
  apply bind_ok in H as (entry2 & s3 & Hc & H).
  apply stable_cache_at in Hc as (Hs3 & Ht3 & Ha3).
  apply bind_ok in H as (rm & s4 & Hcall & H).
  apply stable_call in Hcall as (Hs4 & Ht4 & Ha4).
  apply bind_ok in H as ([] & s5 & [= <-] & H).
  apply push_outputs_ok in H as (outs & Hlen & Hstack & Hty & Hadr).
  exists outs. split; [exact Hlen|].
  cbn in Hstack, Hty, Hadr.
  rewrite Hstack, Hty, Hadr, Hs4, Hs3, Hs2, Hs1, Ht4, Ht3, Ht2, Ht1, Ha4, Ha3, Ha2, Ha1. auto.
Qed.

Lemma last_ok stack n inputs :
  last stack n = Ok inputs ->
  length inputs = n /\ stack = take (length stack - n) stack ++ inputs.
Proof.
  unfold last. destruct (Nat.leb_spec n (length stack)); [|discriminate].
  intros [= <-]. split; [rewrite length_drop; lia|symmetry; apply take_drop].
Qed.

(** X4: an invocation that hits the cache and returns replaces the
    declared inputs on top of the stack by one tensor per declared output
    and leaves the stack below them, the object (its cache included) and
    the types of the graph's values as they were. *)
Theorem cache_hit_replaces_inputs_by_outputs E fuel st inputs o st' :
  last (stack st) (length (g_inputs (subgraph_ (self st)))) = Ok inputs ->
  cache_ (self st) !! CompleteArgumentSpec inputs = Some o ->
  run E fuel st = Some (Ok tt, st') ->
  exists below outs,
    stack st = below ++ inputs /\
    stack st' = below ++ map ITensor outs /\
    length outs = length (g_outputs (subgraph_ (self st))) /\
    self st' = self st /\ value_types st' = value_types st.
Proof.
  intros Hlast Hhit Hrun. unfold run in Hrun. rewrite Hlast, Hhit in Hrun.
  injection Hrun as Hex.
  pose proof (execute_effect _ _ _ _ _ _ Hex) as [_ Hself].
  apply execute_ok in Hex as (outs & Hlen & Hstack & Hty & _).
  apply last_ok in Hlast as [_ Hsplit].
  eexists _, outs. split; [exact Hsplit|]. split; [exact Hstack|].
  split; [exact Hlen|]. split; [apply Hself; rewrite Hhit; eauto|exact Hty].
Qed.

(** Lines 244-247 on distinct graph inputs: each is bound to the value at
    its position. *)
Lemma bind_graph_inputs_other values : forall inputs (m : gmap Value IValue) v,
  ~ In v values -> bind_graph_inputs values inputs m !! v = m !! v.
Proof.
  induction values as [|w values IH]; intros inputs m v Hv; [reflexivity|].
  destruct inputs as [|iv inputs]; [reflexivity|]. cbn [bind_graph_inputs].
  rewrite IH by (intros H; apply Hv; right; exact H).
  apply lookup_insert_ne. intros ->. apply Hv. left. reflexivity.
Qed.

Lemma bind_graph_inputs_lookup values : forall inputs (m : gmap Value IValue) k v iv,
  NoDup values ->
  values !! k = Some v -> inputs !! k = Some iv ->
  bind_graph_inputs values inputs m !! v = Some iv.
Proof.
  induction values as [|w values IH]; intros inputs m k v iv Hnd Hv Hiv; [discriminate|].
  destruct inputs as [|iw inputs]; [discriminate|].
  apply NoDup_cons in Hnd as [Hw Hnd]. cbn [bind_graph_inputs].
  destruct k as [|k].
  - injection Hv as <-. injection Hiv as <-.
    rewrite bind_graph_inputs_other by (rewrite <- list_elem_of_In; exact Hw).
    apply lookup_insert_eq.
  - eapply IH; eassumption.
Qed.

Lemma infer_types_not_a_tensor kvs : forall st,
  Exists (fun kv => isTensor (snd kv) = false) kvs ->
  exists st', infer_types kvs st = (Throw NotATensor, st').
Proof.
  induction kvs as [|[v iv] kvs IH]; intros st H; [inversion H|].
  cbn [infer_types]. unfold bind at 1, lift at 1.
  destruct iv as [| | | | |t| | | |]; cbn [toTensor]; eauto.
  unfold bind at 1. cbn [modify]. apply IH.
  inversion H as [? ? Hhd|? ? Htl]; subst; [discriminate Hhd|exact Htl].
Qed.

(** X5: on a cache miss, a declared input that is not a tensor makes the
    invocation throw from [toTensor] at line 253, before the [try] block:
    in strict and non-strict mode alike nothing is translated, the
    interpreter is not run, no cache entry is made and the stack is
    untouched. *)
Theorem non_tensor_input_is_not_caught E fuel st inputs k iv :
  last (stack st) (length (g_inputs (subgraph_ (self st)))) = Ok inputs ->
  cache_ (self st) !! CompleteArgumentSpec inputs = None ->
  NoDup (g_inputs (subgraph_ (self st))) ->
  inputs !! k = Some iv ->
  isTensor iv = false ->
  exists st',
    run E fuel st = Some (Throw NotATensor, st') /\
    self st' = self st /\ stack st' = stack st /\ trace st' = trace st.
Proof.
  intros Hlast Hmiss Hnd Hk Hiv.
  destruct (last_ok _ _ _ Hlast) as [Hlen _].
  assert (Hkv : exists v, g_inputs (subgraph_ (self st)) !! k = Some v).
  { apply lookup_lt_is_Some. rewrite <- Hlen. apply lookup_lt_is_Some. eauto. }
  destruct Hkv as [v Hv].
  pose proof (bind_graph_inputs_lookup _ _ ∅ _ _ _ Hnd Hv Hk) as Hbound.
  destruct (infer_types_not_a_tensor
              (map_to_list (bind_graph_inputs (g_inputs (subgraph_ (self st))) inputs ∅)) st)
    as [st' Hinf].
  { apply Exists_exists. exists (v, iv). split; [|exact Hiv].
    apply elem_of_map_to_list. exact Hbound. }
  exists st'. unfold run. rewrite Hlast, Hmiss. unfold compile. rewrite Hinf.
  split; [reflexivity|].
  apply infer_types_effect in Hinf as (Hs & Hst & Htr & _). auto.
Qed.

(** Lines 272-292 when the runtime reports another number of outputs:
    the four functions are stored before the check throws. *)
Lemma build_and_store_mismatch E spec f st o lib rm :
  cache_ (self st) !! spec = Some o ->
  build E f (device_type (ctx_ (self st))) (device_ (self st)) (host_ (self st)) = Ok lib ->
  registry E "tvm.graph_runtime.create" = true ->
  graph_runtime_create E lib (ctx_ (self st)) = Ok rm ->
  Z.of_nat (length (g_outputs (subgraph_ (self st)))) <> rm_num_outputs rm ->
  exists st',
    build_and_store E spec f st
      = (Throw (MismatchingNumOutputs
                  (Z.of_nat (length (g_outputs (subgraph_ (self st)))))
                  (rm_num_outputs rm)), st') /\
    stack st' = stack st /\
    trace st' = trace st ++ [EvBuild f] /\
    cache_ (self st') !! spec
      = Some (TVMObject.mk (Some rm) (Some rm) (Some rm) (Some rm)
                (TVMObject.input_values o)).
Proof.
  intros Ho Hbuild Hreg Hcreate Hne. unfold build_and_store.
  rewrite (bind_eq get _ st st st eq_refl).
  rewrite (bind_eq (modify (emit (EvBuild f))) _ st tt (emit (EvBuild f) st) eq_refl).
  rewrite (bind_eq (lift _) _ _ lib (emit (EvBuild f) st))
    by (unfold lift; rewrite Hbuild; reflexivity).
  rewrite Hreg.
  rewrite (bind_eq (ret tt) _ _ tt (emit (EvBuild f) st) eq_refl).
  rewrite (bind_eq (lift _) _ _ rm (emit (EvBuild f) st))
    by (unfold lift; rewrite Hcreate; reflexivity).
  erewrite (bind_eq (cache_update _ _)); [|apply cache_update_hit; exact Ho].
  erewrite (bind_eq (cache_update _ _));
    [|apply cache_update_hit; cbn [self set_self with_cache cache_ emit];
      apply lookup_insert_eq].
  erewrite (bind_eq (cache_update _ _));
    [|apply cache_update_hit; cbn [self set_self with_cache cache_ emit];
      apply lookup_insert_eq].
  erewrite (bind_eq (cache_update _ _));
    [|apply cache_update_hit; cbn [self set_self with_cache cache_ emit];
      apply lookup_insert_eq].
  destruct (decide _) as [Heq|_]; [contradiction|].
  eexists. split; [reflexivity|].
  cbn [self set_self with_cache cache_ emit stack trace].
  split; [reflexivity|]. split; [reflexivity|]. apply lookup_insert_eq.
Qed.

(** X6: when the runtime reports a number of outputs other than the
    declared one, the invocation throws the error of line 290 with the
    stack untouched, after one translation and one build; the cache keeps
    the entry with all four functions stored (lines 284-287 run before the
    check), so a later invocation with the same signature finds it. *)
Theorem output_count_mismatch_keeps_the_entry E fuel st inputs f lib rm :
  cache_ (self st) !! CompleteArgumentSpec inputs = None ->
  translation E fuel st inputs (Ok f) ->
  build E f (device_type (ctx_ (self st))) (device_ (self st)) (host_ (self st)) = Ok lib ->
  registry E "tvm.graph_runtime.create" = true ->
  graph_runtime_create E lib (ctx_ (self st)) = Ok rm ->
  Z.of_nat (length (g_outputs (subgraph_ (self st)))) <> rm_num_outputs rm ->
  exists st' values,
    run E fuel st
      = Some (Throw (MismatchingNumOutputs
                       (Z.of_nat (length (g_outputs (subgraph_ (self st)))))
                       (rm_num_outputs rm)), st') /\
    stack st' = stack st /\
    trace st' = trace st ++ [EvConvertToRelay (CompleteArgumentSpec inputs); EvBuild f] /\
    cache_ (self st') !! CompleteArgumentSpec inputs
      = Some (TVMObject.mk (Some rm) (Some rm) (Some rm) (Some rm) values).
Proof.
  intros Hmiss (Hlast & st1 & ts & Hinfer & Htr) Hbuild Hreg Hcreate Hne.
  destruct (infer_types_effect _ _ _ _ Hinfer) as (Hself & Hstack & Htrace & Haddr).
  unfold run. rewrite Hlast, Hmiss. unfold compile. rewrite Hinfer.
  unfold cache_at. rewrite Hself, Hmiss. unfold translate.
  cbn [self emit set_self with_cache subgraph_ ctx_ value_types var_addr TVMObject.input_values
       TVMObject.default].
  rewrite Hself, Haddr.
  cbn [subgraph_ ctx_ with_cache]. rewrite Htr.
  match goal with
  | |- context [build_and_store E ?spec f ?s4] =>
      destruct (build_and_store_mismatch E spec f s4
                  (TVMObject.with_input_values (default [] (input_values ts)) TVMObject.default)
                  lib rm)
        as (st' & Hb & Hbs & Hbt & Hbc)
  end.
  { cbn [self set_self with_cache cache_ set_var_addr set_value_types emit].
    apply lookup_insert_eq. }
  { cbn [self set_self with_cache cache_ set_var_addr set_value_types emit ctx_ device_ host_].
    rewrite Hself. exact Hbuild. }
  { exact Hreg. }
  { cbn [self set_self with_cache cache_ set_var_addr set_value_types emit ctx_ device_ host_].
    rewrite Hself. exact Hcreate. }
  { cbn [self set_self with_cache cache_ set_var_addr set_value_types emit subgraph_].
    rewrite Hself. exact Hne. }
  cbn [self set_self with_cache cache_ set_var_addr set_value_types emit subgraph_ stack trace]
    in Hb, Hbs, Hbt, Hbc.
  rewrite Hself in Hb. rewrite Hb.
  exists st', (default [] (input_values ts)).
  split; [reflexivity|]. split; [rewrite Hbs; exact Hstack|].
  split; [rewrite Hbt, Htrace, <- app_assoc; reflexivity|exact Hbc].
Qed.

(** X7: the constant translator throws the error of line 112 on every
    value that is not a double, an integer, a boolean, none or a list of
    integers; on those five kinds its only errors are the range errors;
    and a boolean always becomes the [bool] constant holding it. *)
Theorem constant_kinds (sentinel : Z) (ctx : DLContext) :
  (forall v, ~ is_translatable_constant v ->
     convertToRelay_IValue sentinel v ctx = Throw CannotConvertValue) /\
  (forall v e, is_translatable_constant v ->
     convertToRelay_IValue sentinel v ctx = Throw e -> is_range_error e) /\
  (forall b, convertToRelay_IValue sentinel (IBool b) ctx
             = Ok (EConstant (mkNDArray [] tvm.Bool ctx (ElBool b)))).
Proof.
  repeat apply conj.
  - intros v Hv. destruct v; cbn in Hv; try tauto; reflexivity.
  - intros v e Hv H. destruct v; cbn in Hv; try tauto; cbn [convertToRelay_IValue] in H.
    + destruct (negb _); [injection H as <-; exact I|].
      destruct (negb _); [injection H as <-; exact I|discriminate].
    + unfold int32_constant in H.
      destruct (negb _); [injection H as <-; exact I|].
      destruct (negb _); [injection H as <-; exact I|discriminate].
    + discriminate.
    + discriminate.
    + destruct (int32_constants l ctx) as [es|e'] eqn:Hes; [discriminate|].
      injection H as <-. revert e' Hes.
      induction l as [|z l IH]; intros e' Hes; cbn [int32_constants] in Hes; [discriminate|].
      destruct (int32_constant z ctx) as [c|e0] eqn:Hc.
      * destruct (int32_constants l ctx) as [cs|e1]; [discriminate|].
        injection Hes as <-. apply IH. reflexivity.
      * injection Hes as <-. unfold int32_constant in Hc.
        destruct (negb _); [injection Hc as <-; exact I|].
        destruct (negb _); [injection Hc as <-; exact I|discriminate].
  - reflexivity.
Qed.

Lemma constant_kinds_witness :
  convertToRelay_IValue 0 (IString "mean") Demo.cpu = Throw CannotConvertValue /\
  convertToRelay_IValue 0 (ITensor Demo.t22) Demo.cpu = Throw CannotConvertValue.
Proof.
  destruct (constant_kinds 0 Demo.cpu) as (H & _ & _).
  split; apply H; intros [].
Defined.

(** X8: when the walk has ended and a declared output has no translation
    (the outputs before it having one), the translation throws the
    assertion of line 196 for that output; this is how a node that was
    skipped for an unresolved input surfaces. *)
Theorem unresolved_output_is_reported getOperator sentinel g ctx fuel
    input_values types next_var s1 s2 resolved o rest fields :
  seed_inputs g ctx (g_inputs g) (start_state input_values types next_var) = (Ok tt, s1) ->
  propagate getOperator sentinel g ctx fuel (g_inputs g) s1 = Some (Ok tt, s2) ->
  g_outputs g = resolved ++ o :: rest ->
  Forall2 (fun o' e => value_map s2 !! o' = Some e) resolved fields ->
  value_map s2 !! o = None ->
  convertToRelay_Graph getOperator sentinel g ctx fuel input_values types next_var
    = Some (Throw (OutputNotInValueMap o), s2).
Proof.
  intros Hseed Hwalk Hout Hres Hnone.
  unfold convertToRelay_Graph. rewrite Hseed, Hwalk. f_equal.
  unfold assemble. rewrite Hout.
  assert (Hcollect : forall acc,
            collect_outputs (resolved ++ o :: rest) acc s2
              = (Throw (OutputNotInValueMap o), s2)).
  { clear Hout. induction Hres as [|o' e resolved' fields' He _ IH]; intros acc.
    - cbn [app collect_outputs]. unfold bind at 1. cbn [get]. rewrite Hnone. reflexivity.
    - cbn [app collect_outputs]. unfold bind at 1. cbn [get]. rewrite He. apply IH. }
  unfold bind at 1. rewrite Hcollect. reflexivity.
Qed.







Lemma bind_graph_inputs_is_Some values : forall inputs (m : gmap Value IValue) v,
  length inputs = length values ->
  In v values \/ is_Some (m !! v) ->
  is_Some (bind_graph_inputs values inputs m !! v).
Proof.
  induction values as [|w values IH]; intros inputs m v Hlen Hv.
  - destruct Hv as [[]|Hv]. destruct inputs; exact Hv.
  - destruct inputs as [|iv inputs]; [discriminate|]. cbn [bind_graph_inputs].
    apply IH; [cbn in Hlen; lia|].
    destruct (decide (w = v)) as [->|Hne].
    + right. rewrite lookup_insert_eq. eauto.
    + destruct Hv as [[Hv|Hv]|Hv]; [contradiction|left; exact Hv|].
      right. rewrite lookup_insert_ne by exact Hne. exact Hv.
Qed.



Lemma bind_outputs_map tuple outputs : forall index nf s,
  NoDup outputs ->
  exists s',
    bind_outputs tuple outputs index nf s = (Ok (nf ++ outputs), s') /\
    (forall k o, outputs !! k = Some o ->
       value_map s' !! o = Some (ETupleGetItem tuple (index + Z.of_nat k))) /\
    (forall v, ~ In v outputs -> value_map s' !! v = value_map s !! v).
Proof.
  induction outputs as [|output rest IH]; intros index nf s Hnd.
  - exists s. rewrite app_nil_r. split; [reflexivity|]. split; [discriminate|auto].
  - apply NoDup_cons in Hnd as [Hout Hnd]. cbn [bind_outputs].
    rewrite (bind_eq (modify _) _ s tt _ eq_refl).
    destruct (IH (index + 1) (nf ++ [output])
                (set_value_map (insert output (ETupleGetItem tuple index)) s) Hnd)
      as (s' & Hb & Hmap & Hother).
    exists s'. rewrite Hb, <- app_assoc. split; [reflexivity|]. split.
    + intros [|k] o Ho.
      * injection Ho as <-. rewrite Hother by (rewrite <- list_elem_of_In; exact Hout).
        cbn. rewrite lookup_insert_eq, Z.add_0_r. reflexivity.
      * rewrite (Hmap k o Ho). do 2 f_equal. lia.
    + intros v Hv. rewrite Hother by (intros H; apply Hv; right; exact H).
      cbn. apply lookup_insert_ne. intros ->. apply Hv. left. reflexivity.
Qed.

(** X9: for a node with two or more (distinct) outputs whose inputs all
    resolve, the operator is asked once for a tuple, the k-th output is
    translated as the k-th projection of that tuple, and all outputs join
    the next frontier in order. *)
Theorem multiple_outputs_are_projections getOperator sentinel g ctx user nf s s1
    args tuple :
  resolve_inputs sentinel g ctx (n_inputs user) [] s = (Ok (Some args), s1) ->
  getOperator user args = Ok tuple ->
  (2 <= length (n_outputs user))%nat ->
  NoDup (n_outputs user) ->
  exists s',
    visit_user getOperator sentinel g ctx user nf s = (Ok (nf ++ n_outputs user), s') /\
    forall k o, n_outputs user !! k = Some o ->
      value_map s' !! o = Some (ETupleGetItem tuple (Z.of_nat k)).
Proof.
  intros Hres Hop Hlen Hnd. unfold visit_user.
  rewrite (bind_eq _ _ _ _ _ Hres).
  destruct (n_outputs user) as [|o1 [|o2 rest]] eqn:Hout; cbn in Hlen; [lia|lia|].
  rewrite (bind_eq (lift _) _ s1 tuple s1) by (unfold lift; rewrite Hop; reflexivity).
  destruct (bind_outputs_map tuple (o1 :: o2 :: rest) 0 nf s1 Hnd) as (s' & Hb & Hmap & _).
  exists s'. split; [exact Hb|]. intros k o Ho. rewrite (Hmap k o Ho). reflexivity.
Qed.

Lemma wrap_int32_range (z : Z) :
  int32_lowest <= wrap_int32 z <= int32_max /\ (wrap_int32 z - z) mod 2 ^ 32 = 0.
Proof.
  unfold wrap_int32, int32_lowest, int32_max.
  pose proof (Z.mod_pos_bound (z + 2 ^ 31) (2 ^ 32) ltac:(lia)) as Hb.
  pose proof (Z.div_mod (z + 2 ^ 31) (2 ^ 32) ltac:(lia)) as Hdm.
  split; [lia|].
  replace ((z + 2 ^ 31) mod 2 ^ 32 - 2 ^ 31 - z)
    with (- ((z + 2 ^ 31) / 2 ^ 32) * 2 ^ 32) by lia.
  apply Z.mod_mul. lia.
Qed.

(** X11: a placeholder's dimensions are cast to [int32_t], not checked:
    for a value with a complete type of supported element type the
    translation returns a variable whose every dimension lies in the int32
    range and is congruent to the tensor's size modulo 2^32, equal to it
    when all sizes fit. *)
Theorem placeholder_sizes_are_cast_not_checked g val ctx s ct dt :
  toIValue g val = None ->
  types s !! val = Some ct ->
  scalarTypeToTVMType (ct_scalarType ct) = Ok dt ->
  exists v s',
    convertToRelay_Value g val ctx s = (Ok v, s') /\
    tt_dtype (type_annotation v) = dt /\
    Forall2 (fun d size => int32_lowest <= d <= int32_max /\ (d - size) mod 2 ^ 32 = 0)
      (tt_shape (type_annotation v)) (ct_sizes ct) /\
    (Forall (fun size => int32_lowest <= size <= int32_max) (ct_sizes ct) ->
       tt_shape (type_annotation v) = ct_sizes ct).
Proof.
  intros Hconst Hty Hdt. unfold convertToRelay_Value. rewrite Hconst.
  rewrite (bind_eq (ret tt) _ s tt s eq_refl).
  rewrite (bind_eq get _ s s s eq_refl). rewrite Hty.
  rewrite (bind_eq (lift _) _ s dt s) by (unfold lift; rewrite Hdt; reflexivity).
  unfold VarNode_make. do 2 eexists. split; [reflexivity|]. cbn.
  split; [reflexivity|]. split.
  - induction (ct_sizes ct) as [|z zs IH]; constructor; [apply wrap_int32_range|exact IH].
  - induction 1 as [|z zs Hz _ IH]; [reflexivity|].
    cbn. rewrite wrap_int32_id by exact Hz. rewrite IH. reflexivity.
Qed.

Lemma Demo_getOperator_closed : closed_operators Demo.getOperator.
Proof.
  intros n args e H x Hx. unfold Demo.getOperator in H.
  repeat (destruct (decide _); [injection H as <-; apply var_ids_call in Hx; exact Hx|]).
  discriminate.
Qed.

Lemma closed_operators_keep_free_vars_among_inputs_witness :
  exists p, In p (params DemoMore.relu_function) /\ var_id p = var_id DemoMore.x1.
Proof.
  destruct (closed_operators_keep_free_vars_among_inputs Demo.getOperator 0
              Demo.relu_graph Demo.cpu 5 (Some []) Demo.weight_types 0
              Demo_getOperator_closed (or_intror eq_refl)) as [H _].
  apply (H DemoMore.relu_function DemoMore.relu_translated).
  - vm_compute. reflexivity.
  - vm_compute. left. reflexivity.
Defined.

Lemma params_follow_input_values_witness :
  exists values,
    input_values DemoMore.relu_translated = Some values /\
    Forall2 (named_after Demo.relu_graph) (params DemoMore.relu_function) values /\
    NoDup (map var_id (params DemoMore.relu_function)) /\
    Forall (origin Demo.relu_graph) values.
Proof.
  apply (params_follow_input_values Demo.getOperator 0 Demo.relu_graph Demo.cpu 5
           Demo.weight_types 0).
  vm_compute. reflexivity.
Defined.

Lemma relu_graph_ranked : ranked Demo.relu_graph DemoMore.rank2 2.
Proof.
  split.
  - intros v user o Hu Ho. cbn in Hu. unfold Demo.unary_graph in Hu. cbn in Hu.
    destruct (decide (v = 1%nat)) as [->|_].
    + destruct Hu as [<-|[]]. destruct Ho as [<-|[]]. vm_compute. lia.
    + destruct (decide (v = 2%nat)) as [->|_]; [|destruct Hu].
      destruct Hu as [<-|[]]. destruct Ho.
  - intros v. unfold DemoMore.rank2. lia.
Qed.

Lemma translation_of_a_ranked_graph_ends_witness :
  exists r,
    convertToRelay_Graph Demo.getOperator 0 Demo.relu_graph Demo.cpu 3 (Some [])
      Demo.weight_types 0 = Some r /\
    forall fuel', (3 <= fuel')%nat ->
      convertToRelay_Graph Demo.getOperator 0 Demo.relu_graph Demo.cpu fuel' (Some [])
        Demo.weight_types 0 = Some r.
Proof.
  apply (translation_of_a_ranked_graph_ends Demo.getOperator 0 Demo.relu_graph Demo.cpu
           DemoMore.rank2 2 3 (Some []) Demo.weight_types 0 relu_graph_ranked).
  lia.
Defined.

Lemma cache_hit_replaces_inputs_by_outputs_witness :
  exists below outs,
    [ITensor Demo.t22] = below ++ [ITensor Demo.t22] /\
    stack DemoRuns.relu_twice = below ++ map ITensor outs /\
    length outs = 1%nat.
Proof.
  assert (H1 : last (stack (DemoRuns.on_stack [ITensor Demo.t22] DemoRuns.relu_once))
                 (length (g_inputs (subgraph_
                    (self (DemoRuns.on_stack [ITensor Demo.t22] DemoRuns.relu_once)))))
               = Ok [ITensor Demo.t22]) by (vm_compute; reflexivity).
  assert (H2 : cache_ (self (DemoRuns.on_stack [ITensor Demo.t22] DemoRuns.relu_once))
                 !! CompleteArgumentSpec [ITensor Demo.t22] = Some DemoMore.entry7)
    by (vm_compute; reflexivity).
  assert (H3 : run Demo.ext 5 (DemoRuns.on_stack [ITensor Demo.t22] DemoRuns.relu_once)
               = Some (Ok tt, DemoRuns.relu_twice)) by (vm_compute; reflexivity).
  destruct (cache_hit_replaces_inputs_by_outputs Demo.ext 5 _ _ _ _ H1 H2 H3)
    as (below & outs & Hb & Hs & Hl & _ & _).
  exists below, outs. split; [exact Hb|]. split; [exact Hs|].
  rewrite Hl. vm_compute. reflexivity.
Defined.

Lemma non_tensor_input_is_not_caught_witness :
  exists st',
    run Demo.ext 5 (Demo.initial false Demo.relu_graph [IInt 3]) = Some (Throw NotATensor, st') /\
    self st' = self (Demo.initial false Demo.relu_graph [IInt 3]) /\
    stack st' = [IInt 3] /\ trace st' = [].
Proof.
  apply (non_tensor_input_is_not_caught Demo.ext 5
           (Demo.initial false Demo.relu_graph [IInt 3]) [IInt 3] 0 (IInt 3)).
  - reflexivity.
  - reflexivity.
  - apply NoDup_singleton.
  - reflexivity.
  - reflexivity.
Defined.

Lemma translation_miscount :
  translation DemoMore.ext_miscount 5 DemoMore.miscount_start [ITensor Demo.t22]
    (Ok DemoMore.relu_function).
Proof. apply translation_result_sound. vm_compute. reflexivity. Qed.

Lemma output_count_mismatch_keeps_the_entry_witness :
  exists st' values,
    run DemoMore.ext_miscount 5 DemoMore.miscount_start
      = Some (Throw (MismatchingNumOutputs 1 2), st') /\
    stack st' = [ITensor Demo.t22] /\
    trace st' = [EvConvertToRelay DemoRuns.sig22; EvBuild DemoMore.relu_function] /\
    cache_ (self st') !! DemoRuns.sig22
      = Some (TVMObject.mk (Some (DemoMore.rm7 2)) (Some (DemoMore.rm7 2))
                (Some (DemoMore.rm7 2)) (Some (DemoMore.rm7 2)) values).
Proof.
  apply (output_count_mismatch_keeps_the_entry DemoMore.ext_miscount 5
           DemoMore.miscount_start [ITensor Demo.t22] DemoMore.relu_function
           (mkCompiledLib "{}" DemoMore.relu_function) (DemoMore.rm7 2)).
  - reflexivity.
  - apply translation_miscount.
  - reflexivity.
  - reflexivity.
  - reflexivity.
  - vm_compute. discriminate.
Defined.

Lemma unresolved_output_is_reported_witness :
  convertToRelay_Graph Demo.getOperator 0 DemoMore.dangling_graph Demo.cpu 5
    None Demo.weight_types 0
  = Some (Throw (OutputNotInValueMap 2%nat), DemoMore.dangling_seeded).
Proof.
  apply (unresolved_output_is_reported Demo.getOperator 0 DemoMore.dangling_graph Demo.cpu 5
           None Demo.weight_types 0 DemoMore.dangling_seeded DemoMore.dangling_seeded
           [] 2%nat [] []).
  - vm_compute. reflexivity.
  - vm_compute. reflexivity.
  - reflexivity.
  - constructor.
  - vm_compute. reflexivity.
Defined.

Lemma multiple_outputs_are_projections_witness :
  exists s',
    visit_user Demo.getOperator 0 DemoMore.split_graph Demo.cpu DemoMore.split_node []
      DemoMore.split_seeded = (Ok [2%nat; 3%nat], s') /\
    forall k o, [2%nat; 3%nat] !! k = Some o ->
      value_map s' !! o
        = Some (ETupleGetItem (ECall "add" [EVar DemoMore.x1]) (Z.of_nat k)).
Proof.
  apply (multiple_outputs_are_projections Demo.getOperator 0 DemoMore.split_graph Demo.cpu
           DemoMore.split_node [] DemoMore.split_seeded DemoMore.split_seeded
           [EVar DemoMore.x1] (ECall "add" [EVar DemoMore.x1])).
  - vm_compute. reflexivity.
  - vm_compute. reflexivity.
  - cbn. lia.
  - cbn. apply NoDup_cons. split; [|apply NoDup_singleton].
    intros H. apply list_elem_of_In in H. destruct H as [H|[]]. discriminate H.
Defined.



Lemma placeholder_sizes_are_cast_not_checked_witness :
  exists v s',
    convertToRelay_Value Demo.relu_graph 1%nat Demo.cpu
      (start_state None DemoMore.huge_types 0) = (Ok v, s') /\
    tt_dtype (type_annotation v) = tvm.Float 32 /\
    Forall2 (fun d size => int32_lowest <= d <= int32_max /\ (d - size) mod 2 ^ 32 = 0)
      (tt_shape (type_annotation v)) [2; 2 ^ 32 + 5] /\
    (Forall (fun size => int32_lowest <= size <= int32_max) [2; 2 ^ 32 + 5] ->
       tt_shape (type_annotation v) = [2; 2 ^ 32 + 5]).
Proof.
  apply (placeholder_sizes_are_cast_not_checked Demo.relu_graph 1%nat Demo.cpu
           (start_state None DemoMore.huge_types 0)
           (mkCompleteTensorType Float [2; 2 ^ 32 + 5]) (tvm.Float 32)).
  - reflexivity.
  - vm_compute. reflexivity.
  - vm_compute. reflexivity.
Defined.

(** ** Narrowing a double to a float *)

Lemma shr_1_m (mrs : shr_record) :
  0 <= shr_m mrs -> shr_m (shr_1 mrs) = shr_m mrs / 2.
Proof.
  destruct mrs as [m r s]. cbn [shr_m]. intros Hm.
  rewrite <- Z.div2_div.
  destruct m as [|[p|p|]|p]; cbn [shr_1 shr_m Z.div2 Pos.div2]; try reflexivity; lia.
Qed.

Lemma div_pow2_twice (m a b : Z) :
  0 <= a -> 0 <= b -> m / 2 ^ a / 2 ^ b = m / 2 ^ (a + b).
Proof.
  intros Ha Hb. rewrite Z.pow_add_r by assumption.
  apply Z.div_div; [apply Z.pow_nonzero; lia|apply Z.pow_pos_nonneg; lia].
Qed.

(** [p] right shifts of a non-negative mantissa divide it by [2^p]. *)
Lemma iter_shr_1_m (p : positive) : forall mrs : shr_record,
  0 <= shr_m mrs ->
  shr_m (SpecFloat.iter_pos shr_1 p mrs) = shr_m mrs / 2 ^ Z.pos p.
Proof.
  assert (Hdivnn : forall m k, 0 <= m -> 0 <= k -> 0 <= m / 2 ^ k).
  { intros m k Hm Hk. apply Z.div_pos; [exact Hm|apply Z.pow_pos_nonneg; lia]. }
  induction p as [p IH|p IH|]; intros mrs Hm; cbn [SpecFloat.iter_pos].
  - pose proof (shr_1_m mrs Hm) as H1.
    assert (Hm1 : 0 <= shr_m (shr_1 mrs)) by (rewrite H1; apply Z.div_pos; lia).
    pose proof (IH _ Hm1) as H2.
    assert (Hm2 : 0 <= shr_m (SpecFloat.iter_pos shr_1 p (shr_1 mrs)))
      by (rewrite H2; apply Hdivnn; [exact Hm1|lia]).
    replace (Z.pos p~1) with (1 + Z.pos p + Z.pos p) by lia.
    rewrite (IH _ Hm2), H2, H1. change 2 with (2 ^ 1) at 1.
    rewrite <- !div_pow2_twice by lia. reflexivity.
  - pose proof (IH _ Hm) as H2.
    assert (Hm2 : 0 <= shr_m (SpecFloat.iter_pos shr_1 p mrs))
      by (rewrite H2; apply Hdivnn; [exact Hm|lia]).
    replace (Z.pos p~0) with (Z.pos p + Z.pos p) by lia.
    rewrite (IH _ Hm2), H2. rewrite <- div_pow2_twice by lia. reflexivity.
  - change (2 ^ 1) with 2. apply shr_1_m, Hm.
Qed.

Lemma shr_right (mrs : shr_record) (e n : Z) :
  0 < n -> 0 <= shr_m mrs ->
  exists mrs', shr mrs e n = (mrs', e + n) /\ shr_m mrs' = shr_m mrs / 2 ^ n.
Proof.
  intros Hn Hm. destruct n as [|p|p]; try lia.
  eexists. split; [reflexivity|]. apply iter_shr_1_m, Hm.
Qed.

Lemma shr_none (mrs : shr_record) (e n : Z) : n <= 0 -> shr mrs e n = (mrs, e).
Proof. intros Hn. destruct n as [|p|p]; try lia; reflexivity. Qed.

Lemma shl_align_none (m : positive) (e e' : Z) : e <= e' -> shl_align m e e' = (m, e).
Proof.
  intros He. unfold shl_align. destruct (e' - e) as [|p|p] eqn:E; try lia; reflexivity.
Qed.

Lemma round_nearest_even_bounds (m : Z) (l : location) :
  m <= round_nearest_even m l <= m + 1.
Proof.
  destruct l as [|[| |]]; cbn [round_nearest_even]; try lia.
  destruct (Z.even m); lia.
Qed.

Lemma binary_round_aux_eq (prec emax : Z) (sx : bool) (mx ex : Z) (lx : location) :
  binary_round_aux prec emax sx mx ex lx =
  let p1 := shr_fexp prec emax mx ex lx in
  let p2 := shr_fexp prec emax
              (round_nearest_even (shr_m (fst p1)) (loc_of_shr_record (fst p1)))
              (snd p1) loc_Exact in
  match shr_m (fst p2) with
  | Z0 => S754_zero sx
  | Zpos m => if Z.leb (snd p2) (emax - prec) then S754_finite sx m (snd p2)
              else S754_infinity sx
  | _ => S754_nan
  end.
Proof.
  unfold binary_round_aux.
  destruct (shr_fexp prec emax mx ex lx) as [mrs' e'].
  cbn [fst snd].
  destruct (shr_fexp prec emax _ e' loc_Exact) as [mrs'' e'']. reflexivity.
Qed.

Lemma Zdigits2_bounds (r : Z) :
  0 < r -> 2 ^ (Zdigits2 r - 1) <= r < 2 ^ Zdigits2 r.
Proof.
  destruct r as [|q|q]; try lia. intros _. cbn [Zdigits2]. apply digits2_pos_bounds.
Qed.

Lemma pow2_lt_inv (a b : Z) : 0 <= b -> 2 ^ a < 2 ^ b -> a < b.
Proof.
  intros Hb H. destruct (Z.lt_ge_cases a b) as [Hlt|Hge]; [exact Hlt|].
  assert (2 ^ b <= 2 ^ a) by (apply pow2_le; lia). lia.
Qed.

(** The second normalisation of [binary_round_aux], on a rounded mantissa
    [r] of at most 24 bits, or exactly [2^24], at an exponent [e'] that is
    the least one unless [r] has 24 bits. *)
Lemma renormalise_finite (s : bool) (r e' : Z) :
  0 <= r <= 16777216 -> -149 <= e' ->
  (e' = -149 \/ 8388608 <= r) ->
  e' <= 104 -> (r = 16777216 -> e' <= 103) ->
  let p2 := shr_fexp 24 128 r e' loc_Exact in
  is_finite_float
    match shr_m (fst p2) with
    | Z0 => S754_zero s
    | Zpos m => if Z.leb (snd p2) (128 - 24) then S754_finite s m (snd p2)
                else S754_infinity s
    | _ => S754_nan
    end.
Proof.
  intros Hr He' Hnorm Hmax Hcarry.
  destruct (Z.eq_dec r 16777216) as [->|Hne].
  - specialize (Hcarry eq_refl).
    unfold shr_fexp, fexp, emin. change (Zdigits2 16777216) with 25.
    replace (Z.max (25 + e' - 24) (3 - 128 - 24) - e') with 1 by lia.
    cbn [shr_record_of_loc shr SpecFloat.iter_pos shr_1 fst snd shr_m].
    replace (e' + 1 <=? 128 - 24) with true by (symmetry; apply Z.leb_le; lia).
    split; [|exact I].
    unfold valid_binary, bounded, canonical_mantissa, fexp, emin,
      fp.float_prec, fp.float_emax.
    change (Z.pos (digits2_pos 8388608)) with 24.
    apply andb_true_intro. split; [apply Z.eqb_eq|apply Z.leb_le]; lia.
  - destruct (Z.eq_dec r 0) as [->|Hpos].
    + unfold shr_fexp, fexp, emin. cbn [Zdigits2].
      rewrite shr_none by lia. cbn [fst snd shr_record_of_loc shr_m].
      split; [reflexivity|exact I].
    + assert (Hr' : 0 < r < 16777216) by lia.
      pose proof (Zdigits2_bounds r ltac:(lia)) as [Hlo Hhi].
      assert (Hd0 : 0 < Zdigits2 r) by (destruct r; try lia; reflexivity).
      assert (Hd : Zdigits2 r <= 24).
      { assert (Zdigits2 r - 1 < 24); [|lia].
        apply pow2_lt_inv; [lia|]. change (2 ^ 24) with 16777216. lia. }
      assert (Hd' : 8388608 <= r -> Zdigits2 r = 24).
      { intros H. assert (23 < Zdigits2 r); [|lia].
        apply pow2_lt_inv; [lia|]. change (2 ^ 23) with 8388608. lia. }
      unfold shr_fexp, fexp, emin.
      rewrite shr_none by lia. cbn [fst snd shr_record_of_loc shr_m].
      destruct r as [|q|q]; try lia.
      replace (e' <=? 128 - 24) with true by (symmetry; apply Z.leb_le; lia).
      split; [|exact I].
      unfold valid_binary, bounded, canonical_mantissa, fexp, emin,
        fp.float_prec, fp.float_emax.
      cbn [Zdigits2] in Hd, Hd'.
      apply andb_true_intro. split; [apply Z.eqb_eq|apply Z.leb_le]; lia.
Qed.

(** Narrowing a double below the largest float: the mantissa loses
    [max (D - 24) (-149 - e)] bits, is rounded, and is renormalised. *)
Lemma narrowing_below_max (s : bool) (m : positive) (e : Z) :
  Z.pos (digits2_pos m) <= 53 ->
  (Z.pos (digits2_pos m) = 53 \/ e = -1074) ->
  -1074 <= e ->
  (e < 75 \/ (e = 75 /\ Z.pos m < 9007198717870080)) ->
  is_finite_float (binary_round 24 128 s m e).
Proof.
  intros HD Hcanon Hemin Hwin.
  pose proof (digits2_pos_bounds m) as [Hlo Hhi].
  set (D := Z.pos (digits2_pos m)) in *.
  assert (He' : fexp 24 128 (D + e) = Z.max (D + e - 24) (-149)) by reflexivity.
  unfold binary_round. fold D.
  rewrite shl_align_none by (rewrite He'; lia).
  cbv beta iota. rewrite binary_round_aux_eq. cbv zeta.
  change (shr_fexp 24 128 (Z.pos m) e loc_Exact)
    with (shr (shr_record_of_loc (Z.pos m) loc_Exact) e (fexp 24 128 (D + e) - e)).
  set (e' := fexp 24 128 (D + e)) in *. clearbody e'.
  destruct (shr_right (shr_record_of_loc (Z.pos m) loc_Exact) e (e' - e))
    as (mrs' & Hshr & Hm'); [lia|cbn [shr_record_of_loc shr_m]; lia|].
  cbn [shr_record_of_loc shr_m] in Hm'.
  rewrite Hshr. cbn [fst snd].
  replace (e + (e' - e)) with e' by lia.
  pose proof (round_nearest_even_bounds (shr_m mrs') (loc_of_shr_record mrs')) as Hr.
  set (r := round_nearest_even (shr_m mrs') (loc_of_shr_record mrs')) in *.
  clearbody r. rewrite Hm' in Hr. clear Hm' Hshr mrs'.
  assert (Hn : 0 < e' - e) by lia.
  assert (Hpn : 0 < 2 ^ (e' - e)) by (apply Z.pow_pos_nonneg; lia).
  assert (Hq0 : 0 <= Z.pos m / 2 ^ (e' - e)) by (apply Z.div_pos; lia).
  assert (Hq1 : Z.pos m / 2 ^ (e' - e) < 16777216).
  { apply Z.div_lt_upper_bound; [exact Hpn|].
    change 16777216 with (2 ^ 24). rewrite <- Z.pow_add_r by lia.
    eapply Z.lt_le_trans; [exact Hhi|]. apply pow2_le. lia. }
  apply (renormalise_finite s r e').
  - lia.
  - lia.
  - destruct (Z.eq_dec e' (-149)) as [E|E]; [left; exact E|right].
    assert (Hn' : e' - e = D - 24) by lia.
    assert (8388608 <= Z.pos m / 2 ^ (e' - e)); [|lia].
    apply Z.div_le_lower_bound; [exact Hpn|].
    change 8388608 with (2 ^ 23). rewrite <- Z.pow_add_r by lia.
    replace (e' - e + 23) with (D - 1) by lia. exact Hlo.
  - lia.
  - intros Hcarry. destruct Hwin as [Hlt|[-> Hm]]; [lia|].
    exfalso.
    assert (HD53 : D = 53) by lia.
    assert (Hn' : e' - 75 = 29) by lia.
    rewrite Hn' in *.
    assert (Z.pos m / 2 ^ 29 < 16777215); [|lia].
    apply Z.div_lt_upper_bound; [exact Hpn|].
    change (2 ^ 29 * 16777215) with 9007198717870080. exact Hm.
Qed.

Lemma narrowing_at_max (s : bool) :
  is_finite_float (binary_round 24 128 s 9007198717870080 75).
Proof. destruct s; (split; [vm_compute; reflexivity|exact I]). Qed.

(** A double the range check lets through narrows to a well-formed,
    finite float. *)
Lemma double_to_float_finite (d : spec_float) :
  fp.is_double d -> fp.in_float_range d -> is_finite_float (fp.double_to_float d).
Proof.
  intros Hd Hin. pose proof (proj2 (double_range_check d Hd) Hin) as Hchk.
  rewrite float_max_as_double, float_lowest_as_double in Hchk.
  unfold fp.le, fp.ge in Hchk.
  destruct d as [s|s| |s m e]; [|destruct Hin|destruct Hin|].
  - split; [reflexivity|exact I].
  - apply SFleb_window in Hchk.
    unfold fp.is_double, valid_binary, bounded in Hd.
    apply andb_prop in Hd as [Hc _].
    unfold canonical_mantissa, fexp, emin, fp.double_prec, fp.double_emax in Hc.
    apply Z.eqb_eq in Hc.
    cbn [fp.double_to_float]. unfold fp.float_prec, fp.float_emax.
    destruct (Pos.eq_dec m 9007198717870080%positive) as [->|Hne].
    + destruct Hchk as [Hlt|[-> _]]; [|apply narrowing_at_max].
      apply narrowing_below_max; [| | |left; exact Hlt];
        change (Z.pos (digits2_pos 9007198717870080)) with 53 in *; lia.
    + apply narrowing_below_max; lia.
Qed.

(** X12: a double constant that the translator accepts becomes the
    float32 constant holding the rounded double, and that float is a
    well-formed binary32 number, finite or zero: after the two range checks
    the narrowing cast never overflows to an infinity and never gives NaN,
    also when it rounds up at the top of the range. *)
Theorem accepted_double_is_a_finite_float
    (sentinel : Z) (ctx : DLContext) (d : spec_float) (c : Expr) :
  fp.is_double d ->
  convertToRelay_IValue sentinel (IDouble d) ctx = Ok c ->
  c = float32_scalar ctx (fp.double_to_float d) /\
  is_finite_float (fp.double_to_float d).
Proof.
  intros Hd Hc. cbn [convertToRelay_IValue] in Hc.
  destruct (fp.le d _) eqn:Hle; cbn [negb] in Hc; [|discriminate Hc].
  destruct (fp.ge d _) eqn:Hge; cbn [negb] in Hc; [|discriminate Hc].
  injection Hc as <-. split; [reflexivity|].
  apply double_to_float_finite; [exact Hd|].
  apply (double_range_check d Hd). rewrite Hle, Hge. reflexivity.
Qed.

Lemma accepted_double_is_a_finite_float_witness :
  fp.double_to_float DemoMore.d_near_max = fp.float_max /\
  float32_scalar Demo.cpu fp.float_max
    = float32_scalar Demo.cpu (fp.double_to_float DemoMore.d_near_max) /\
  is_finite_float (fp.double_to_float DemoMore.d_near_max).
Proof.
  split; [vm_compute; reflexivity|].
  apply (accepted_double_is_a_finite_float 0 Demo.cpu DemoMore.d_near_max
           (float32_scalar Demo.cpu fp.float_max)).
  - vm_compute. reflexivity.
  - vm_compute. reflexivity.
Defined.

(** ** Failures after the translation *)

Lemma build_and_store_failure E spec f st e :
  build_failure E (self st) f e ->
  build_and_store E spec f st = (Throw e, emit (EvBuild f) st).
Proof.
  unfold build_failure, build_and_store. intros H.
  rewrite (bind_eq get _ st st st eq_refl).
  rewrite (bind_eq (modify (emit (EvBuild f))) _ st tt (emit (EvBuild f) st) eq_refl).
  destruct (build E f _ _ _) as [lib|e'].
  - rewrite (bind_eq (lift _) _ _ lib (emit (EvBuild f) st) eq_refl).
    destruct (registry E _).
    + rewrite (bind_eq (ret tt) _ _ tt (emit (EvBuild f) st) eq_refl).
      unfold bind, lift. rewrite H. reflexivity.
    + subst e. reflexivity.
  - subst e'. reflexivity.
Qed.

(** X13: the fallback covers the translation only.  When the translation
    returns a function and the build, the registry lookup of line 280 or
    the creation of the runtime throws, the invocation throws that error
    in non-strict mode as in strict mode: the interpreter is not run and
    the stack is unchanged.  The entry made at line 260 stays in the cache
    with empty functions, so every later invocation with that signature
    takes the cache-hit path and throws without translating again. *)
Theorem build_failure_is_not_caught E fuel st inputs f e :
  cache_ (self st) !! CompleteArgumentSpec inputs = None ->
  translation E fuel st inputs (Ok f) ->
  build_failure E (self st) f e ->
  exists st' values,
    run E fuel st = Some (Throw e, st') /\
    stack st' = stack st /\
    trace st' = trace st ++ [EvConvertToRelay (CompleteArgumentSpec inputs); EvBuild f] /\
    cache_ (self st') !! CompleteArgumentSpec inputs
      = Some (TVMObject.mk None None None None values) /\
    (forall stack2 inputs2,
       last stack2 (length (g_inputs (subgraph_ (self st')))) = Ok inputs2 ->
       CompleteArgumentSpec inputs2 = CompleteArgumentSpec inputs ->
       exists e2 st2 new,
         run E fuel (set_stack (fun _ => stack2) st') = Some (Throw e2, st2) /\
         trace st2 = trace st' ++ new /\ Forall execute_event new).
Proof.
  intros Hmiss (Hlast & st1 & ts & Hinfer & Htr) Hfail.
  destruct (infer_types_effect _ _ _ _ Hinfer) as (Hself & Hstack & Htrace & Haddr).
  unfold run. rewrite Hlast, Hmiss. unfold compile. rewrite Hinfer.
  unfold cache_at. rewrite Hself, Hmiss. unfold translate.
  cbn [self emit set_self with_cache subgraph_ ctx_ value_types var_addr TVMObject.input_values
       TVMObject.default].
  rewrite Hself, Haddr.
  cbn [subgraph_ ctx_ with_cache]. rewrite Htr.
  rewrite (build_and_store_failure E _ f _ e)
    by (cbn [self set_self with_cache cache_ set_var_addr set_value_types emit ctx_ device_ host_];
        rewrite Hself; exact Hfail).
  assert (Hentry : forall (c : gmap Signature TVMObject.t) l,
            <[CompleteArgumentSpec inputs := TVMObject.with_input_values l TVMObject.default]> c
              !! CompleteArgumentSpec inputs
            = Some (TVMObject.mk None None None None l)).
  { intros c l. apply lookup_insert_eq. }
  eexists _, (default [] (input_values ts)).
  split; [reflexivity|].
  cbn [self set_self with_cache cache_ set_var_addr set_value_types emit stack trace subgraph_].
  split; [exact Hstack|].
  split; [rewrite Htrace, <- app_assoc; reflexivity|].
  split; [apply Hentry|].
  intros stack2 inputs2 Hlast2 Hsig.
  unfold run. cbn [self stack set_stack set_self with_cache subgraph_ cache_ emit
                   set_var_addr set_value_types].
  rewrite Hlast2, Hsig, Hentry.
  match goal with
  | |- context [execute E ?sp ?m ?s] =>
      destruct (execute_empty_kernel E sp m s _ (Hentry _ _) eq_refl) as (e2 & st2 & Hex);
      pose proof (execute_effect E sp m s _ _ Hex) as [(new & Hnew & Hall) _]
  end.
  exists e2, st2, new. rewrite Hex. repeat split; assumption.
Qed.

Lemma translation_nobuild strict :
  translation DemoMore.ext_nobuild 5 (DemoMore.nobuild_start strict) [ITensor Demo.t22]
    (Ok DemoMore.relu_function).
Proof. apply translation_result_sound. destruct strict; vm_compute; reflexivity. Qed.

Lemma build_failure_is_not_caught_witness :
  exists st' values,
    run DemoMore.ext_nobuild 5 (DemoMore.nobuild_start false)
      = Some (Throw (BuildError "no such target"), st') /\
    stack st' = [ITensor Demo.t22] /\
    trace st' = [EvConvertToRelay DemoRuns.sig22; EvBuild DemoMore.relu_function] /\
    cache_ (self st') !! DemoRuns.sig22 = Some (TVMObject.mk None None None None values).
Proof.
  destruct (build_failure_is_not_caught DemoMore.ext_nobuild 5 (DemoMore.nobuild_start false)
              [ITensor Demo.t22] DemoMore.relu_function (BuildError "no such target"))
    as (st' & values & Hrun & Hstack & Htrace & Hentry & _).
  - reflexivity.
  - apply translation_nobuild.
  - reflexivity.
  - exists st', values. auto.
Defined.











(** ** The errors of a translation *)

Lemma bind_throw {S A B} (m : M S A) (k : A -> M S B) s e s' :
  bind m k s = (Throw e, s') ->
  m s = (Throw e, s') \/ exists a s1, m s = (Ok a, s1) /\ k a s1 = (Throw e, s').
Proof.
  unfold bind. destruct (m s) as [[a|e0] s1]; [eauto|].
  intros [= <- <-]. left. reflexivity.
Qed.

Section TranslationErrors.
Variable getOperator : Node -> list Expr -> result Expr.
Variable sentinel : Z.
Variable g : Graph.
Variable ctx : DLContext.

Lemma translation_error_operator n args e :
  getOperator n args = Throw e -> translation_error getOperator e.
Proof. intros H. destruct e; cbn; eauto. Qed.

Lemma int32_constant_error l e :
  int32_constant l ctx = Throw e -> translation_error getOperator e.
Proof.
  unfold int32_constant. intros H.
  destruct (negb _); [injection H as <-; exact I|].
  destruct (negb _); [injection H as <-; exact I|discriminate].
Qed.

Lemma int32_constants_error ls : forall e,
  int32_constants ls ctx = Throw e -> translation_error getOperator e.
Proof.
  induction ls as [|l ls IH]; intros e H; cbn [int32_constants] in H; [discriminate|].
  destruct (int32_constant l ctx) as [c|e0] eqn:Hc.
  - destruct (int32_constants ls ctx) as [cs|e1]; [discriminate|].
    injection H as <-. apply IH. reflexivity.
  - injection H as <-. exact (int32_constant_error _ _ Hc).
Qed.

Lemma convertToRelay_IValue_error iv e :
  convertToRelay_IValue sentinel iv ctx = Throw e -> translation_error getOperator e.
Proof.
  intros H. destruct iv; cbn [convertToRelay_IValue] in H;
    try discriminate H; try (injection H as <-; exact I).
  - destruct (negb _); [injection H as <-; exact I|].
    destruct (negb _); [injection H as <-; exact I|discriminate].
  - exact (int32_constant_error _ _ H).
  - destruct (int32_constants l ctx) as [es|e'] eqn:Hes; [discriminate|].
    injection H as <-. exact (int32_constants_error _ _ Hes).
Qed.

Lemma scalarTypeToTVMType_error t e :
  scalarTypeToTVMType t = Throw e -> e = CouldNotHandleType t.
Proof.
  unfold scalarTypeToTVMType. destruct (type_mapping !! t); [discriminate|].
  intros [= <-]. reflexivity.
Qed.

(** Lines 35-55 on a value that has a complete type, or is a constant
    tensor: the assertion of line 54 is not reached. *)
Lemma convertToRelay_Value_error val s e s' :
  (toIValue g val = None /\ is_Some (types s !! val)) \/
  (exists t, toIValue g val = Some (ITensor t)) ->
  convertToRelay_Value g val ctx s = (Throw e, s') ->
  translation_error getOperator e.
Proof.
  intros Hval H. unfold convertToRelay_Value in H.
  destruct Hval as [[Hnone [ct Hct]]|[t Ht]].
  - rewrite Hnone in H. unfold bind, ret, get in H. rewrite Hct in H.
    unfold lift, VarNode_make in H.
    destruct (scalarTypeToTVMType _) as [dt|e0] eqn:Hdt; [discriminate|].
    injection H as <- <-. rewrite (scalarTypeToTVMType_error _ _ Hdt). exact I.
  - rewrite Ht in H. unfold bind, lift, modify, get in H. cbn [toTensor] in H.
    cbn [types set_types] in H. unfold inferTypeFrom in H.
    rewrite lookup_insert_eq in H. cbn [ct_scalarType] in H.
    unfold VarNode_make in H.
    destruct (scalarTypeToTVMType _) as [dt|e0] eqn:Hdt; [discriminate|].
    injection H as <- <-. rewrite (scalarTypeToTVMType_error _ _ Hdt). exact I.
Qed.

Lemma convertToRelay_Value_types val s r s' :
  toIValue g val = None ->
  convertToRelay_Value g val ctx s = (r, s') -> types s' = types s.
Proof.
  intros Hnone H. unfold convertToRelay_Value in H. rewrite Hnone in H.
  unfold bind, ret, get in H.
  destruct (types s !! val) as [ct|]; [|injection H as <- <-; reflexivity].
  unfold lift, VarNode_make in H.
  destruct (scalarTypeToTVMType _); injection H as <- <-; reflexivity.
Qed.

(** Lines 123-131 on inputs that all carry a complete type: the assertion
    of line 124 holds every time. *)
Lemma seed_inputs_error inputs : forall s e s',
  (forall v, In v inputs -> toIValue g v = None /\ is_Some (types s !! v)) ->
  seed_inputs g ctx inputs s = (Throw e, s') ->
  translation_error getOperator e.
Proof.
  induction inputs as [|input rest IH]; intros s e s' Hin H; [discriminate|].
  cbn [seed_inputs] in H.
  destruct (Hin input (or_introl eq_refl)) as [Hnone Hty].
  apply bind_throw in H as [H|(s0 & s0' & [= <- <-] & H)]; [discriminate|].
  destruct (decide (is_Some (types s !! input))) as [_|Hno]; [|contradiction].
  apply bind_throw in H as [H|([] & s1 & [= <-] & H)]; [discriminate|].
  apply bind_throw in H as [H|(v & s2 & Hv & H)].
  { eapply convertToRelay_Value_error; [left; split; eassumption|exact H]. }
  apply convertToRelay_Value_types in Hv; [|exact Hnone].
  apply bind_throw in H as [H|([] & s3 & [= <-] & H)]; [discriminate|].
  apply bind_throw in H as [H|([] & s4 & [= <-] & H)]; [discriminate|].
  apply bind_throw in H as [H|([] & s5 & [= <-] & H)]; [discriminate|].
  eapply IH; [|exact H].
  intros w Hw. cbn [types set_value_map push_input_value push_input_var].
  rewrite Hv. apply Hin. right. exact Hw.
Qed.

Lemma resolve_inputs_error inputs : forall acc s e s',
  resolve_inputs sentinel g ctx inputs acc s = (Throw e, s') ->
  translation_error getOperator e.
Proof.
  induction inputs as [|input rest IH]; intros acc s e s' H; [discriminate|].
  cbn [resolve_inputs] in H.
  apply bind_throw in H as [H|(s0 & s0' & [= <- <-] & H)]; [discriminate|].
  destruct (value_map s !! input) as [ex|]; [exact (IH _ _ _ _ H)|].
  destruct (toIValue g input) as [iv|] eqn:Hiv; [|discriminate].
  destruct (isTensor iv) eqn:Htens.
  - destruct iv; try discriminate Htens.
    apply bind_throw in H as [H|([] & s1 & [= <-] & H)]; [discriminate|].
    apply bind_throw in H as [H|(v & s2 & Hv & H)].
    { eapply convertToRelay_Value_error; [right; eauto|exact H]. }
    apply bind_throw in H as [H|([] & s3 & [= <-] & H)]; [discriminate|].
    apply bind_throw in H as [H|([] & s4 & [= <-] & H)]; [discriminate|].
    exact (IH _ _ _ _ H).
  - apply bind_throw in H as [H|(ex & s1 & Hex & H)].
    { unfold lift in H. injection H as H _. exact (convertToRelay_IValue_error _ _ H). }
    apply bind_throw in H as [H|([] & s2 & [= <-] & H)]; [discriminate|].
    exact (IH _ _ _ _ H).
Qed.

Lemma bind_outputs_error tuple outputs : forall index nf s e s',
  bind_outputs tuple outputs index nf s = (Throw e, s') -> False.
Proof.
  induction outputs as [|o outputs IH]; intros index nf s e s' H; [discriminate|].
  cbn [bind_outputs] in H.
  apply bind_throw in H as [H|([] & s1 & [= <-] & H)]; [discriminate|].
  exact (IH _ _ _ _ _ H).
Qed.

Lemma visit_user_error user nf s e s' :
  visit_user getOperator sentinel g ctx user nf s = (Throw e, s') ->
  translation_error getOperator e.
Proof.
  unfold visit_user. intros H.
  apply bind_throw in H as [H|(r & s1 & Hr & H)]; [exact (resolve_inputs_error _ _ _ _ _ H)|].
  destruct r as [relay_inputs|]; [|discriminate].
  destruct (n_outputs user) as [|o1 [|o2 outs]]; [discriminate| |].
  - apply bind_throw in H as [H|(ex & s2 & Hex & H)].
    + unfold lift in H. injection H as H _. exact (translation_error_operator _ _ _ H).
    + apply bind_throw in H as [H|([] & s3 & [= <-] & H)]; discriminate.
  - apply bind_throw in H as [H|(ex & s2 & Hex & H)].
    + unfold lift in H. injection H as H _. exact (translation_error_operator _ _ _ H).
    + destruct (bind_outputs_error _ _ _ _ _ _ _ H).
Qed.

Lemma visit_uses_error users : forall nf s e s',
  visit_uses getOperator sentinel g ctx users nf s = (Throw e, s') ->
  translation_error getOperator e.
Proof.
  induction users as [|user users IH]; intros nf s e s' H; [discriminate|].
  cbn [visit_uses] in H.
  apply bind_throw in H as [H|(nf1 & s1 & _ & H)];
    [exact (visit_user_error _ _ _ _ _ H)|exact (IH _ _ _ _ H)].
Qed.

Lemma visit_frontier_error frontier : forall nf s e s',
  visit_frontier getOperator sentinel g ctx frontier nf s = (Throw e, s') ->
  translation_error getOperator e.
Proof.
  induction frontier as [|v frontier IH]; intros nf s e s' H; [discriminate|].
  cbn [visit_frontier] in H.
  apply bind_throw in H as [H|(nf1 & s1 & _ & H)];
    [exact (visit_uses_error _ _ _ _ _ H)|exact (IH _ _ _ _ H)].
Qed.

Lemma propagate_error fuel : forall frontier s e s',
  propagate getOperator sentinel g ctx fuel frontier s = Some (Throw e, s') ->
  translation_error getOperator e.
Proof.
  induction fuel as [|fuel IH]; intros [|v frontier] s e s' H; try discriminate H.
  cbn [propagate] in H.
  destruct (visit_frontier _ _ _ _ _ _ _) as [[nf|e0] s1] eqn:Hv.
  - exact (IH _ _ _ _ H).
  - injection H as <- <-. exact (visit_frontier_error _ _ _ _ _ Hv).
Qed.

Lemma collect_outputs_error outputs : forall acc s e s',
  collect_outputs outputs acc s = (Throw e, s') -> translation_error getOperator e.
Proof.
  induction outputs as [|o outputs IH]; intros acc s e s' H; [discriminate|].
  cbn [collect_outputs] in H.
  apply bind_throw in H as [H|(s0 & s0' & [= <- <-] & H)]; [discriminate|].
  destruct (value_map s !! o); [exact (IH _ _ _ _ H)|].
  injection H as <- <-. exact I.
Qed.

Lemma assemble_error s e s' :
  assemble g s = (Throw e, s') -> translation_error getOperator e.
Proof.
  unfold assemble. intros H.
  apply bind_throw in H as [H|(fields & s1 & _ & H)]; [exact (collect_outputs_error _ _ _ _ _ H)|].
  apply bind_throw in H as [H|(s0 & s0' & [= <- <-] & H)]; [discriminate|].
  destruct (negb _); [|discriminate]. injection H as <- <-. exact I.
Qed.

Lemma convertToRelay_Graph_error fuel input_values types next_var e s' :
  (forall v, In v (g_inputs g) -> toIValue g v = None /\ is_Some (types !! v)) ->
  convertToRelay_Graph getOperator sentinel g ctx fuel input_values types next_var
    = Some (Throw e, s') ->
  translation_error getOperator e.
Proof.
  intros Hin H. unfold convertToRelay_Graph in H.
  destruct (seed_inputs g ctx _ _) as [[[]|e0] s1] eqn:Hseed.
  - destruct (propagate _ _ _ _ _ _ _) as [[[[]|e1] s2]|] eqn:Hprop; [| |discriminate].
    + injection H as H. exact (assemble_error _ _ _ H).
    + injection H as <- <-. exact (propagate_error _ _ _ _ _ Hprop).
  - injection H as <- <-. eapply seed_inputs_error; [|exact Hseed]. exact Hin.
Qed.
End TranslationErrors.

(** Lines 252-254 give every key a complete type. *)
Lemma infer_types_typed kvs : forall st st' v,
  infer_types kvs st = (Ok tt, st') ->
  In v (map fst kvs) \/ is_Some (value_types st !! v) ->
  is_Some (value_types st' !! v).
Proof.
  induction kvs as [|[w iv] kvs IH]; intros st st' v H Hv.
  - injection H as <-. destruct Hv as [[]|Hv]. exact Hv.
  - cbn [infer_types] in H.
    apply bind_ok in H as (t & s1 & Hl & H).
    unfold lift in Hl. injection Hl as Hl <-.
    apply bind_ok in H as ([] & s2 & [= <-] & H).
    apply (IH _ _ _ H).
    cbn [value_types set_value_types]. unfold inferTypeFrom.
    destruct (decide (w = v)) as [->|Hne].
    + right. rewrite lookup_insert_eq. eauto.
    + rewrite lookup_insert_ne by exact Hne.
      destruct Hv as [[Hv|Hv]|Hv]; [contradiction|left; exact Hv|right; exact Hv].
Qed.

(** X15: what a translation started by an invocation can throw.  Lines
    252-254 give every graph input a complete type before line 260, and a
    constant tensor gets its type at line 38, so on a graph whose inputs
    are not constants the assertions of lines 124 and 54 hold whenever
    they are reached.  A translation that throws therefore throws an error
    of the type mapper, of the constant translator, of line 196 or of line
    203, or an error the operator table threw; unless the operator table
    threw it, the error is none of the complete-tensor assertions and not
    the tensor cast. *)
Theorem translation_errors_of_an_invocation E fuel st inputs e :
  (forall v, In v (g_inputs (subgraph_ (self st))) ->
     toIValue (subgraph_ (self st)) v = None) ->
  translation E fuel st inputs (Throw e) ->
  translation_error (getOperator E) e /\
  ((forall n args, getOperator E n args <> Throw e) ->
   forall v, e <> InputNotCompleteTensor v /\ e <> ValueNotCompleteTensor v /\ e <> NotATensor).
Proof.
  intros Hconst (Hlast & st1 & ts & Hinfer & Htr).
  destruct (last_ok _ _ _ Hlast) as [Hlen _].
  assert (Herr : translation_error (getOperator E) e).
  { eapply convertToRelay_Graph_error; [|exact Htr].
    intros v Hv. split; [apply Hconst, Hv|].
    apply (infer_types_typed _ _ _ v Hinfer). left.
    assert (Hsome : is_Some (bind_graph_inputs (g_inputs (subgraph_ (self st))) inputs ∅ !! v))
      by (apply bind_graph_inputs_is_Some; [exact Hlen|left; exact Hv]).
    destruct Hsome as [iv Hiv]. apply elem_of_map_to_list in Hiv.
    apply list_elem_of_In in Hiv. apply (in_map fst) in Hiv. exact Hiv. }
  split; [exact Herr|].
  intros Hop v.
  repeat split; intros ->; destruct Herr as (n & args & Hn); exact (Hop _ _ Hn).
Qed.

Lemma translation_errors_of_an_invocation_witness :
  translation_error Demo.getOperator (OperatorError "aten::frobnicate").
Proof.
  apply (translation_errors_of_an_invocation Demo.ext 5 (DemoRuns.unknown_start true)
           [ITensor Demo.t22] (OperatorError "aten::frobnicate")).
  - reflexivity.
  - apply translation_unknown.
Defined.
